(** * Content loader: markup transformer, slug generator, retrieval
      coordinator, navigation generator and lightbox

    A shallow embedding of [js/content-loader.js].  JavaScript strings are
    sequences of UTF-16 code units; the regular expressions of the source are
    transcribed one by one as values of [regex] and run by a backtracking
    matcher that follows the ECMAScript matching order (leftmost match,
    greedy and lazy quantifiers, capture groups, [^] and [$] under the
    multiline flag, ASCII case folding under the ignore-case flag). *)

From Stdlib Require Import String Ascii.
From Stdlib Require Import List NArith Bool Arith Lia.
Import ListNotations.

Set Implicit Arguments.

(** ** Strings *)

Definition cu := N.
Definition jsstring := list cu.

(** String literals.  The apostrophe of a literal stands for the double
    quote U+0022, so that HTML attributes can be written inline. *)
Definition js (s : string) : jsstring :=
  map (fun a => let n := N_of_ascii a in if N.eqb n 39 then 34%N else n)
      (list_ascii_of_string s).
Arguments js s%_string.

Definition nl : cu := 10%N.
Definition spaces (n : nat) : jsstring := repeat 32%N n.

Definition in_range (lo hi c : cu) : bool := N.leb lo c && N.leb c hi.

(** [LineTerminator]: LF, CR, LS, PS. *)
Definition is_line_terminator (c : cu) : bool :=
  (N.eqb c 10 || N.eqb c 13 || N.eqb c 8232 || N.eqb c 8233)%N.

(** [\s] and the set stripped by [String.prototype.trim]:
    WhiteSpace and LineTerminator. *)
Definition is_space (c : cu) : bool :=
  (in_range 9 13 c || N.eqb c 32 || N.eqb c 160 || N.eqb c 5760
   || in_range 8192 8202 c || N.eqb c 8232 || N.eqb c 8233
   || N.eqb c 8239 || N.eqb c 8287 || N.eqb c 12288 || N.eqb c 65279)%N.

Definition is_digit (c : cu) : bool := in_range 48%N 57%N c.
Definition is_upper (c : cu) : bool := in_range 65%N 90%N c.
Definition is_lower (c : cu) : bool := in_range 97%N 122%N c.

(** [\w] without the unicode flag: ASCII letters, digits and underscore. *)
Definition is_word (c : cu) : bool :=
  (is_upper c || is_lower c || is_digit c || N.eqb c 95%N).

(** [.] without the dotAll flag. *)
Definition is_dot (c : cu) : bool := negb (is_line_terminator c).

Definition any_cu (c : cu) : bool := true.
Definition is_not (x : cu) (c : cu) : bool := negb (N.eqb c x).

Definition is_ascii (c : cu) : bool := N.ltb c 128%N.
Definition ascii_lower (c : cu) : cu := if is_upper c then (c + 32)%N else c.
Definition ascii_upper (c : cu) : cu := if is_lower c then (c - 32)%N else c.

Fixpoint starts_with (p s : jsstring) : bool :=
  match p, s with
  | [], _ => true
  | a :: p', b :: s' => N.eqb a b && starts_with p' s'
  | _ :: _, [] => false
  end.

(** Strict equality of strings. *)
Fixpoint str_eqb (a b : jsstring) : bool :=
  match a, b with
  | [], [] => true
  | x :: a', y :: b' => N.eqb x y && str_eqb a' b'
  | _, _ => false
  end.

Fixpoint drop_while (p : cu -> bool) (s : jsstring) : jsstring :=
  match s with
  | c :: s' => if p c then drop_while p s' else s
  | [] => []
  end.

(** [String.prototype.trim]. *)
Definition trim (s : jsstring) : jsstring :=
  rev (drop_while is_space (rev (drop_while is_space s))).

(** [Array.prototype.join]. *)
Fixpoint join (sep : jsstring) (parts : list jsstring) : jsstring :=
  match parts with
  | [] => []
  | [x] => x
  | x :: rest => x ++ sep ++ join sep rest
  end.

(** [String.prototype.split] with a separator of one code unit.  [cur]
    holds the piece being read. *)
Fixpoint split_on (sep : cu) (cur : jsstring) (s : jsstring) : list jsstring :=
  match s with
  | [] => [cur]
  | c :: s' => if N.eqb c sep then cur :: split_on sep [] s'
               else split_on sep (cur ++ [c]) s'
  end.

Definition split_char (sep : cu) (s : jsstring) : list jsstring :=
  split_on sep [] s.

(** ** Regular expressions *)

Record flags := { icase : bool; multiline : bool }.

Definition fl_g : flags := {| icase := false; multiline := false |}.
Definition fl_gm : flags := {| icase := false; multiline := true |}.
Definition fl_gi : flags := {| icase := true; multiline := false |}.

(** The fragment of the pattern language the source uses.  Every
    quantifier of the source except one applies to a single character
    class ([Rep]); the exception is the optional group of the code-fence
    pattern ([Opt]). *)
Inductive regex : Type :=
| Eps
| Chr (c : cu)
| Cls (p : cu -> bool)
| Bol
| Eol
| Rep (p : cu -> bool) (min : nat) (greedy : bool)
| Seq (a b : regex)
| Alt (a b : regex)
| Grp (i : nat) (a : regex)
| Opt (a : regex).

Definition captures := list (nat * jsstring).

Fixpoint cap_opt (caps : captures) (i : nat) : option jsstring :=
  match caps with
  | [] => None
  | (j, v) :: rest => if Nat.eqb i j then Some v else cap_opt rest i
  end.

(** [$i] in a replacement: a group that did not take part yields the
    empty string. *)
Definition cap (caps : captures) (i : nat) : jsstring :=
  match cap_opt caps i with Some v => v | None => [] end.

(** Character comparison.  Under the ignore-case flag a pattern character
    (always ASCII in the source) matches the code units with the same
    ASCII upper-case form; code units above U+007F never fold into
    ASCII. *)
Definition chr_eq (fl : flags) (c x : cu) : bool :=
  if icase fl then N.eqb (ascii_upper c) (ascii_upper x) else N.eqb c x.

Definition at_bol (fl : flags) (prev : option cu) : bool :=
  match prev with
  | None => true
  | Some c => multiline fl && is_line_terminator c
  end.

Definition at_eol (fl : flags) (s : jsstring) : bool :=
  match s with
  | [] => true
  | c :: _ => multiline fl && is_line_terminator c
  end.

Section Matcher.

Variable A : Type.

(** A quantified character class followed by the continuation [k].
    [prev] is the code unit before the current position. *)
Fixpoint rep (p : cu -> bool) (greedy : bool) (min : nat)
    (prev : option cu) (s : jsstring)
    (k : option cu -> jsstring -> option A) {struct s} : option A :=
  match s with
  | c :: s' =>
      if p c then
        if greedy then
          match rep p greedy (pred min) (Some c) s' k with
          | Some r => Some r
          | None => match min with O => k prev s | S _ => None end
          end
        else
          match (match min with O => k prev s | S _ => None end) with
          | Some r => Some r
          | None => rep p greedy (pred min) (Some c) s' k
          end
      else match min with O => k prev s | S _ => None end
  | [] => match min with O => k prev s | S _ => None end
  end.

Fixpoint rmatch (fl : flags) (r : regex) (prev : option cu) (s : jsstring)
    (caps : captures)
    (k : option cu -> jsstring -> captures -> option A) {struct r} : option A :=
  match r with
  | Eps => k prev s caps
  | Chr c =>
      match s with
      | x :: s' => if chr_eq fl c x then k (Some x) s' caps else None
      | [] => None
      end
  | Cls p =>
      match s with
      | x :: s' => if p x then k (Some x) s' caps else None
      | [] => None
      end
  | Bol => if at_bol fl prev then k prev s caps else None
  | Eol => if at_eol fl s then k prev s caps else None
  | Rep p min greedy =>
      rep p greedy min prev s (fun prev' s' => k prev' s' caps)
  | Seq a b =>
      rmatch fl a prev s caps
        (fun prev' s' caps' => rmatch fl b prev' s' caps' k)
  | Alt a b =>
      match rmatch fl a prev s caps k with
      | Some r => Some r
      | None => rmatch fl b prev s caps k
      end
  | Grp i a =>
      rmatch fl a prev s caps
        (fun prev' s' caps' =>
           k prev' s' ((i, firstn (length s - length s') s) :: caps'))
  | Opt a =>
      match rmatch fl a prev s caps k with
      | Some r => Some r
      | None => k prev s caps
      end
  end.

End Matcher.

(** One match attempt at the current position: the unread rest of the
    input and the captures. *)
Definition match_here (fl : flags) (r : regex) (prev : option cu)
    (s : jsstring) : option (jsstring * captures) :=
  rmatch fl r prev s [] (fun _ s' caps => Some (s', caps)).

(** [String.prototype.replace] with a global pattern.  [skip] counts the
    code units of the last match still to be passed over.  After an empty
    match the next code unit is copied and the scan moves on by one. *)
Fixpoint replace_from (fl : flags) (r : regex) (f : captures -> jsstring)
    (skip : nat) (prev : option cu) (s : jsstring) {struct s} : jsstring :=
  match skip with
  | S n =>
      match s with
      | x :: s' => replace_from fl r f n (Some x) s'
      | [] => []
      end
  | O =>
      match match_here fl r prev s with
      | Some (rest, caps) =>
          f caps ++
          match s with
          | x :: s' =>
              match length s - length rest with
              | O => x :: replace_from fl r f 0 (Some x) s'
              | S n => replace_from fl r f n (Some x) s'
              end
          | [] => []
          end
      | None =>
          match s with
          | x :: s' => x :: replace_from fl r f 0 (Some x) s'
          | [] => []
          end
      end
  end.

Definition replace_all (fl : flags) (r : regex) (f : captures -> jsstring)
    (s : jsstring) : jsstring :=
  replace_from fl r f 0 None s.

(** [String.prototype.match] with a pattern that is not global: the first
    position at which the pattern matches. *)
Fixpoint search (fl : flags) (r : regex) (prev : option cu) (s : jsstring)
    {struct s} : option captures :=
  match match_here fl r prev s with
  | Some (_, caps) => Some caps
  | None =>
      match s with
      | x :: s' => search fl r (Some x) s'
      | [] => None
      end
  end.

Definition str_match (fl : flags) (r : regex) (s : jsstring) : option captures :=
  search fl r None s.

(** [String.prototype.split] with a pattern without capture groups: the
    pattern is tried at every position before the end of the input, and a
    match that ends where the current piece starts is passed over. *)
Fixpoint split_from (fl : flags) (r : regex) (skip : nat) (prev : option cu)
    (cur : jsstring) (s : jsstring) {struct s} : list jsstring :=
  match s with
  | [] => [cur]
  | x :: s' =>
      match skip with
      | S n => split_from fl r n (Some x) cur s'
      | O =>
          match match_here fl r prev s with
          | None => split_from fl r 0 (Some x) (cur ++ [x]) s'
          | Some (rest, _) =>
              match length s - length rest with
              | O =>
                  match cur with
                  | [] => split_from fl r 0 (Some x) [x] s'
                  | _ :: _ => cur :: split_from fl r 0 (Some x) [x] s'
                  end
              | S n => cur :: split_from fl r n (Some x) [] s'
              end
          end
      end
  end.

Definition split_re (fl : flags) (r : regex) (s : jsstring) : list jsstring :=
  match s with
  | [] => match match_here fl r None [] with Some _ => [] | None => [[]] end
  | _ :: _ => split_from fl r 0 None [] s
  end.

(** A sequence of patterns, nested to the right. *)
Fixpoint seq (rs : list regex) : regex :=
  match rs with
  | [] => Eps
  | [r] => r
  | r :: rs' => Seq r (seq rs')
  end.

(** The characters of a literal string as patterns. *)
Definition lits (s : jsstring) : list regex := map Chr s.

(** A literal string as a pattern. *)
Definition lit (s : jsstring) : regex := seq (lits s).

Fixpoint alts (rs : list regex) : regex :=
  match rs with
  | [] => Eps
  | [r] => r
  | r :: rs' => Alt r (alts rs')
  end.

Definition plus (p : cu -> bool) : regex := Rep p 1 true.
Definition star (p : cu -> bool) : regex := Rep p 0 true.
Definition plus_lazy (p : cu -> bool) : regex := Rep p 1 false.
Definition star_lazy (p : cu -> bool) : regex := Rep p 0 false.

(** ** The loader *)

Record Config := {
  contentBasePath : jsstring;
  imageBasePath : jsstring;
  defaultContentId : jsstring;
  generateTOC : bool;
  tocContainerId : jsstring
}.

(** [ContentLoader.config] as the source initialises it. *)
Definition default_config : Config := {|
  contentBasePath := js "../content/";
  imageBasePath := js "../assets/";
  defaultContentId := js "markdown-content";
  generateTOC := true;
  tocContainerId := js "table-of-contents"
|}.

(** Case mapping of the Basic Latin and Latin-1 blocks, one code unit at a
    time; code units above U+00FF are returned as they are.  It serves as
    the host's mapping when a closed example is run. *)
Definition latin1_lower (c : cu) : cu :=
  if (is_upper c || (in_range 192%N 222%N c && negb (N.eqb c 215%N)))%bool
  then (c + 32)%N else c.

Definition latin1_toLowerCase (s : jsstring) : jsstring := map latin1_lower s.

Section Loader.

(** [String.prototype.toLowerCase] on strings that hold a code unit above
    U+007F follows the host's Unicode tables: it is a parameter of the
    development. *)
Variable unicode_toLowerCase : jsstring -> jsstring.

(** [String.prototype.toLowerCase]: on an ASCII string the letters A-Z are
    mapped to a-z and nothing else changes. *)
Definition toLowerCase (s : jsstring) : jsstring :=
  if forallb is_ascii s then map ascii_lower s else unicode_toLowerCase s.

(** *** slugify *)

Definition hyphen : cu := 45%N.
Definition is_hyphen (c : cu) : bool := N.eqb c hyphen.

(** [[^\w\s-]] *)
Definition not_slug_char (c : cu) : bool :=
  negb (is_word c || is_space c || is_hyphen c).

Definition slugify (text : jsstring) : jsstring :=
  trim
    (replace_all fl_g (plus is_hyphen) (fun _ => js "-")
       (replace_all fl_g (plus is_space) (fun _ => js "-")
          (replace_all fl_g (Cls not_slug_char) (fun _ => [])
             (toLowerCase text)))).

(** *** resolveImagePath *)

Definition resolveImagePath (cfg : Config) (src : jsstring) : jsstring :=
  if (starts_with (js "http") src || starts_with (js "data:") src
      || starts_with (js "/") src)%bool
  then src
  else imageBasePath cfg ++ src.

(** *** parseCallouts *)

Definition calloutTypes : list jsstring :=
  [js "note"; js "warning"; js "tip"; js "info"; js "important"].

(** [:::type\n([\s\S]*?):::] with the flags [gi]. *)
Definition re_callout (type : jsstring) : regex :=
  seq (lits (js ":::" ++ type) ++ [Chr nl; Grp 1 (star_lazy any_cu)] ++ lits (js ":::")).

Definition parseCallouts (markdown : jsstring) : jsstring :=
  fold_left
    (fun result type =>
       replace_all fl_gi (re_callout type)
         (fun caps =>
            js "<div class='info-box " ++ type ++ js "'>" ++ trim (cap caps 1)
            ++ js "</div>")
         result)
    calloutTypes markdown.

(** *** parseLists *)

(** [^[\-\*]\s+(.+)$] *)
Definition re_ul : regex :=
  seq [Bol; Cls (fun c => N.eqb c 45%N || N.eqb c 42%N)%bool; plus is_space;
       Grp 1 (plus is_dot); Eol].

(** [^\d+\.\s+(.+)$] *)
Definition re_ol : regex :=
  seq [Bol; plus is_digit; Chr 46%N; plus is_space; Grp 1 (plus is_dot); Eol].

Definition ulMatch (line : jsstring) : option captures := str_match fl_g re_ul line.
Definition olMatch (line : jsstring) : option captures := str_match fl_g re_ol line.

(** The variables of the scan: [inList], [listType] and the [result]
    array. *)
Record ListScan := {
  inList : bool;
  listType : jsstring;
  result : list jsstring
}.

Definition push (x : jsstring) (st : ListScan) : ListScan :=
  {| inList := inList st; listType := listType st; result := result st ++ [x] |}.

Definition close_tag (st : ListScan) : jsstring :=
  js "</" ++ listType st ++ js ">".

(** Entering a list of type [ty] on a list line: the open list, if any, is
    closed when it is of another type. *)
Definition enter (ty : jsstring) (st : ListScan) : ListScan :=
  if (negb (inList st) || negb (str_eqb (listType st) ty))%bool
  then
    let st1 := if inList st then push (close_tag st) st else st in
    let st2 := push (js "<" ++ ty ++ js ">") st1 in
    {| inList := true; listType := ty; result := result st2 |}
  else st.

(** The body of the loop over the lines. *)
Definition list_line (st : ListScan) (line : jsstring) : ListScan :=
  match ulMatch line with
  | Some m =>
      push (js "<li>" ++ cap m 1 ++ js "</li>") (enter (js "ul") st)
  | None =>
      match olMatch line with
      | Some m =>
          push (js "<li>" ++ cap m 1 ++ js "</li>") (enter (js "ol") st)
      | None =>
          let st1 :=
            if inList st
            then {| inList := false; listType := [];
                    result := result (push (close_tag st) st) |}
            else st in
          push line st1
      end
  end.

Definition list_scan (lines : list jsstring) : ListScan :=
  fold_left list_line lines {| inList := false; listType := []; result := [] |}.

Definition parseLists (html : jsstring) : jsstring :=
  let st := list_scan (split_char nl html) in
  let st' := if inList st then push (close_tag st) st else st in
  join [nl] (result st').

(** *** parseParagraphs *)

(** [\n\n+] *)
Definition re_blank : regex := Seq (Chr nl) (plus (N.eqb nl)).

(** [^<(h[1-6]|ul|ol|li|blockquote|pre|div|figure|hr|table)] with the
    flag [i]. *)
Definition re_block_tag : regex :=
  seq [Bol; Chr 60%N;
       Grp 1 (alts [Seq (Chr 104%N) (Cls (in_range 49%N 54%N));
                    lit (js "ul"); lit (js "ol"); lit (js "li");
                    lit (js "blockquote"); lit (js "pre"); lit (js "div");
                    lit (js "figure"); lit (js "hr"); lit (js "table")])].

Definition is_block (block : jsstring) : bool :=
  match str_match fl_gi re_block_tag block with Some _ => true | None => false end.

(** The function mapped over the blocks. *)
Definition paragraph (block : jsstring) : jsstring :=
  let block := trim block in
  if is_block block then block
  else match block with
       | [] => []
       | _ :: _ =>
           js "<p>" ++ replace_all fl_g (Chr nl) (fun _ => js "<br>") block
           ++ js "</p>"
       end.

Definition parseParagraphs (html : jsstring) : jsstring :=
  join [nl; nl] (map paragraph (split_re fl_g re_blank html)).

(** *** parseMarkdown *)

Definition hashes (k : nat) : jsstring := repeat 35%N k.

(** [^#{k}\s+(.+)$] with the flags [gm], for the six patterns of the
    source. *)
Definition re_heading (k : nat) : regex :=
  seq (Bol :: lits (hashes k) ++ [plus is_space; Grp 1 (plus is_dot); Eol]).

Definition tag (name : jsstring) (body : jsstring) : jsstring :=
  js "<" ++ name ++ js ">" ++ body ++ js "</" ++ name ++ js ">".

(** [<h2 id="(.+?)">(.+?)<\/h2>] *)
Definition re_h2_id : regex :=
  seq (lits (js "<h2 id='") ++ Grp 1 (plus_lazy is_dot) :: lits (js "'>")
       ++ Grp 2 (plus_lazy is_dot) :: lits (js "</h2>")).

(** A pattern [d(.+?)d] for a delimiter [d]. *)
Definition re_delim (d : jsstring) : regex :=
  seq (lits d ++ Grp 1 (plus_lazy is_dot) :: lits d).

(** The captioned image (source line 186): [![], group 1 of any number of
    code units other than the closing bracket, [](], group 2 of one or more
    code units other than the closing parenthesis and the double quote,
    [\s+], a double quote, group 3 of one or more code units other than the
    double quote, a double quote and the closing parenthesis. *)
Definition re_img_caption : regex :=
  seq (lits (js "![") ++ Grp 1 (star (is_not 93%N)) :: lits (js "](")
       ++ [Grp 2 (plus (fun c => is_not 41%N c && is_not 34%N c)%bool);
           plus is_space; Chr 34%N; Grp 3 (plus (is_not 34%N))]
       ++ lits (js "')")).

(** The classed image (source line 195): as above up to group 2, which
    excludes the closing parenthesis only, then [){.], group 3 of one or
    more code units other than the closing brace, and the closing brace. *)
Definition re_img_class : regex :=
  seq (lits (js "![") ++ Grp 1 (star (is_not 93%N)) :: lits (js "](")
       ++ Grp 2 (plus (is_not 41%N)) :: lits (js "){.")
       ++ [Grp 3 (plus (is_not 125%N)); Chr 125%N]).

(** The plain image (source line 201): the classed image without the
    class marker. *)
Definition re_img : regex :=
  seq (lits (js "![") ++ Grp 1 (star (is_not 93%N)) :: lits (js "](")
       ++ [Grp 2 (plus (is_not 41%N)); Chr 41%N]).

(** [\[([^\]]+)\]\(([^)]+)\)] *)
Definition re_link : regex :=
  seq (Chr 91%N :: Grp 1 (plus (is_not 93%N)) :: lits (js "](")
       ++ [Grp 2 (plus (is_not 41%N)); Chr 41%N]).

(** [`([^`]+)`] *)
Definition re_code : regex :=
  seq [Chr 96%N; Grp 1 (plus (is_not 96%N)); Chr 96%N].

(** [```(\w+)?\n([\s\S]*?)```] *)
Definition re_fence : regex :=
  seq (lits (js "```") ++ [Opt (Grp 1 (plus is_word)); Chr nl;
                            Grp 2 (star_lazy any_cu)] ++ lits (js "```")).

(** [^&gt;\s+(.+)$] with the flags [gm]. *)
Definition re_quote : regex :=
  seq (Bol :: lits (js "&gt;") ++ [plus is_space; Grp 1 (plus is_dot); Eol]).

(** [^---+$] and [^\*\*\*+$] with the flags [gm]. *)
Definition re_rule (c : cu) : regex :=
  seq [Bol; Chr c; Chr c; plus (N.eqb c); Eol].

Definition escape (html : jsstring) : jsstring :=
  replace_all fl_g (Chr 62%N) (fun _ => js "&gt;")
    (replace_all fl_g (Chr 60%N) (fun _ => js "&lt;")
       (replace_all fl_g (Chr 38%N) (fun _ => js "&amp;") html)).

(** The six heading replacements, longest marker first, and the pass
    that rewrites the identifier of the level-2 headings. *)
Definition headers (html : jsstring) : jsstring :=
  let html := replace_all fl_gm (re_heading 6) (fun m => tag (js "h6") (cap m 1)) html in
  let html := replace_all fl_gm (re_heading 5) (fun m => tag (js "h5") (cap m 1)) html in
  let html := replace_all fl_gm (re_heading 4) (fun m => tag (js "h4") (cap m 1)) html in
  let html := replace_all fl_gm (re_heading 3) (fun m => tag (js "h3") (cap m 1)) html in
  let html := replace_all fl_gm (re_heading 2)
                (fun m => js "<h2 id='" ++ cap m 1 ++ js "'>" ++ cap m 1 ++ js "</h2>") html in
  let html := replace_all fl_gm (re_heading 1) (fun m => tag (js "h1") (cap m 1)) html in
  replace_all fl_g re_h2_id
    (fun m => js "<h2 id='" ++ slugify (cap m 2) ++ js "'>" ++ cap m 2 ++ js "</h2>")
    html.

Definition strong_em (x : jsstring) : jsstring :=
  js "<strong><em>" ++ x ++ js "</em></strong>".

Definition emphasis (html : jsstring) : jsstring :=
  let html := replace_all fl_g (re_delim (js "***")) (fun m => strong_em (cap m 1)) html in
  let html := replace_all fl_g (re_delim (js "**")) (fun m => tag (js "strong") (cap m 1)) html in
  let html := replace_all fl_g (re_delim (js "*")) (fun m => tag (js "em") (cap m 1)) html in
  let html := replace_all fl_g (re_delim (js "___")) (fun m => strong_em (cap m 1)) html in
  let html := replace_all fl_g (re_delim (js "__")) (fun m => tag (js "strong") (cap m 1)) html in
  replace_all fl_g (re_delim (js "_")) (fun m => tag (js "em") (cap m 1)) html.

Definition figure (fullSrc alt caption : jsstring) : jsstring :=
  js "<figure class='figure'>" ++ [nl] ++ spaces 16
  ++ js "<img src='" ++ fullSrc ++ js "' alt='" ++ alt ++ js "' loading='lazy'>"
  ++ [nl] ++ spaces 16
  ++ js "<figcaption class='figure-caption'>" ++ caption ++ js "</figcaption>"
  ++ [nl] ++ spaces 12 ++ js "</figure>".

Definition img_caption_pass (cfg : Config) (html : jsstring) : jsstring :=
  replace_all fl_g re_img_caption
    (fun m => figure (resolveImagePath cfg (cap m 2)) (cap m 1) (cap m 3)) html.

Definition img_class_pass (cfg : Config) (html : jsstring) : jsstring :=
  replace_all fl_g re_img_class
    (fun m => js "<img src='" ++ resolveImagePath cfg (cap m 2) ++ js "' alt='"
              ++ cap m 1 ++ js "' class='" ++ cap m 3 ++ js "' loading='lazy'>") html.

Definition img_plain_pass (cfg : Config) (html : jsstring) : jsstring :=
  replace_all fl_g re_img
    (fun m => js "<img src='" ++ resolveImagePath cfg (cap m 2) ++ js "' alt='"
              ++ cap m 1 ++ js "' loading='lazy'>") html.

(** The three image replacements: captioned, classed, plain. *)
Definition images (cfg : Config) (html : jsstring) : jsstring :=
  img_plain_pass cfg (img_class_pass cfg (img_caption_pass cfg html)).

Definition links (html : jsstring) : jsstring :=
  replace_all fl_g re_link
    (fun m => js "<a href='" ++ cap m 2 ++ js "'>" ++ cap m 1 ++ js "</a>") html.

Definition code (html : jsstring) : jsstring :=
  let html := replace_all fl_g re_code (fun m => tag (js "code") (cap m 1)) html in
  replace_all fl_g re_fence
    (fun m =>
       let langClass :=
         match cap_opt m 1 with
         | Some (c :: l) => js " class='language-" ++ (c :: l) ++ js "'"
         | _ => []
         end in
       js "<pre" ++ langClass ++ js "><code>" ++ trim (cap m 2) ++ js "</code></pre>")
    html.

Definition blockquotes (html : jsstring) : jsstring :=
  let html := replace_all fl_gm re_quote (fun m => tag (js "blockquote") (cap m 1)) html in
  replace_all fl_g (lit (js "</blockquote>" ++ [nl] ++ js "<blockquote>")) (fun _ => [nl]) html.

Definition rules (html : jsstring) : jsstring :=
  replace_all fl_gm (re_rule 42%N) (fun _ => js "<hr>")
    (replace_all fl_gm (re_rule 45%N) (fun _ => js "<hr>") html).

Definition parseMarkdown (cfg : Config) (markdown : jsstring) : jsstring :=
  let html := markdown in
  let html := escape html in
  let html := parseCallouts html in
  let html := headers html in
  let html := emphasis html in
  let html := images cfg html in
  let html := links html in
  let html := code html in
  let html := blockquotes html in
  let html := rules html in
  let html := parseLists html in
  parseParagraphs html.

(** *** generateTableOfContents *)

(** The part of a heading element the navigation generator reads and
    writes. *)
Record Element := {
  tagName : jsstring;
  id : jsstring;
  textContent : jsstring;
  scrollMarginTop : jsstring
}.

(** The pattern of a heading of level 2 to 5 as the transformer emits it:
    an optional id attribute, then text without markup. *)
Definition re_heading_element : regex :=
  seq (lits (js "<h")
       ++ [Grp 1 (Cls (in_range 50%N 53%N));
           Opt (seq (lits (js " id='") ++ [Grp 2 (star (is_not 34%N)); Chr 34%N]));
           Chr 62%N;
           Grp 3 (star (fun c => is_not 60%N c && is_not 38%N c)%bool)]
       ++ lits (js "</h") ++ [Cls (in_range 50%N 53%N); Chr 62%N]).

(** All the matches of a global pattern, from left to right. *)
Fixpoint scan_from (fl : flags) (r : regex) (skip : nat) (prev : option cu)
    (s : jsstring) {struct s} : list captures :=
  match s with
  | [] => []
  | x :: s' =>
      match skip with
      | S n => scan_from fl r n (Some x) s'
      | O =>
          match match_here fl r prev s with
          | Some (rest, caps) =>
              caps :: scan_from fl r (pred (length s - length rest)) (Some x) s'
          | None => scan_from fl r 0 (Some x) s'
          end
      end
  end.

(** Host model of [container.querySelectorAll('h2, h3, h4, h5')] after
    [container.innerHTML] was set to [html]: the heading elements the browser
    builds from headings in the transformer's output format whose text
    holds no markup and no character reference, in document order. *)
Definition querySelectorAll_headings (html : jsstring) : list Element :=
  map (fun m => {| tagName := js "H" ++ cap m 1;
                   id := cap m 2;
                   textContent := cap m 3;
                   scrollMarginTop := [] |})
      (scan_from fl_g re_heading_element 0 None html).

Definition toc_head : jsstring :=
  js "<nav class='toc'>"
  ++ js "<div class='toc-progress'><div class='toc-progress-bar'></div></div>"
  ++ js "<h4>On This Page</h4><ul class='toc-list'>".

(** The identifier the generator gives a heading: the one it has, or the
    slug of its text. *)
Definition heading_id (header : Element) : jsstring :=
  match id header with
  | [] => slugify (textContent header)
  | _ :: _ => id header
  end.

Definition toc_item (header : Element) : jsstring :=
  js "<li class='toc-" ++ toLowerCase (tagName header) ++ js "'><a href='#"
  ++ heading_id header ++ js "' data-target='" ++ heading_id header ++ js "'>"
  ++ textContent header ++ js "</a></li>".

Definition toc_visit (header : Element) : Element :=
  {| tagName := tagName header;
     id := heading_id header;
     textContent := textContent header;
     scrollMarginTop := js "calc(var(--navbar-height, 72px) + 1.5rem)" |}.

(** [tocContainer] is the content of the navigation target, [None] when
    the page has none.  The result is the new content of the target and
    the headings as the generator leaves them. *)
Definition generateTableOfContents (tocContainer : option jsstring)
    (headers : list Element) : option jsstring * list Element :=
  match tocContainer with
  | None => (None, headers)
  | Some old =>
      match headers with
      | [] => (Some old, headers)
      | _ :: _ =>
          (Some (toc_head ++ concat (map toc_item headers) ++ js "</ul></nav>"),
           map toc_visit headers)
      end
  end.

(** *** loadContent *)

(** The part of a container the loader reads and writes.  [innerHTML] is
    the markup last assigned to the property (for a container the loader
    has not written yet, the markup of the page).  The elements the
    browser builds from that markup are not part of the record: what
    [generateTableOfContents] and [initializeInteractiveElements] write
    into them afterwards (identifiers, styles, listeners, the navigation
    of a gallery) is recorded as the effects [TocGenerated] and
    [Interactive], and is not shown in this field. *)
Record Container := {
  contentSource : jsstring;
  innerHTML : jsstring;
  classList : list jsstring;
  lastMarkdown : option jsstring;
  lastRendered : option jsstring
}.

Inductive Error : Type :=
| TransportError (message : jsstring)
| HttpError (status : N)
| ReferenceError (name : jsstring).

(** What the host answers to [fetch]: a rejection, or a response whose
    body is read by [response.text()] ([None] when that read rejects). *)
Inductive FetchOutcome : Type :=
| FetchRejected (message : jsstring)
| FetchResponse (ok : bool) (status : N) (text : option jsstring).

Inductive Effect : Type :=
| Fetched (fullPath : jsstring)
| Warned (e : Error)
| Interactive (content : jsstring)
| TocGenerated
| Animated.

(** The promise an [async] function returns. *)
Inductive Completion : Type :=
| Fulfilled
| RejectedWith (e : Error).

(** A scope maps the identifiers declared in it to their values, here as
    strings. *)
Definition Scope := list (jsstring * jsstring).

Fixpoint scope_get (sc : Scope) (x : jsstring) : option jsstring :=
  match sc with
  | [] => None
  | (y, v) :: rest => if str_eqb x y then Some v else scope_get rest x
  end.

(** Identifier resolution along a scope chain, innermost scope first. *)
Fixpoint resolve (chain : list Scope) (x : jsstring) : option jsstring :=
  match chain with
  | [] => None
  | sc :: outer =>
      match scope_get sc x with
      | Some v => Some v
      | None => resolve outer x
      end
  end.

(** The host: the protocol of the page and the properties of the global
    object. *)
Record Host := {
  protocol : jsstring;
  globals : Scope
}.

Definition loading : jsstring :=
  js "<div class='loading'><div class='loading-spinner'></div></div>".

Definition classList_add (c : jsstring) (l : list jsstring) : list jsstring :=
  if existsb (str_eqb c) l then l else l ++ [c].

Definition set_content (html : jsstring) (c : Container) : Container :=
  {| contentSource := contentSource c;
     innerHTML := html;
     classList := classList c;
     lastMarkdown := lastMarkdown c;
     lastRendered := lastRendered c |}.

Definition add_class (name : jsstring) (c : Container) : Container :=
  {| contentSource := contentSource c;
     innerHTML := innerHTML c;
     classList := classList_add name (classList c);
     lastMarkdown := lastMarkdown c;
     lastRendered := lastRendered c |}.

Definition set_snapshots (markdown html : jsstring) (c : Container) : Container :=
  {| contentSource := contentSource c;
     innerHTML := innerHTML c;
     classList := classList c;
     lastMarkdown := Some (firstn 800 markdown);
     lastRendered := Some (firstn 800 html) |}.

(** The state a call of [loadContent] holds across [await fetch]: the
    scope of the function (its parameters) and the scope of the [try]
    block (the constants declared there so far). *)
Record Pending := {
  functionScope : Scope;
  tryScope : Scope
}.

(** The scope of the script: its two top-level constants. *)
Definition scriptScope : Scope :=
  [(js "ContentLoader", js "[object Object]");
   (js "lightboxStyles", js "[object HTMLStyleElement]")].

(** The full path of a content source. *)
Definition resolveContentPath (cfg : Config) (filePath : jsstring) : jsstring :=
  if starts_with (js "http") filePath then filePath
  else contentBasePath cfg ++ filePath.

(** [loadContent] up to [await fetch].  Under the [file:] protocol the
    call completes here: no markup is assigned, the class is added, and
    [initializeInteractiveElements] runs on the elements of the container
    (the effect [Interactive], with the markup they were built from). *)
Definition loadContent_begin (host : Host) (cfg : Config) (filePath : jsstring)
    (c : Container) : Container * list Effect * option Pending :=
  if str_eqb (protocol host) (js "file:") then
    let c := add_class (js "markdown-content") c in
    (c, [Interactive (innerHTML c)], None)
  else
    let fallbackContent := innerHTML c in
    let c := set_content loading c in
    let fullPath := resolveContentPath cfg filePath in
    (c, [Fetched fullPath],
     Some {| functionScope := [(js "filePath", filePath);
                               (js "container", js "[object HTMLDivElement]")];
             tryScope := [(js "fallbackContent", fallbackContent);
                          (js "fullPath", fullPath)] |}).

(** The [catch] clause.  It runs in a scope that holds [error] and whose
    outer scopes are those of the function, of the script and of the
    global object: the scope of the [try] block is left when the block
    completes abruptly, and is not on the chain. *)
Definition loadContent_catch (host : Host) (p : Pending) (error : Error)
    (c : Container) : Container * list Effect * Completion :=
  let chain := [[(js "error", js "[object Error]")]; functionScope p;
                scriptScope; globals host] in
  match resolve chain (js "fallbackContent") with
  | None =>
      (c, [Warned error], RejectedWith (ReferenceError (js "fallbackContent")))
  | Some fallbackContent =>
      let c := add_class (js "markdown-content") (set_content fallbackContent c) in
      (c, [Warned error; Interactive (innerHTML c)], Fulfilled)
  end.

(** What the [try] block does with the answer of [fetch] before it
    renders: the error thrown (by [fetch], by the status check or by the
    read of the body), or the text retrieved. *)
Definition retrieved (outcome : FetchOutcome) : Error + jsstring :=
  match outcome with
  | FetchRejected message => inl (TransportError message)
  | FetchResponse false status _ => inl (HttpError status)
  | FetchResponse true _ None => inl (TransportError [])
  | FetchResponse true _ (Some markdown) => inr markdown
  end.

(** [loadContent] from the point where [fetch] settles.  [toc] is the
    content of the navigation target of the page.  On success the markup
    assigned is the output of the transformer; the calls that follow the
    assignment work on the elements built from it and are recorded as
    effects. *)
Definition loadContent_resume (host : Host) (cfg : Config) (p : Pending)
    (outcome : FetchOutcome) (toc : option jsstring) (c : Container)
    : Container * option jsstring * list Effect * Completion :=
  match retrieved outcome with
  | inl error =>
      let '(c, effs, r) := loadContent_catch host p error c in
      (c, toc, effs, r)
  | inr markdown =>
      let html := parseMarkdown cfg markdown in
      let c := set_snapshots markdown html c in
      let c := add_class (js "markdown-content") (set_content html c) in
      let '(toc, effs) :=
        if generateTOC cfg
        then (fst (generateTableOfContents toc (querySelectorAll_headings html)),
              [TocGenerated])
        else (toc, []) in
      (c, toc, effs ++ [Interactive html; Animated], Fulfilled)
  end.

(** A whole call of [loadContent], the retrieval settling with
    [outcome]. *)
Definition loadContent (host : Host) (cfg : Config) (filePath : jsstring)
    (outcome : FetchOutcome) (toc : option jsstring) (c : Container)
    : Container * option jsstring * list Effect * Completion :=
  match loadContent_begin host cfg filePath c with
  | (c, effs, None) => (c, toc, effs, Fulfilled)
  | (c, effs, Some p) =>
      let '(c, toc, effs', r) := loadContent_resume host cfg p outcome toc c in
      (c, toc, effs ++ effs', r)
  end.

(** The retrieval fails: a transport error, or a status that is not a
    success. *)
Definition retrieval_fails (outcome : FetchOutcome) : bool :=
  match outcome with
  | FetchRejected _ => true
  | FetchResponse ok _ _ => negb ok
  end.

(** *** init and the retry timer *)

(** The page as [init] and the timer see it: the containers with a
    content source, the navigation target, the retrievals in flight (each
    with the index of its container), the counter [attempts] and whether
    the interval is still set. *)
Record Page := {
  containers : list Container;
  tocContainer : option jsstring;
  inflight : list (nat * Pending);
  attempts : nat;
  retryTimer : bool;
  effects : list Effect
}.

Definition maxAttempts : nat := 3.
Arguments maxAttempts : simpl never.

Fixpoint set_nth (i : nat) (c : Container) (l : list Container) : list Container :=
  match l, i with
  | [], _ => []
  | _ :: rest, O => c :: rest
  | x :: rest, S j => x :: set_nth j c rest
  end.

(** A call [this.loadContent(source, container)] whose promise is
    dropped, for the container of index [i]. *)
Definition start_load (host : Host) (cfg : Config) (i : nat) (pg : Page) : Page :=
  match nth_error (containers pg) i with
  | None => pg
  | Some c =>
      let '(c', effs, p) := loadContent_begin host cfg (contentSource c) c in
      {| containers := set_nth i c' (containers pg);
         tocContainer := tocContainer pg;
         inflight := inflight pg ++ match p with Some p => [(i, p)] | None => [] end;
         attempts := attempts pg;
         retryTimer := retryTimer pg;
         effects := effects pg ++ effs |}
  end.

(** [!container.dataset.lastRendered]: the snapshot is unset or empty. *)
Definition not_rendered (c : Container) : bool :=
  match lastRendered c with
  | None | Some [] => true
  | Some (_ :: _) => false
  end.

Definition retry_load (host : Host) (cfg : Config) (pg : Page) (i : nat) : Page :=
  match nth_error (containers pg) i with
  | Some c => if not_rendered c then start_load host cfg i pg else pg
  | None => pg
  end.

(** [init] on a page with at least one container: one load per
    container, then the interval is set. *)
Definition init (host : Host) (cfg : Config) (cs : list Container)
    (toc : option jsstring) : Page :=
  let pg := {| containers := cs; tocContainer := toc; inflight := [];
               attempts := 0; retryTimer := false; effects := [] |} in
  let pg := fold_left (fun pg i => start_load host cfg i pg) (List.seq 0 (length cs)) pg in
  match cs with
  | [] => pg
  | _ :: _ =>
      {| containers := containers pg; tocContainer := tocContainer pg;
         inflight := inflight pg; attempts := 0; retryTimer := true;
         effects := effects pg |}
  end.

(** The callback of the interval. *)
Definition retry_tick (host : Host) (cfg : Config) (pg : Page) : Page :=
  let pg := {| containers := containers pg; tocContainer := tocContainer pg;
               inflight := inflight pg; attempts := attempts pg + 1;
               retryTimer := retryTimer pg; effects := effects pg |} in
  let pg := fold_left (retry_load host cfg) (List.seq 0 (length (containers pg))) pg in
  if maxAttempts <=? attempts pg
  then {| containers := containers pg; tocContainer := tocContainer pg;
          inflight := inflight pg; attempts := attempts pg;
          retryTimer := false; effects := effects pg |}
  else pg.

(** What the host does to the page: the interval elapses, or the
    retrieval in flight of index [n] settles. *)
Inductive Event : Type :=
| Tick
| Settle (n : nat) (outcome : FetchOutcome).

Fixpoint remove_nth {X : Type} (n : nat) (l : list X) : list X :=
  match l, n with
  | [], _ => []
  | _ :: rest, O => rest
  | x :: rest, S m => x :: remove_nth m rest
  end.

Definition step (host : Host) (cfg : Config) (pg : Page) (e : Event) : Page :=
  match e with
  | Tick => if retryTimer pg then retry_tick host cfg pg else pg
  | Settle n outcome =>
      match nth_error (inflight pg) n with
      | None => pg
      | Some (i, p) =>
          match nth_error (containers pg) i with
          | None => pg
          | Some c =>
              let '(c', toc, effs, _) :=
                loadContent_resume host cfg p outcome (tocContainer pg) c in
              {| containers := set_nth i c' (containers pg);
                 tocContainer := toc;
                 inflight := remove_nth n (inflight pg);
                 attempts := attempts pg;
                 retryTimer := retryTimer pg;
                 effects := effects pg ++ effs |}
          end
      end
  end.

Definition run (host : Host) (cfg : Config) (pg : Page) (es : list Event) : Page :=
  fold_left (step host cfg) es pg.

Definition is_fetch (e : Effect) : bool :=
  match e with Fetched _ => true | _ => false end.

(** The number of retrievals attempted so far. *)
Definition retrievals (pg : Page) : nat := length (filter is_fetch (effects pg)).

Definition is_tick (e : Event) : bool :=
  match e with Tick => true | Settle _ _ => false end.

Definition ticks (es : list Event) : nat := length (filter is_tick es).

(** *** openLightbox *)

(** The document as the lightbox code sees it: the overlays attached to
    the body (each named by its number of creation), the number of
    overlays created so far, the [overflow] style of the body, and the
    [keydown] listeners of the document, each an [escHandler] closure
    named by the overlay it closes. *)
Record Document := {
  lightboxes : list nat;
  created : nat;
  overflow : jsstring;
  keydownListeners : list nat
}.

Definition without (o : nat) (l : list nat) : list nat :=
  filter (fun x => negb (Nat.eqb x o)) l.

Definition openLightbox (d : Document) : Document :=
  {| lightboxes := lightboxes d ++ [created d];
     created := S (created d);
     overflow := js "hidden";
     keydownListeners := keydownListeners d ++ [created d] |}.

(** The closure [close] of the overlay [o]. *)
Definition close (o : nat) (d : Document) : Document :=
  {| lightboxes := without o (lightboxes d);
     created := created d;
     overflow := [];
     keydownListeners := keydownListeners d |}.

(** The closure [escHandler] of the overlay [o]. *)
Definition escHandler (o : nat) (key : jsstring) (d : Document) : Document :=
  if str_eqb key (js "Escape") then
    let d := close o d in
    {| lightboxes := lightboxes d;
       created := created d;
       overflow := overflow d;
       keydownListeners := without o (keydownListeners d) |}
  else d.

Inductive UserEvent : Type :=
| ImageClick
| BackdropClick (o : nat)
| CloseClick (o : nat)
| KeyDown (key : jsstring).

(** A click reaches the backdrop or the dismiss control of an overlay
    only while the overlay is attached; a key event is dispatched to the
    listeners installed when it occurs. *)
Definition user_step (d : Document) (e : UserEvent) : Document :=
  match e with
  | ImageClick => openLightbox d
  | BackdropClick o | CloseClick o =>
      if existsb (Nat.eqb o) (lightboxes d) then close o d else d
  | KeyDown key =>
      fold_left (fun d o => escHandler o key d) (keydownListeners d) d
  end.

Definition user_run (d : Document) (es : list UserEvent) : Document :=
  fold_left user_step es d.

Definition empty_document : Document :=
  {| lightboxes := []; created := 0; overflow := []; keydownListeners := [] |}.

(** For each element of [ways]: open an overlay, then dismiss it by a
    click, on its backdrop ([true]) or on its dismiss control ([false]).
    [first] is the number of the first overlay. *)
Fixpoint open_and_click (first : nat) (ways : list bool) : list UserEvent :=
  match ways with
  | [] => []
  | w :: rest =>
      ImageClick
      :: (if w then BackdropClick first else CloseClick first)
      :: open_and_click (S first) rest
  end.

(** ** Specifications the code is compared with *)

(** *** The slug, in one pass *)

(** The characters [slugify] keeps: word characters, white space, hyphen. *)
Definition slug_char (c : cu) : bool := is_word c || is_space c || is_hyphen c.

Definition is_sep (c : cu) : bool := is_space c || is_hyphen c.

(** Every maximal run of white space and hyphens becomes one hyphen;
    [in_run] tells that the previous character was part of a run. *)
Fixpoint collapse (in_run : bool) (s : jsstring) : jsstring :=
  match s with
  | [] => []
  | c :: s' =>
      if is_sep c
      then if in_run then collapse true s' else hyphen :: collapse true s'
      else c :: collapse false s'
  end.

Definition slug_spec (text : jsstring) : jsstring :=
  collapse false (filter slug_char (toLowerCase text)).

Fixpoint no_double_hyphen (s : jsstring) : bool :=
  match s with
  | a :: (b :: _) as s' => negb (is_hyphen a && is_hyphen b) && no_double_hyphen s'
  | _ => true
  end.

(** *** Lists, by runs of lines *)

Inductive ListType : Type := UL | OL.

Inductive Line : Type :=
| Item (t : ListType) (text : jsstring)
| Other (line : jsstring).

Inductive Block : Type :=
| BList (t : ListType) (items : list jsstring)
| BLine (line : jsstring).

Definition ListType_eqb (a b : ListType) : bool :=
  match a, b with UL, UL | OL, OL => true | _, _ => false end.

Definition type_name (t : ListType) : jsstring :=
  match t with UL => js "ul" | OL => js "ol" end.

Definition classify (line : jsstring) : Line :=
  match ulMatch line with
  | Some m => Item UL (cap m 1)
  | None =>
      match olMatch line with
      | Some m => Item OL (cap m 1)
      | None => Other line
      end
  end.

(** Consecutive items of one type form one list. *)
Fixpoint blocks (ls : list Line) : list Block :=
  match ls with
  | [] => []
  | Other l :: rest => BLine l :: blocks rest
  | Item t x :: rest =>
      match blocks rest with
      | BList t' xs :: bs =>
          if ListType_eqb t t' then BList t (x :: xs) :: bs
          else BList t [x] :: BList t' xs :: bs
      | bs => BList t [x] :: bs
      end
  end.

Definition render (b : Block) : list jsstring :=
  match b with
  | BList t xs =>
      (js "<" ++ type_name t ++ js ">")
      :: map (fun x => js "<li>" ++ x ++ js "</li>") xs
      ++ [js "</" ++ type_name t ++ js ">"]
  | BLine l => [l]
  end.

Definition lists_spec (html : jsstring) : jsstring :=
  join [nl] (concat (map render (blocks (map classify (split_char nl html))))).

(** No list is empty and no two lists of one type are adjacent. *)
Fixpoint lists_maximal (bs : list Block) : bool :=
  match bs with
  | [] => true
  | BLine _ :: rest => lists_maximal rest
  | BList t xs :: rest =>
      negb (Nat.eqb (length xs) 0)
      && match rest with
         | BList t' _ :: _ => negb (ListType_eqb t t')
         | _ => true
         end
      && lists_maximal rest
  end.


(** *** init, on the whole document *)

(** The argument of [init]: the properties it overrides. *)
Record Options := {
  opt_contentBasePath : option jsstring;
  opt_imageBasePath : option jsstring;
  opt_defaultContentId : option jsstring;
  opt_generateTOC : option bool;
  opt_tocContainerId : option jsstring
}.

Definition no_options : Options :=
  {| opt_contentBasePath := None; opt_imageBasePath := None;
     opt_defaultContentId := None; opt_generateTOC := None;
     opt_tocContainerId := None |}.

Definition override {X : Type} (o : option X) (d : X) : X :=
  match o with Some v => v | None => d end.

(** [{ ...this.config, ...options }] *)
Definition merge_config (config : Config) (options : Options) : Config :=
  {| contentBasePath := override (opt_contentBasePath options) (contentBasePath config);
     imageBasePath := override (opt_imageBasePath options) (imageBasePath config);
     defaultContentId := override (opt_defaultContentId options) (defaultContentId config);
     generateTOC := override (opt_generateTOC options) (generateTOC config);
     tocContainerId := override (opt_tocContainerId options) (tocContainerId config) |}.

(** An element of the document: its [id] attribute (empty when it has
    none), its [data-content-source] attribute, and what a load reads and
    writes. *)
Record Node := {
  nodeId : jsstring;
  dataContentSource : option jsstring;
  nodeHTML : jsstring;
  nodeClassList : list jsstring
}.

(** The element as a container whose [dataset.contentSource] is
    [source]. *)
Definition container_of (n : Node) (source : jsstring) : Container :=
  {| contentSource := source;
     innerHTML := nodeHTML n;
     classList := nodeClassList n;
     lastMarkdown := None;
     lastRendered := None |}.

(** [document.querySelectorAll('[data-content-source]')]: the elements
    that carry the attribute, in document order. *)
Fixpoint querySelectorAll_sources (doc : list Node) : list Container :=
  match doc with
  | [] => []
  | n :: rest =>
      match dataContentSource n with
      | Some source => container_of n source :: querySelectorAll_sources rest
      | None => querySelectorAll_sources rest
      end
  end.

(** [document.getElementById]: the first element with that id. *)
Fixpoint getElementById (doc : list Node) (i : jsstring) : option Node :=
  match doc with
  | [] => None
  | n :: rest => if str_eqb (nodeId n) i then Some n else getElementById rest i
  end.

(** The whole of [init]: the configuration is merged with the options;
    when the document has containers they are loaded and the interval is
    set, otherwise the element with the default id is looked up and loaded
    if its [dataset.contentSource] is a string that is not empty. *)
Definition init_document (host : Host) (config : Config) (options : Options)
    (doc : list Node) (toc : option jsstring) : Config * Page :=
  let cfg := merge_config config options in
  let containers := querySelectorAll_sources doc in
  let idle := {| containers := []; tocContainer := toc; inflight := [];
                 attempts := 0; retryTimer := false; effects := [] |} in
  (cfg,
   match containers with
   | _ :: _ => init host cfg containers toc
   | [] =>
       match getElementById doc (defaultContentId cfg) with
       | Some defaultContainer =>
           match dataContentSource defaultContainer with
           | Some (c :: source) =>
               start_load host cfg 0
                 {| containers := [container_of defaultContainer (c :: source)];
                    tocContainer := toc; inflight := []; attempts := 0;
                    retryTimer := false; effects := [] |}
           | _ => idle
           end
       | None => idle
       end
   end).

(** *** initGallery *)

(** A number in a template literal: its decimal digits.  [digits]
    writes the digits of [n] in front of [acc], the last one first. *)
Fixpoint digits (fuel n : nat) (acc : jsstring) : jsstring :=
  match fuel with
  | O => acc
  | S fuel' =>
      let acc' := N.of_nat (48 + n mod 10) :: acc in
      if Nat.eqb (n / 10) 0 then acc' else digits fuel' (n / 10) acc'
  end.

Definition decimal (n : nat) : jsstring := digits (S n) n [].

(** The navigation of a gallery: the variable [currentIndex] of its
    closures and the text of its counter. *)
Record GalleryNav := {
  currentIndex : nat;
  counterText : jsstring
}.

(** A gallery: the [display] style of each of its images, in document
    order (empty when the style is not set), and the navigations appended
    to it. *)
Record Gallery := {
  displays : list jsstring;
  navs : list GalleryNav
}.

Definition counter_text (index n : nat) : jsstring :=
  decimal (index + 1) ++ js " / " ++ decimal n.

Definition initGallery (g : Gallery) : Gallery :=
  let n := length (displays g) in
  if n <=? 1 then g
  else
    {| displays := map (fun i => if Nat.eqb i 0 then js "block" else js "none")
                       (List.seq 0 n);
       navs := navs g ++ [{| currentIndex := 0; counterText := counter_text 0 n |}] |}.

(** [images[i].style.display = v]; the index is within the list whenever
    a handler runs. *)
Fixpoint set_display (i : nat) (v : jsstring) (ds : list jsstring) : list jsstring :=
  match ds, i with
  | [], _ => []
  | _ :: rest, O => v :: rest
  | d :: rest, S j => d :: set_display j v rest
  end.

Fixpoint set_nav (j : nat) (nav : GalleryNav) (l : list GalleryNav) : list GalleryNav :=
  match l, j with
  | [], _ => []
  | _ :: rest, O => nav :: rest
  | x :: rest, S j' => x :: set_nav j' nav rest
  end.

(** The click handlers of the navigation number [j].  [next] is the new
    value of [currentIndex] as a function of the old one and of the number
    of images. *)
Definition gallery_click (next : nat -> nat -> nat) (j : nat) (g : Gallery) : Gallery :=
  match nth_error (navs g) j with
  | None => g
  | Some nav =>
      let n := length (displays g) in
      let ds := set_display (currentIndex nav) (js "none") (displays g) in
      let i := next (currentIndex nav) n in
      {| displays := set_display i (js "block") ds;
         navs := set_nav j {| currentIndex := i; counterText := counter_text i n |}
                   (navs g) |}
  end.

(** [(currentIndex - 1 + images.length) % images.length]; the sum is not
    negative, as there is at least one image. *)
Definition prev_index (index n : nat) : nat := (index + n - 1) mod n.

(** [(currentIndex + 1) % images.length] *)
Definition next_index (index n : nat) : nat := (index + 1) mod n.

Definition prev_click : nat -> Gallery -> Gallery := gallery_click prev_index.
Definition next_click : nat -> Gallery -> Gallery := gallery_click next_index.

(** *** initializeInteractiveElements *)





(** *** initScrollSpy: the throttled scroll handler *)

(** The variable [ticking], the callbacks waiting for the next animation
    frame, and the number of calls of [updateActiveLink] so far. *)
Record Spy := {
  ticking : bool;
  frameRequests : nat;
  updates : nat
}.

(** The state [initScrollSpy] leaves: the initial update is done. *)
Definition initScrollSpy : Spy :=
  {| ticking := false; frameRequests := 0; updates := 1 |}.

Inductive SpyEvent : Type := Scroll | AnimationFrame.

Definition spy_step (s : Spy) (e : SpyEvent) : Spy :=
  match e with
  | Scroll =>
      if ticking s then s
      else {| ticking := true; frameRequests := S (frameRequests s);
              updates := updates s |}
  | AnimationFrame =>
      {| ticking := if Nat.eqb (frameRequests s) 0 then ticking s else false;
         frameRequests := 0;
         updates := updates s + frameRequests s |}
  end.

Definition spy_run (s : Spy) (es : list SpyEvent) : Spy := fold_left spy_step es s.
(** ** Notions used in the statements and proofs *)

Unset Implicit Arguments.

(** The substring test of [String.prototype.includes]. *)
Fixpoint includes (needle hay : jsstring) : bool :=
  starts_with needle hay
  || match hay with
     | [] => false
     | _ :: hay' => includes needle hay'
     end.

(** *** Heading text *)

(** The characters on which some pattern of the transformer starts a
    match inside a line (exclamation mark, ampersand, asterisk, colon,
    angle brackets, opening bracket, underscore, backquote) and the double
    quote, which ends an attribute. *)
Definition markup_chars : list cu := [33; 34; 38; 42; 58; 60; 62; 91; 95; 96]%N.

(** The characters of a plain heading text: ASCII, no line break, no
    markup character. *)
Definition plain_char (c : cu) : bool :=
  is_ascii c && negb (N.eqb c 10%N || N.eqb c 13%N)
  && negb (existsb (N.eqb c) markup_chars).

(** The characters of the slug of a plain text. *)
Definition slug_out_char (c : cu) : bool := is_lower c || is_digit c || is_hyphen c.

Definition starts_plain (T : jsstring) : bool :=
  match T with c :: _ => negb (is_space c) | [] => false end.

(** What the transformer makes of a heading line of level [k]. *)
Definition heading_html (k : nat) (T : jsstring) : jsstring :=
  if Nat.eqb k 2
  then js "<h2 id='" ++ slugify T ++ js "'>" ++ T ++ js "</h2>"
  else tag (js "h" ++ [N.of_nat (48 + k)]) T.

Definition h2_open : jsstring := js "<h2 id='".
Definition h2_mid : jsstring := js "'>".
Definition h2_close : jsstring := js "</h2>".

(** *** Runs of a character class *)

Fixpoint take_while (p : cu -> bool) (s : jsstring) : jsstring :=
  match s with
  | c :: s' => if p c then c :: take_while p s' else []
  | [] => []
  end.

(** Every maximal run of [p] becomes [h]. *)
Fixpoint squeeze (p : cu -> bool) (h : jsstring) (in_run : bool) (s : jsstring)
    : jsstring :=
  match s with
  | [] => []
  | c :: s' =>
      if p c then (if in_run then squeeze p h true s' else h ++ squeeze p h true s')
      else c :: squeeze p h false s'
  end.

Definition starts_hyphen (s : jsstring) : bool :=
  match s with c :: _ => is_hyphen c | [] => false end.

(** *** A static check that a pattern finds no match *)

(** The pattern cannot match at a position.  [s] is the known input from
    the position on, [more] tells that unknown input may follow it, [bol]
    that the position starts a line. *)
Fixpoint cannot_match (fl : flags) (r : regex) (bol : bool) (s : jsstring)
    (more : bool) {struct r} : bool :=
  match r with
  | Eps => false
  | Chr c =>
      match s with x :: _ => negb (chr_eq fl c x) | [] => negb more end
  | Cls p =>
      match s with x :: _ => negb (p x) | [] => negb more end
  | Bol => negb bol
  | Eol =>
      match s with
      | x :: _ => negb (multiline fl && is_line_terminator x)
      | [] => false
      end
  | Rep p min _ =>
      match min with
      | O => false
      | S _ => match s with x :: _ => negb (p x) | [] => negb more end
      end
  | Seq a b =>
      cannot_match fl a bol s more
      || match a with
         | Chr _ | Cls _ =>
             match s with
             | x :: s' =>
                 cannot_match fl b (multiline fl && is_line_terminator x) s' more
             | [] => false
             end
         | Bol | Eol | Eps => cannot_match fl b bol s more
         | _ => false
         end
  | Alt a b => cannot_match fl a bol s more && cannot_match fl b bol s more
  | Grp _ a => cannot_match fl a bol s more
  | Opt _ => false
  end.

(** A text cut into segments: [Conc] for a part that is known, [Sym] for
    a part of which only the class of its characters is known. *)
Inductive Segment : Type := Conc (u : jsstring) | Sym (u : jsstring).

Definition seg_text (sg : Segment) : jsstring :=
  match sg with Conc u | Sym u => u end.

Definition flatten (segs : list Segment) : jsstring := concat (map seg_text segs).

Definition segs_ok (cls : cu -> bool) (segs : list Segment) : bool :=
  forallb (fun sg => match sg with Conc _ => true | Sym u => forallb cls u end) segs.

(** The code unit before the position reached after [u]. *)
Definition last_prev (prev : option cu) (u : jsstring) : option cu :=
  fold_left (fun _ x => Some x) u prev.

Definition bol_after (fl : flags) (bol : bool) (u : jsstring) : bool :=
  fold_left (fun _ x => multiline fl && is_line_terminator x) u bol.

Fixpoint inert_conc (fl : flags) (r : regex) (bol : bool) (u : jsstring)
    (more : bool) : bool :=
  match u with
  | [] => true
  | x :: u' =>
      cannot_match fl r bol u more
      && inert_conc fl r (multiline fl && is_line_terminator x) u' more
  end.

Definition ascii_units : list cu := map N.of_nat (List.seq 0 128).

Definition inert_sym (fl : flags) (r : regex) (cls : cu -> bool) : bool :=
  forallb (fun x => implb (cls x)
                      (cannot_match fl r false [x] true
                       && negb (is_line_terminator x)))
          ascii_units.

(** The pattern matches at no position of the segments and not at the
    end of the text. *)
Fixpoint check_segs (fl : flags) (r : regex) (cls : cu -> bool) (bol : bool)
    (segs : list Segment) : bool :=
  match segs with
  | [] => cannot_match fl r bol [] false
  | Conc u :: rest =>
      inert_conc fl r bol u (match rest with [] => false | _ :: _ => true end)
      && check_segs fl r cls (bol_after fl bol u) rest
  | Sym _ :: rest =>
      negb bol && inert_sym fl r cls && check_segs fl r cls false rest
  end.

(** No match starts inside [u], the text going on with [v]. *)
Fixpoint misses (fl : flags) (r : regex) (prev : option cu) (u v : jsstring) : Prop :=
  match u with
  | [] => True
  | x :: u' =>
      match_here fl r prev (x :: u' ++ v) = None /\ misses fl r (Some x) u' v
  end.

(** *** Blocks of the paragraph pass *)

(** No blank line: no two line feeds in a row. *)
Fixpoint no_blank (s : jsstring) : bool :=
  match s with
  | a :: (b :: _) as s' => negb (N.eqb a nl && N.eqb b nl) && no_blank s'
  | _ => true
  end.

(** A block that starts with a block-level tag, has no white space
    around it and holds no blank line. *)
Definition tight_block (b : jsstring) : Prop :=
  is_block b = true /\ trim b = b /\ no_blank b = true.

(** *** The list scan *)

Definition li (x : jsstring) : jsstring := js "<li>" ++ x ++ js "</li>".
Definition open_tag (t : ListType) : jsstring := js "<" ++ type_name t ++ js ">".
Definition end_tag (t : ListType) : jsstring := js "</" ++ type_name t ++ js ">".

(** The scan is inside a list of type [t], or outside any list. *)
Definition scanning (st : ListScan) (o : option ListType) : Prop :=
  match o with
  | Some t => inList st = true /\ listType st = type_name t
  | None => inList st = false
  end.

(** What the scan still emits for the blocks ahead. *)
Definition ahead (o : option ListType) (bs : list Block) : list jsstring :=
  match o with
  | None => concat (map render bs)
  | Some t =>
      match bs with
      | BList t' xs :: rest =>
          if ListType_eqb t t'
          then map li xs ++ end_tag t :: concat (map render rest)
          else end_tag t :: concat (map render bs)
      | _ => end_tag t :: concat (map render bs)
      end
  end.

Definition finish (st : ListScan) : ListScan :=
  if inList st then push (close_tag st) st else st.

(** *** The timer *)

(** What a call of [loadContent] whose promise is dropped leaves
    untouched, and the one retrieval it can add. *)
Definition load_frame (pg pg' : Page) : Prop :=
  attempts pg' = attempts pg /\ retryTimer pg' = retryTimer pg
  /\ length (containers pg') = length (containers pg)
  /\ retrievals pg <= retrievals pg' <= retrievals pg + 1.

(** The counter never passes the cap, and the interval is set only below
    the cap. *)
Definition timer_inv (pg : Page) : Prop :=
  attempts pg <= maxAttempts /\ (retryTimer pg = true -> attempts pg < maxAttempts).

(** *** A sample document *)

(** The blocks of the transformer's output for a document with a
    heading, a list, a quote, a callout, a captioned image and a rule. *)
Definition sample_blocks : list jsstring :=
  [js "<h1>Hi</h1>";
   join [nl] [js "<ul>"; js "<li>a</li>"; js "<li>b</li>"; js "</ul>"];
   js "<blockquote>q</blockquote>";
   js "<div class='info-box note'>Hello</div>";
   figure (js "../assets/p.png") (js "a") (js "c");
   js "<hr>"].

Definition sample_document : jsstring :=
  join [nl]
    [js "# Hi"; []; js "- a"; js "- b"; []; js "> q"; [];
     js ":::note"; js "Hello"; js ":::"; []; js "![a](p.png 'c')"; []; js "---"].


(** *** The escaping pass, character by character *)

(** What the three replacements of the escaping pass make of one code
    unit. *)
Definition entity (c : cu) : jsstring :=
  if N.eqb c 38 then js "&amp;"
  else if N.eqb c 60 then js "&lt;"
  else if N.eqb c 62 then js "&gt;"
  else [c].

Definition is_angle (c : cu) : bool := N.eqb c 60 || N.eqb c 62.

(** *** Backquotes after the inline-code pass *)

Definition backquote : cu := 96%N.

Definition no_backquote (s : jsstring) : bool := forallb (is_not backquote) s.

(** A backquote is followed by nothing, by a backquote, by an opening
    angle bracket, or by a text without any backquote. *)
Fixpoint settled (s : jsstring) : bool :=
  match s with
  | [] => true
  | x :: s' =>
      (if N.eqb x backquote
       then match s' with
            | [] => true
            | c :: b => N.eqb c backquote || N.eqb c 60 || no_backquote b
            end
       else true)
      && settled s'
  end.

(** The inline-code replacement alone. *)
Definition inline_code (html : jsstring) : jsstring :=
  replace_all fl_g re_code (fun m => tag (js "code") (cap m 1)) html.

(** *** Lines of the list pass *)

(** The characters a list line starts with: hyphen, asterisk, digit. *)
Definition list_marker (c : cu) : bool :=
  N.eqb c 45 || N.eqb c 42 || is_digit c.

Definition starts_item (line : jsstring) : bool :=
  match line with c :: _ => list_marker c | [] => false end.

(** The line ends with a carriage return. *)
Definition ends_cr (line : jsstring) : bool :=
  match rev line with c :: _ => N.eqb c 13 | [] => false end.

(** The text of a list item: not empty, no line terminator, no white
    space in front. *)
Definition item_text (x : jsstring) : bool :=
  forallb is_dot x && match x with c :: _ => negb (is_space c) | [] => false end.

(** A bullet line: a hyphen or an asterisk, a space, the text. *)
Definition bullet (m : cu) (x : jsstring) : jsstring := m :: 32%N :: x.

Definition is_bullet (m : cu) : bool := N.eqb m 45 || N.eqb m 42.

(** A numbered line: digits, a full stop, a space, the text. *)
Definition numbered (n : jsstring) (x : jsstring) : jsstring := n ++ js ". " ++ x.

Definition is_number (n : jsstring) : bool :=
  forallb is_digit n && negb (Nat.eqb (length n) 0).

(** *** Blocks of the paragraph pass, wrapped or kept *)

(** A block as the paragraph pass cuts it out of a tidy text: not empty,
    no white space around it, no blank line inside. *)
Definition tidy_block (b : jsstring) : bool :=
  negb (Nat.eqb (length b) 0) && str_eqb (trim b) b && no_blank b.

(** Every line feed becomes a line-break element. *)
Definition line_breaks (b : jsstring) : jsstring :=
  flat_map (fun c => if N.eqb nl c then js "<br>" else [c]) b.

(** What the paragraph pass makes of a tidy block. *)
Definition wrapped (b : jsstring) : jsstring :=
  if is_block b then b else js "<p>" ++ line_breaks b ++ js "</p>".

(** Blocks separated by runs of two or more line feeds: [k] is the
    number of line feeds beyond two. *)
Fixpoint glue (b : jsstring) (rest : list (nat * jsstring)) : jsstring :=
  match rest with
  | [] => b
  | (k, b') :: rest' => b ++ repeat nl (2 + k) ++ glue b' rest'
  end.

(** *** The static check, with one character of look-ahead *)

(** No match starts inside the known text [u], which is followed by the
    known text [la] and then by unknown input. *)
Fixpoint inert_conc_la (fl : flags) (r : regex) (bol : bool) (u la : jsstring)
    : bool :=
  match u with
  | [] => true
  | x :: u' =>
      cannot_match fl r bol (u ++ la) true
      && inert_conc_la fl r (multiline fl && is_line_terminator x) u' la
  end.

(** The same, the text that follows [u] starting with a character of
    the class [cls]. *)
Definition inert_before (fl : flags) (r : regex) (cls : cu -> bool) (bol : bool)
    (u : jsstring) : bool :=
  forallb (fun x => implb (cls x) (inert_conc_la fl r bol u [x])) ascii_units.

(** The check of [check_segs], a known segment looking one character
    into the segment that follows it. *)
Fixpoint check_segs_la (fl : flags) (r : regex) (cls : cu -> bool) (bol : bool)
    (segs : list Segment) : bool :=
  match segs with
  | [] => cannot_match fl r bol [] false
  | Conc u :: rest =>
      match rest with
      | [] => inert_conc fl r bol u false
      | Conc _ :: _ => inert_conc fl r bol u true
      | Sym _ :: _ => inert_conc fl r bol u true || inert_before fl r cls bol u
      end
      && check_segs_la fl r cls (bol_after fl bol u) rest
  | Sym _ :: rest =>
      negb bol && inert_sym fl r cls && check_segs_la fl r cls false rest
  end.

(** The unknown segments hold characters of the class, and one at
    least. *)
Definition segs_ok_la (cls : cu -> bool) (segs : list Segment) : bool :=
  forallb (fun sg => match sg with
                     | Conc _ => true
                     | Sym u => forallb cls u && negb (Nat.eqb (length u) 0)
                     end) segs.

(** *** Texts of the inline forms *)

(** The text ends with a character that is no white space. *)
Definition ends_plain (T : jsstring) : bool :=
  match rev T with c :: _ => negb (is_space c) | [] => false end.

(** The text of a link: plain, not empty, without closing bracket. *)
Definition link_text (t : jsstring) : bool :=
  forallb plain_char t && forallb (is_not 93%N) t && negb (Nat.eqb (length t) 0).

(** The target of a link or the source of an image: plain, not empty,
    without closing parenthesis. *)
Definition link_target (u : jsstring) : bool :=
  forallb plain_char u && forallb (is_not 41%N) u && negb (Nat.eqb (length u) 0).

(** The alternative text of an image: plain, without closing bracket and
    opening brace; it may be empty. *)
Definition image_alt (a : jsstring) : bool :=
  forallb plain_char a && forallb (is_not 93%N) a && forallb (is_not 123%N) a.

(** The source of an image: a link target without opening brace. *)
Definition image_src (p : jsstring) : bool :=
  link_target p && forallb (is_not 123%N) p.

(** The class of an image: plain, not empty, without closing brace. *)
Definition image_class (x : jsstring) : bool :=
  forallb plain_char x && forallb (is_not 125%N) x && negb (Nat.eqb (length x) 0).

Definition img_element (cfg : Config) (a p : jsstring) : jsstring :=
  js "<img src='" ++ resolveImagePath cfg p ++ js "' alt='" ++ a ++ js "' loading='lazy'>".

Definition img_class_element (cfg : Config) (a p x : jsstring) : jsstring :=
  js "<img src='" ++ resolveImagePath cfg p ++ js "' alt='" ++ a ++ js "' class='" ++ x
  ++ js "' loading='lazy'>".

(** *** The page under the timer *)

Definition is_interactive (e : Effect) : bool :=
  match e with Interactive _ => true | _ => false end.

(** The number of calls of [initializeInteractiveElements] so far. *)
Definition interactive_calls (pg : Page) : nat :=
  length (filter is_interactive (effects pg)).

(** The number of containers whose snapshot is unset. *)
Definition count_unrendered (cs : list Container) : nat :=
  length (filter not_rendered cs).

Definition has_class (name : jsstring) (c : Container) : bool :=
  existsb (str_eqb name) (classList c).

(** What [loadContent] does to a container before [await fetch], and the
    effects of that part. *)
Definition begun (host : Host) (cfg : Config) (c : Container) : Container :=
  fst (fst (loadContent_begin host cfg (contentSource c) c)).

Definition begin_effects (host : Host) (cfg : Config) (c : Container) : list Effect :=
  snd (fst (loadContent_begin host cfg (contentSource c) c)).

(** *** Galleries *)

(** The image of index [i] is shown, the others are hidden. *)
Definition one_shown (n i : nat) : list jsstring :=
  map (fun j => if Nat.eqb j i then js "block" else js "none") (List.seq 0 n).

(** A click on the navigation of a gallery that has one: [true] for the
    next image, [false] for the previous one. *)
Definition nav_click (g : Gallery) (forward : bool) : Gallery :=
  if forward then next_click 0 g else prev_click 0 g.

(** *** The lightbox *)

(** Every overlay attached has its key listener installed. *)
Definition overlays_listen (d : Document) : Prop :=
  forall o, In o (lightboxes d) -> In o (keydownListeners d).

(** *** The scroll handler *)

Definition is_frame (e : SpyEvent) : bool :=
  match e with AnimationFrame => true | Scroll => false end.

Definition frames (es : list SpyEvent) : nat := length (filter is_frame es).

(** *** A line of plain text *)

(** The first character of a line of text: plain, no white space, no
    number sign and no list marker. *)
Definition text_start (c : cu) : bool :=
  plain_char c && negb (is_space c) && negb (list_marker c) && negb (N.eqb c 35).

(** The pattern matches at the start of no text whose first character is
    in the class. *)
Definition inert_first (fl : flags) (r : regex) (cls : cu -> bool) : bool :=
  forallb (fun x => implb (cls x) (cannot_match fl r true [x] true)) ascii_units.

(** The check of a pattern against a line of plain text. *)
Definition inert_line (fl : flags) (r : regex) : bool :=
  inert_first fl r text_start && inert_sym fl r plain_char
  && cannot_match fl r false [] false.

(** The caption of an image: plain and not empty. *)
Definition image_caption (c : jsstring) : bool :=
  forallb plain_char c && negb (Nat.eqb (length c) 0).

(** *** Notions of the proofs below *)

(** The replacement of the inline-code pass. *)
Definition code_tag (m : captures) : jsstring := tag (js "code") (cap m 1).

(** Suffixes of a line that ends with a carriage return. *)
Definition cr_tail (s : jsstring) : Prop := s = [] \/ ends_cr s = true.

(** What a run of the callback of the interval does to a container,
    and the effects of that. *)
Definition retried (host : Host) (cfg : Config) (c : Container) : Container :=
  if not_rendered c then begun host cfg c else c.

Definition retry_effects (host : Host) (cfg : Config) (c : Container) : list Effect :=
  if not_rendered c then begin_effects host cfg c else [].

(** A container with the class the loader gives it. *)
Definition marked (c : Container) : Container := add_class (js "markdown-content") c.

(** The page after [k] runs of the callback of the interval. *)
Definition file_page (cs : list Container) (toc : option jsstring) (pg : Page)
    (k : nat) : Prop :=
  containers pg = map marked cs
  /\ inflight pg = []
  /\ tocContainer pg = toc
  /\ attempts pg = k
  /\ k <= maxAttempts
  /\ retryTimer pg = negb (Nat.eqb (length cs) 0) && (k <? maxAttempts)
  /\ retrievals pg = 0
  /\ interactive_calls pg = length cs + k * count_unrendered cs
  /\ forallb is_interactive (effects pg) = true.

(** The images of index [a] to [a + n - 1], all hidden, or all hidden
    but the image [i]. *)
Definition all_hidden (a n : nat) : list jsstring :=
  map (fun _ => js "none") (List.seq a n).

Definition shown_from (a n i : nat) : list jsstring :=
  map (fun j => if Nat.eqb j i then js "block" else js "none") (List.seq a n).

(** The gallery of [n] images whose navigation is at the image [i]. *)
Definition gallery_at (n i : nat) : Gallery :=
  {| displays := one_shown n i;
     navs := [{| currentIndex := i; counterText := counter_text i n |}] |}.

Definition escape_key : jsstring := js "Escape".

(** What holds of the document in every state it reaches. *)
Definition reachable (d : Document) : Prop :=
  overlays_listen d /\ (keydownListeners d = [] -> overflow d = []).

(** The variable [ticking] tells whether a callback waits for the next
    frame. *)
Definition spy_ok (s : Spy) : Prop :=
  (ticking s = true /\ frameRequests s = 1) \/ (ticking s = false /\ frameRequests s = 0).


(** *** Texts of the image forms *)

(** ** The matcher on single classes *)

Section Engine.
Variables (fl : flags) (r : regex) (f : captures -> jsstring).

Lemma take_drop_length p s :
  length s = length (take_while p s) + length (drop_while p s).
Proof.
  induction s as [| c s IH]; simpl; auto.
  destruct (p c); simpl; lia.
Qed.

Lemma skipn_take_while p s : skipn (length (take_while p s)) s = drop_while p s.
Proof.
  induction s as [| c s IH]; simpl; auto.
  destruct (p c); simpl; auto.
Qed.

Lemma replace_from_hit prev x s rest caps n :
  match_here fl r prev (x :: s) = Some (rest, caps) ->
  length (x :: s) - length rest = S n ->
  replace_from fl r f 0 prev (x :: s) = f caps ++ replace_from fl r f n (Some x) s.
Proof.
  intros Hm Hn. cbn [replace_from]. rewrite Hm, Hn. reflexivity.
Qed.

Lemma replace_from_miss prev x s :
  match_here fl r prev (x :: s) = None ->
  replace_from fl r f 0 prev (x :: s) = x :: replace_from fl r f 0 (Some x) s.
Proof.
  intros Hm. cbn [replace_from]. rewrite Hm. reflexivity.
Qed.

Lemma replace_from_skip k : forall prev s,
  k <= length s ->
  exists prev', replace_from fl r f k prev s = replace_from fl r f 0 prev' (skipn k s).
Proof.
  induction k as [| k IH]; intros prev s Hk.
  - exists prev. reflexivity.
  - destruct s as [| x s]; [simpl in Hk; lia |].
    simpl in Hk. destruct (IH (Some x) s) as [prev' H]; [lia |].
    exists prev'. exact H.
Qed.
End Engine.

Section Classes.
Variables (fl : flags) (p : cu -> bool).

Lemma match_cls prev x s :
  match_here fl (Cls p) prev (x :: s) = if p x then Some (s, []) else None.
Proof. reflexivity. Qed.

Lemma replace_cls_filter (h : jsstring) : forall s prev,
  replace_from fl (Cls p) (fun _ => h) 0 prev s
  = flat_map (fun c => if p c then h else [c]) s.
Proof.
  induction s as [| x s IH]; intros prev; [reflexivity |].
  cbn [flat_map]. destruct (p x) eqn:E.
  - rewrite (replace_from_hit fl (Cls p) _ prev x s s [] 0).
    + rewrite IH. reflexivity.
    + rewrite match_cls, E. reflexivity.
    + cbn [length]. lia.
  - rewrite replace_from_miss.
    + rewrite IH. reflexivity.
    + rewrite match_cls, E. reflexivity.
Qed.

Lemma rep_greedy_total (caps : captures) : forall s min prev,
  rep p true min prev s (fun _ s' => Some (s', caps))
  = if min <=? length (take_while p s) then Some (drop_while p s, caps) else None.
Proof.
  induction s as [| c s IH]; intros min prev.
  - destruct min; reflexivity.
  - cbn [rep take_while drop_while]. destruct (p c) eqn:E.
    + rewrite IH. cbn [length].
      destruct min as [| min]; cbn [pred].
      * cbn [Nat.leb]. reflexivity.
      * cbn [Nat.leb]. destruct (min <=? length (take_while p s)); reflexivity.
    + destruct min; reflexivity.
Qed.

Lemma match_plus prev s :
  match_here fl (plus p) prev s
  = match s with
    | c :: s' => if p c then Some (drop_while p s', []) else None
    | [] => None
    end.
Proof.
  unfold match_here, plus. cbn [rmatch]. rewrite rep_greedy_total.
  destruct s as [| c s]; [reflexivity |]. cbn [take_while drop_while].
  destruct (p c); reflexivity.
Qed.

Lemma squeeze_in_run h s :
  squeeze p h true s = squeeze p h false (drop_while p s).
Proof.
  induction s as [| c s IH]; [reflexivity |].
  cbn [squeeze drop_while]. destruct (p c) eqn:E; [exact IH |].
  cbn [squeeze]. rewrite E. reflexivity.
Qed.

Lemma replace_plus_squeeze (h : jsstring) : forall n s prev,
  length s <= n ->
  replace_from fl (plus p) (fun _ => h) 0 prev s = squeeze p h false s.
Proof.
  induction n as [| n IH]; intros s prev Hn.
  - destruct s; [| simpl in Hn; lia].
    cbn [replace_from]. rewrite match_plus. reflexivity.
  - destruct s as [| x s]; [cbn [replace_from]; rewrite match_plus; reflexivity |].
    cbn [length] in Hn. cbn [squeeze]. destruct (p x) eqn:E.
    + rewrite (replace_from_hit fl (plus p) _ prev x s (drop_while p s)
                 [] (length (take_while p s))).
      * destruct (replace_from_skip fl (plus p) (fun _ => h) (length (take_while p s)) (Some x) s)
          as [prev' H].
        { pose proof (take_drop_length p s). lia. }
        rewrite H, skipn_take_while, IH, squeeze_in_run; [reflexivity |].
        pose proof (take_drop_length p s). lia.
      * rewrite match_plus, E. reflexivity.
      * cbn [length]. pose proof (take_drop_length p s). lia.
    + rewrite replace_from_miss.
      * rewrite IH by lia. reflexivity.
      * rewrite match_plus, E. reflexivity.
Qed.
End Classes.

Section Slug.

Lemma in_range_spec lo hi c : in_range lo hi c = true <-> (lo <= c <= hi)%N.
Proof.
  unfold in_range. rewrite andb_true_iff, !N.leb_le. tauto.
Qed.

Lemma hyphen_not_space : is_space hyphen = false.
Proof. reflexivity. Qed.

Lemma is_hyphen_eq c : is_hyphen c = true -> c = hyphen.
Proof. unfold is_hyphen. apply N.eqb_eq. Qed.

Lemma space_not_hyphen c : is_space c = true -> is_hyphen c = false.
Proof.
  intros H. destruct (is_hyphen c) eqn:E; [| reflexivity].
  apply is_hyphen_eq in E. subst c. discriminate.
Qed.

(** The two squeezing passes amount to one pass over the separators. *)
Lemma squeeze_twice : forall s b1 b2,
  (b1 = true -> b2 = true) ->
  squeeze is_hyphen [hyphen] b2 (squeeze is_space [hyphen] b1 s) = collapse b2 s.
Proof.
  induction s as [| c s IH]; intros b1 b2 Hb; [reflexivity |].
  cbn [squeeze collapse]. unfold is_sep.
  destruct (is_space c) eqn:Es.
  - rewrite (space_not_hyphen c Es) in *. cbn [orb].
    destruct b1.
    + rewrite (Hb eq_refl). apply IH. auto.
    + cbn [app squeeze]. 
      replace (is_hyphen hyphen) with true by reflexivity.
      rewrite (IH true true) by auto. destruct b2; reflexivity.
  - cbn [orb squeeze]. destruct (is_hyphen c) eqn:Eh.
    + rewrite (IH false true) by discriminate.
      apply is_hyphen_eq in Eh. subst c. destruct b2; reflexivity.
    + rewrite (IH false false) by discriminate. reflexivity.
Qed.

Lemma flat_map_filter (p : cu -> bool) s :
  flat_map (fun c => if p c then [] else [c]) s = filter (fun c => negb (p c)) s.
Proof.
  induction s as [| c s IH]; [reflexivity |].
  cbn [flat_map filter]. destruct (p c); cbn [negb app]; rewrite IH; reflexivity.
Qed.

Lemma filter_ext_bool (p q : cu -> bool) s :
  (forall c, p c = q c) -> filter p s = filter q s.
Proof.
  intros H. induction s as [| c s IH]; [reflexivity |].
  cbn [filter]. rewrite H, IH. reflexivity.
Qed.

Lemma drop_while_none p s :
  match s with c :: _ => p c = false | [] => True end -> drop_while p s = s.
Proof. destruct s as [| c s]; [reflexivity |]. cbn. intros ->. reflexivity. Qed.

Lemma trim_no_space s :
  Forall (fun c => is_space c = false) s -> trim s = s.
Proof.
  intros H. unfold trim.
  rewrite (drop_while_none is_space s).
  - rewrite drop_while_none; [apply rev_involutive |].
    apply Forall_rev in H. destruct (rev s); [exact I |].
    inversion H; assumption.
  - destruct s; [exact I |]. inversion H; assumption.
Qed.

Lemma collapse_no_space : forall s b, Forall (fun c => is_space c = false) (collapse b s).
Proof.
  induction s as [| c s IH]; intros b; cbn [collapse]; [constructor |].
  unfold is_sep. destruct (is_space c) eqn:Es; cbn [orb].
  - destruct b; [apply IH |]. constructor; [reflexivity | apply IH].
  - destruct (is_hyphen c); [destruct b |]; try apply IH;
      constructor; auto.
Qed.

(** The passes of [slugify] amount to the one-pass slug. *)
Lemma slugify_refines text : slugify text = slug_spec text.
Proof.
  unfold slugify, slug_spec, replace_all.
  rewrite replace_cls_filter, flat_map_filter.
  rewrite (replace_plus_squeeze fl_g is_space (js "-") _ _ None (le_n _)).
  rewrite (replace_plus_squeeze fl_g is_hyphen (js "-") _ _ None (le_n _)).
  change (js "-") with [hyphen].
  rewrite (squeeze_twice _ false false) by auto.
  rewrite trim_no_space by apply collapse_no_space.
  f_equal. apply filter_ext_bool. intros c. unfold not_slug_char, slug_char.
  apply negb_involutive.
Qed.

Lemma collapse_chars (q : cu -> bool) :
  q hyphen = true ->
  forall s b, forallb q s = true -> forallb q (collapse b s) = true.
Proof.
  intros Hq. induction s as [| c s IH]; intros b H; [reflexivity |].
  cbn [forallb] in H. apply andb_prop in H. destruct H as [H1 H2].
  cbn [collapse]. destruct (is_sep c); [destruct b |]; cbn [forallb];
    rewrite ?Hq, ?H1, IH; auto.
Qed.

Lemma collapse_word : forall s b,
  forallb slug_char s = true ->
  forallb (fun c => is_word c || is_hyphen c) (collapse b s) = true.
Proof.
  induction s as [| c s IH]; intros b H; [reflexivity |].
  cbn [forallb] in H. apply andb_prop in H. destruct H as [H1 H2].
  cbn [collapse]. unfold slug_char, is_sep in *.
  destruct (is_space c) eqn:Es; cbn [orb].
  - destruct b; cbn [forallb]; rewrite IH; auto.
  - destruct (is_hyphen c) eqn:Eh.
    + destruct b; cbn [forallb]; rewrite IH; auto.
    + cbn [forallb]. rewrite IH by auto.
      rewrite !orb_false_r in H1. rewrite H1. reflexivity.
Qed.

Lemma filter_forallb (p : cu -> bool) s : forallb p (filter p s) = true.
Proof.
  induction s as [| c s IH]; [reflexivity |].
  cbn [filter]. destruct (p c) eqn:E; cbn [forallb]; rewrite ?E, IH; reflexivity.
Qed.

Lemma collapse_in_run_head : forall s, starts_hyphen (collapse true s) = false.
Proof.
  induction s as [| c s IH]; [reflexivity |].
  cbn [collapse]. unfold is_sep. destruct (is_space c) eqn:Es; cbn [orb]; [exact IH |].
  destruct (is_hyphen c) eqn:Eh; [exact IH |]. cbn. exact Eh.
Qed.

Lemma no_double_hyphen_cons c s :
  no_double_hyphen (c :: s) = negb (is_hyphen c && starts_hyphen s) && no_double_hyphen s.
Proof. destruct s; cbn; rewrite ?andb_false_r; reflexivity. Qed.

Lemma collapse_no_double : forall s b, no_double_hyphen (collapse b s) = true.
Proof.
  induction s as [| c s IH]; intros b; [reflexivity |].
  cbn [collapse]. unfold is_sep.
  destruct (is_space c) eqn:Es; cbn [orb].
  - destruct b; [apply IH |]. rewrite no_double_hyphen_cons, collapse_in_run_head, IH.
    rewrite andb_false_r. reflexivity.
  - destruct (is_hyphen c) eqn:Eh.
    + destruct b; [apply IH |]. rewrite no_double_hyphen_cons, collapse_in_run_head, IH.
      rewrite andb_false_r. reflexivity.
    + rewrite no_double_hyphen_cons, Eh, IH. reflexivity.
Qed.

Lemma toLowerCase_ascii text :
  forallb is_ascii text = true -> toLowerCase text = map ascii_lower text.
Proof. unfold toLowerCase. intros ->. reflexivity. Qed.

Lemma ascii_lower_not_upper c : is_upper (ascii_lower c) = false.
Proof.
  unfold ascii_lower. destruct (is_upper c) eqn:E; [| exact E].
  unfold is_upper in *. apply in_range_spec in E.
  destruct (in_range 65%N 90%N (c + 32)%N) eqn:F; [| reflexivity].
  apply in_range_spec in F. lia.
Qed.

Lemma filter_forallb_mono (p q : cu -> bool) s :
  forallb q s = true -> forallb q (filter p s) = true.
Proof.
  induction s as [| c s IH]; [reflexivity |].
  cbn [forallb filter]. intros H. apply andb_prop in H. destruct H as [H1 H2].
  destruct (p c); cbn [forallb]; rewrite ?H1, IH; auto.
Qed.

Lemma collapse_class (q : cu -> bool) :
  q hyphen = true ->
  forall s b, forallb (fun c => is_sep c || q c) s = true ->
              forallb q (collapse b s) = true.
Proof.
  intros Hq. induction s as [| c s IH]; intros b H; [reflexivity |].
  cbn [forallb] in H. apply andb_prop in H. destruct H as [H1 H2].
  cbn [collapse]. destruct (is_sep c) eqn:E.
  - destruct b; cbn [forallb]; rewrite ?Hq, IH; auto.
  - cbn [orb] in H1. cbn [forallb]. rewrite H1, IH; auto.
Qed.

(** The shape of a slug: [slugify] lowercases the text, removes every
    character outside the ASCII letters, the digits, the underscore, white
    space and the hyphen, and turns every run of white space and hyphens
    into one hyphen ([slug_spec], in one pass).  The result holds only
    ASCII letters, digits, underscores and hyphens and no two hyphens in a
    row, and it holds no upper-case letter when the text is ASCII. *)
Lemma slugify_shape text :
  slugify text = slug_spec text
  /\ forallb (fun c => is_word c || is_hyphen c) (slugify text) = true
  /\ no_double_hyphen (slugify text) = true
  /\ (forallb is_ascii text = true ->
      forallb (fun c => negb (is_upper c)) (slugify text) = true)
  /\ (forall text', text = text' -> slugify text = slugify text')
  /\ slugify (js "Household Budget Impacts") = js "household-budget-impacts".
Proof.
  rewrite slugify_refines. unfold slug_spec.
  split; [reflexivity |]. split; [| split; [| split; [| split]]].
  - apply collapse_word, filter_forallb.
  - apply collapse_no_double.
  - intros Ha. rewrite (toLowerCase_ascii text Ha).
    apply collapse_chars; [reflexivity |].
    apply filter_forallb_mono.
    clear Ha. induction text as [| c s IH]; [reflexivity |].
    cbn [forallb map]. rewrite ascii_lower_not_upper, IH. reflexivity.
  - intros text' E. subst text'. rewrite slugify_refines. reflexivity.
  - vm_compute. reflexivity.
Qed.

Lemma sep_not_upper c : is_sep c = true -> is_upper c = false.
Proof.
  intros H. destruct (is_upper c) eqn:E; [| reflexivity]. exfalso.
  unfold is_upper in E. apply in_range_spec in E.
  unfold is_sep, is_space, is_hyphen, hyphen in H.
  repeat (apply orb_prop in H; destruct H as [H | H]);
    try (apply in_range_spec in H); try (apply N.eqb_eq in H); lia.
Qed.

Lemma sep_slug_char c : is_sep c = true -> slug_char c = true.
Proof.
  unfold is_sep, slug_char. intros H. rewrite <- orb_assoc, H. apply orb_true_r.
Qed.

(** A text that ends with a separator: the hyphen written for its last
    run is the last character of the result. *)
Lemma collapse_ends_hyphen c : is_sep c = true ->
  forall (s : jsstring) (b : bool), exists s',
    (if b then hyphen :: collapse b (s ++ [c]) else collapse b (s ++ [c]))
    = s' ++ [hyphen].
Proof.
  intros Hc. induction s as [| x s IH]; intros b.
  - cbn [app collapse]. rewrite Hc. exists []. destruct b; reflexivity.
  - cbn [app collapse]. destruct (is_sep x) eqn:Ex.
    + destruct (IH true) as [s' E]. exists s'. destruct b; exact E.
    + destruct (IH false) as [s' E]. rewrite E.
      destruct b; [exists (hyphen :: x :: s') | exists (x :: s')]; reflexivity.
Qed.

(** C4: the last step of [slugify], [trim], runs after every run of
    white space has become a hyphen.  It finds no white space to remove,
    and a hyphen is no white space: for every text the result is the one
    of the passes before [trim].  So an ASCII text that starts with white
    space or a hyphen gets a slug that starts with a hyphen, and one that
    ends with white space or a hyphen gets a slug that ends with a hyphen:
    the slug of " Hello " is "-hello-", and its ends are not trimmed. *)
Theorem slugify_leaves_outer_hyphens (text : jsstring) (c : cu) :
  forallb is_ascii text = true ->
  is_ascii c = true ->
  is_sep c = true ->
  slugify (c :: text)
  = replace_all fl_g (plus is_hyphen) (fun _ => js "-")
      (replace_all fl_g (plus is_space) (fun _ => js "-")
         (replace_all fl_g (Cls not_slug_char) (fun _ => [])
            (toLowerCase (c :: text))))
  /\ (exists s, slugify (c :: text) = hyphen :: s)
  /\ (exists s, slugify (text ++ [c]) = s ++ [hyphen])
  /\ slugify (js " Hello ") = js "-hello-".
Proof.
  intros Ha Hc Hs.
  pose proof (sep_not_upper c Hs) as Hu. pose proof (sep_slug_char c Hs) as Hk.
  split; [| split; [| split]].
  - unfold slugify. apply trim_no_space. unfold replace_all.
    rewrite replace_cls_filter, flat_map_filter.
    rewrite (replace_plus_squeeze fl_g is_space (js "-") _ _ None (le_n _)).
    rewrite (replace_plus_squeeze fl_g is_hyphen (js "-") _ _ None (le_n _)).
    change (js "-") with [hyphen].
    rewrite (squeeze_twice _ false false) by auto.
    apply collapse_no_space.
  - rewrite slugify_refines. unfold slug_spec.
    rewrite toLowerCase_ascii by (cbn [forallb]; rewrite Hc, Ha; reflexivity).
    cbn [map]. unfold ascii_lower at 1. rewrite Hu. cbn [filter]. rewrite Hk.
    cbn [collapse]. rewrite Hs. eexists. reflexivity.
  - rewrite slugify_refines. unfold slug_spec.
    rewrite toLowerCase_ascii
      by (rewrite forallb_app; cbn [forallb]; rewrite Hc, Ha; reflexivity).
    rewrite map_app, filter_app. cbn [map]. unfold ascii_lower at 2. rewrite Hu.
    cbn [filter]. rewrite Hk.
    apply (collapse_ends_hyphen c Hs _ false).
  - vm_compute. reflexivity.
Qed.
End Slug.
(** ** Soundness of the static check *)

Lemma cannot_match_sound (A : Type) fl r : forall prev s more v caps
    (k : option cu -> jsstring -> captures -> option A),
  cannot_match fl r (at_bol fl prev) s more = true ->
  (more = false -> v = []) ->
  rmatch fl r prev (s ++ v) caps k = None.
Proof.
  induction r as [| c | p | | | p min g | a IHa b IHb | a IHa b IHb | i a IHa | a IHa];
    intros prev s more v caps k H Hv; cbn [cannot_match] in H; cbn [rmatch].
  - discriminate.
  - destruct s as [| x s]; cbn [app].
    + apply negb_true_iff in H. rewrite (Hv H). reflexivity.
    + apply negb_true_iff in H. rewrite H. reflexivity.
  - destruct s as [| x s]; cbn [app].
    + apply negb_true_iff in H. rewrite (Hv H). reflexivity.
    + apply negb_true_iff in H. rewrite H. reflexivity.
  - apply negb_true_iff in H. rewrite H. reflexivity.
  - destruct s as [| x s]; [discriminate |].
    apply negb_true_iff in H. cbn [app at_eol]. rewrite H. reflexivity.
  - destruct min as [| min]; [discriminate |].
    destruct s as [| x s]; cbn [app].
    + apply negb_true_iff in H. rewrite (Hv H). reflexivity.
    + apply negb_true_iff in H. cbn [rep]. rewrite H. reflexivity.
  - apply orb_true_iff in H. destruct H as [H | H].
    + apply (IHa prev s more v caps _ H Hv).
    + destruct a; try discriminate; cbn [rmatch].
      * apply (IHb prev s more v caps k H Hv).
      * destruct s as [| x s]; [discriminate |]. cbn [app].
        destruct (chr_eq fl c x); [| reflexivity].
        apply (IHb (Some x) s more v caps k H Hv).
      * destruct s as [| x s]; [discriminate |]. cbn [app].
        destruct (p x); [| reflexivity].
        apply (IHb (Some x) s more v caps k H Hv).
      * destruct (at_bol fl prev) eqn:E; [| reflexivity].
        apply (IHb prev s more v caps k); [rewrite E; exact H | exact Hv].
      * destruct (at_eol fl (s ++ v)); [| reflexivity].
        apply (IHb prev s more v caps k H Hv).
  - apply andb_prop in H. destruct H as [H1 H2].
    rewrite (IHa prev s more v caps k H1 Hv). apply (IHb prev s more v caps k H2 Hv).
  - apply (IHa prev s more v caps _ H Hv).
  - discriminate.
Qed.

Section Misses.
Variables (fl : flags) (r : regex).

Lemma last_prev_app prev u1 u2 :
  last_prev prev (u1 ++ u2) = last_prev (last_prev prev u1) u2.
Proof. apply fold_left_app. Qed.

Lemma at_bol_last_prev : forall u prev,
  at_bol fl (last_prev prev u) = bol_after fl (at_bol fl prev) u.
Proof.
  induction u as [| x u IH]; intros prev; [reflexivity |].
  cbn [last_prev bol_after fold_left]. apply (IH (Some x)).
Qed.

Lemma misses_app : forall u1 prev u2 v,
  misses fl r prev u1 (u2 ++ v) ->
  misses fl r (last_prev prev u1) u2 v ->
  misses fl r prev (u1 ++ u2) v.
Proof.
  induction u1 as [| x u1 IH]; intros prev u2 v H1 H2; [exact H2 |].
  cbn [misses app] in *. destruct H1 as [H1 H1']. split.
  - rewrite <- app_assoc. exact H1.
  - apply IH; assumption.
Qed.

Lemma conc_misses more v : forall u prev,
  inert_conc fl r (at_bol fl prev) u more = true ->
  (more = false -> v = []) ->
  misses fl r prev u v.
Proof.
  induction u as [| x u IH]; intros prev H Hv; [exact I |].
  cbn [inert_conc] in H. apply andb_prop in H. destruct H as [H1 H2].
  split.
  - apply (cannot_match_sound _ fl r prev (x :: u) more v [] _ H1 Hv).
  - apply IH; assumption.
Qed.

Lemma in_ascii_units x : is_ascii x = true -> In x ascii_units.
Proof.
  unfold is_ascii, ascii_units. intros H. apply N.ltb_lt in H.
  apply in_map_iff. exists (N.to_nat x). split; [apply N2Nat.id |].
  apply in_seq. lia.
Qed.

Lemma sym_misses cls v :
  inert_sym fl r cls = true ->
  (forall x, cls x = true -> is_ascii x = true) ->
  forall u prev,
    forallb cls u = true ->
    at_bol fl prev = false ->
    misses fl r prev u v /\ at_bol fl (last_prev prev u) = false.
Proof.
  intros Hs Ha. induction u as [| x u IH]; intros prev Hu Hb; [split; [exact I | exact Hb] |].
  cbn [forallb] in Hu. apply andb_prop in Hu. destruct Hu as [Hx Hu].
  unfold inert_sym in Hs. rewrite forallb_forall in Hs.
  specialize (Hs x (in_ascii_units x (Ha x Hx))). rewrite Hx in Hs. cbn [implb] in Hs.
  apply andb_prop in Hs. destruct Hs as [Hc Ht]. apply negb_true_iff in Ht.
  assert (at_bol fl (Some x) = false) as Hb'.
  { cbn [at_bol]. rewrite Ht. apply andb_false_r. }
  destruct (IH (Some x) Hu Hb') as [IH1 IH2].
  split; [split |].
  - apply (cannot_match_sound _ fl r prev [x] true (u ++ v) [] _); [| discriminate].
    rewrite Hb. exact Hc.
  - exact IH1.
  - exact IH2.
Qed.

Lemma check_segs_sound cls :
  (forall x, cls x = true -> is_ascii x = true) ->
  forall segs prev,
    check_segs fl r cls (at_bol fl prev) segs = true ->
    segs_ok cls segs = true ->
    misses fl r prev (flatten segs) []
    /\ match_here fl r (last_prev prev (flatten segs)) [] = None.
Proof.
  intros Ha. induction segs as [| sg segs IH]; intros prev H Hok.
  - split; [exact I |].
    apply (cannot_match_sound _ fl r prev [] false [] [] _ H). reflexivity.
  - cbn [segs_ok forallb] in Hok. apply andb_prop in Hok. destruct Hok as [Hsg Hok].
    unfold flatten. cbn [map concat]. fold (flatten segs).
    rewrite last_prev_app.
    destruct sg as [u | u]; cbn [check_segs seg_text] in *.
    + apply andb_prop in H. destruct H as [H1 H2].
      rewrite <- at_bol_last_prev in H2.
      destruct (IH _ H2 Hok) as [IH1 IH2]. split; [| exact IH2].
      apply misses_app; [| exact IH1].
      rewrite app_nil_r. apply (conc_misses _ _ _ _ H1).
      destruct segs; [reflexivity | discriminate].
    + apply andb_prop in H. destruct H as [H1 H3].
      apply andb_prop in H1. destruct H1 as [H1 H2].
      apply negb_true_iff in H1.
      destruct (sym_misses cls (flatten segs) H2 Ha u prev Hsg H1) as [M B].
      rewrite <- B in H3.
      destruct (IH _ H3 Hok) as [IH1 IH2]. split; [| exact IH2].
      apply misses_app; [| exact IH1]. rewrite app_nil_r. exact M.
Qed.

Lemma replace_misses (f : captures -> jsstring) : forall u prev v,
  misses fl r prev u v ->
  replace_from fl r f 0 prev (u ++ v)
  = u ++ replace_from fl r f 0 (last_prev prev u) v.
Proof.
  induction u as [| x u IH]; intros prev v H; [reflexivity |].
  destruct H as [H1 H2]. cbn [app replace_from]. rewrite H1.
  cbn [last_prev fold_left]. rewrite (IH (Some x) v H2). reflexivity.
Qed.

Lemma search_misses : forall u prev v,
  misses fl r prev u v ->
  search fl r prev (u ++ v) = search fl r (last_prev prev u) v.
Proof.
  induction u as [| x u IH]; intros prev v H; [reflexivity |].
  destruct H as [H1 H2]. cbn [app search]. rewrite H1.
  apply (IH (Some x) v H2).
Qed.

Lemma split_misses : forall u prev cur v,
  misses fl r prev u v ->
  split_from fl r 0 prev cur (u ++ v)
  = split_from fl r 0 (last_prev prev u) (cur ++ u) v.
Proof.
  induction u as [| x u IH]; intros prev cur v H.
  - rewrite app_nil_r. reflexivity.
  - destruct H as [H1 H2]. cbn [app split_from]. rewrite H1.
    rewrite (IH (Some x) (cur ++ [x]) v H2). rewrite <- app_assoc. reflexivity.
Qed.

(** A text that passes the check is left as it is by the pattern. *)
Lemma inert_text cls segs :
  (forall x, cls x = true -> is_ascii x = true) ->
  check_segs fl r cls true segs = true ->
  segs_ok cls segs = true ->
  (forall f, replace_all fl r f (flatten segs) = flatten segs)
  /\ str_match fl r (flatten segs) = None
  /\ split_re fl r (flatten segs) = [flatten segs].
Proof.
  intros Ha H Hok. destruct (check_segs_sound cls Ha segs None H Hok) as [M E].
  split; [| split].
  - intros f. unfold replace_all.
    rewrite <- (app_nil_r (flatten segs)) at 1.
    rewrite (replace_misses f _ _ _ M). cbn [replace_from]. rewrite E.
    apply app_nil_r.
  - unfold str_match. rewrite <- (app_nil_r (flatten segs)).
    rewrite (search_misses _ _ _ M). cbn [search]. rewrite E. reflexivity.
  - unfold split_re. destruct (flatten segs) as [| x s] eqn:F.
    + cbn [last_prev fold_left] in E. rewrite E. reflexivity.
    + rewrite <- (app_nil_r (x :: s)) at 1.
      rewrite (split_misses _ None [] [] M). reflexivity.
Qed.
End Misses.

Section MatchLemmas.
Variable fl : flags.

Lemma chr_eq_refl c : chr_eq fl c c = true.
Proof. unfold chr_eq. destruct (icase fl); apply N.eqb_refl. Qed.

Lemma seq_cons r rs : rs <> [] -> seq (r :: rs) = Seq r (seq rs).
Proof. destruct rs; [congruence | reflexivity]. Qed.

Lemma rmatch_lits (A : Type) : forall u rs prev s caps
    (k : option cu -> jsstring -> captures -> option A),
  rmatch fl (seq (lits u ++ rs)) prev (u ++ s) caps k
  = rmatch fl (seq rs) (last_prev prev u) s caps k.
Proof.
  induction u as [| c u IH]; intros rs prev s caps k; [reflexivity |].
  cbn [lits map app]. fold (lits u).
  destruct (lits u ++ rs) as [| r0 rest] eqn:E.
  - apply app_eq_nil in E. destruct E as [E1 E2]. subst rs.
    destruct u; [| discriminate]. cbn. rewrite chr_eq_refl. reflexivity.
  - rewrite seq_cons by discriminate. cbn [rmatch]. rewrite chr_eq_refl.
    rewrite <- E. apply IH.
Qed.

Lemma rep_greedy_stop (A : Type) p (k : option cu -> jsstring -> option A) v res :
  match v with x :: _ => p x = false | [] => True end ->
  forall u min prev,
    forallb p u = true ->
    min <= length u ->
    k (last_prev prev u) v = Some res ->
    rep p true min prev (u ++ v) k = Some res.
Proof.
  intros Hv. induction u as [| c u IH]; intros min prev Hu Hm Hk.
  - cbn [length] in Hm. assert (min = 0) by lia. subst min.
    cbn [app last_prev fold_left] in *.
    destruct v as [| x v]; cbn [rep]; [exact Hk |].
    rewrite Hv. exact Hk.
  - cbn [forallb] in Hu. apply andb_prop in Hu. destruct Hu as [Hc Hu].
    cbn [app rep]. rewrite Hc.
    rewrite (IH (pred min) (Some c) Hu); [reflexivity | cbn [length] in Hm; lia | exact Hk].
Qed.

Lemma rep_lazy_star (A : Type) p (k : option cu -> jsstring -> option A) v res :
  forall u prev,
    forallb p u = true ->
    (forall x s prev', In x u -> k prev' (x :: s) = None) ->
    k (last_prev prev u) v = Some res ->
    rep p false 0 prev (u ++ v) k = Some res.
Proof.
  induction u as [| c u IH]; intros prev Hu Hf Hk.
  - cbn [app last_prev fold_left] in *.
    destruct v as [| x v]; cbn [rep]; [exact Hk |].
    rewrite Hk. destruct (p x); reflexivity.
  - cbn [forallb] in Hu. apply andb_prop in Hu. destruct Hu as [Hc Hu].
    cbn [app rep]. rewrite Hc.
    rewrite (Hf c (u ++ v) prev (or_introl eq_refl)).
    apply IH; [exact Hu | | exact Hk].
    intros x s prev' Hx. apply Hf. right. exact Hx.
Qed.

Lemma rep_lazy_plus (A : Type) p (k : option cu -> jsstring -> option A) v res c u prev :
  forallb p (c :: u) = true ->
  (forall x s prev', In x u -> k prev' (x :: s) = None) ->
  k (last_prev prev (c :: u)) v = Some res ->
  rep p false 1 prev ((c :: u) ++ v) k = Some res.
Proof.
  intros Hu Hf Hk. cbn [forallb] in Hu. apply andb_prop in Hu. destruct Hu as [Hc Hu].
  cbn [app rep]. rewrite Hc. cbn [pred].
  apply rep_lazy_star; assumption.
Qed.

Lemma firstn_consumed (u v : jsstring) :
  firstn (length (u ++ v) - length v) (u ++ v) = u.
Proof.
  rewrite length_app, Nat.add_sub. rewrite firstn_app, Nat.sub_diag, firstn_all.
  cbn. apply app_nil_r.
Qed.

Lemma no_empty_match r :
  cannot_match fl r true [] false = true ->
  cannot_match fl r false [] false = true ->
  forall prev, match_here fl r prev [] = None.
Proof.
  intros H1 H2 prev. unfold match_here.
  apply (cannot_match_sound _ fl r prev [] false [] [] _); [| reflexivity].
  destruct (at_bol fl prev); assumption.
Qed.

Lemma replace_from_skip_all r f : forall s prev,
  (forall prev, match_here fl r prev [] = None) ->
  replace_from fl r f (length s) prev s = [].
Proof.
  induction s as [| x s IH]; intros prev H.
  - cbn [length replace_from]. rewrite H. reflexivity.
  - cbn [length replace_from]. apply IH, H.
Qed.

(** The pattern matches the whole text: the text becomes the
    replacement. *)
Lemma replace_whole r f s caps :
  s <> [] ->
  match_here fl r None s = Some ([], caps) ->
  (forall prev, match_here fl r prev [] = None) ->
  replace_all fl r f s = f caps.
Proof.
  intros Hs Hm He. destruct s as [| x s]; [congruence |].
  unfold replace_all. cbn [replace_from]. rewrite Hm.
  cbn [length]. rewrite Nat.sub_0_r.
  rewrite replace_from_skip_all by exact He. apply app_nil_r.
Qed.
End MatchLemmas.
Lemma rep_greedy_all (A : Type) p (k : option cu -> jsstring -> option A) res u min prev :
  forallb p u = true ->
  min <= length u ->
  k (last_prev prev u) [] = Some res ->
  rep p true min prev u k = Some res.
Proof.
  intros. rewrite <- (app_nil_r u). apply rep_greedy_stop; auto.
Qed.

Lemma at_eol_nil fl : at_eol fl [] = true.
Proof. reflexivity. Qed.

Lemma match_heading k T :
  forallb is_dot T = true ->
  match T with c :: _ => is_space c = false | [] => False end ->
  match_here fl_gm (re_heading k) None (hashes k ++ 32%N :: T) = Some ([], [(1, T)]).
Proof.
  intros Hd Hs. unfold match_here, re_heading.
  rewrite seq_cons by (destruct (lits (hashes k)); discriminate).
  cbn [rmatch at_bol]. rewrite rmatch_lits.
  cbn [seq rmatch plus].
  apply (rep_greedy_stop _ is_space _ T _ ) with (u := [32%N]).
  - destruct T; [contradiction | exact Hs].
  - reflexivity.
  - cbn; lia.
  - destruct T as [| c T']; [contradiction |].
    apply rep_greedy_all; [exact Hd | cbn; lia |].
    cbn [rmatch at_eol]. rewrite Nat.sub_0_r, firstn_all. reflexivity.
Qed.

Lemma rep_lazy_plus_all (A : Type) p (k : option cu -> jsstring -> option A) v res u prev :
  u <> [] ->
  forallb p u = true ->
  (forall x s prev', In x u -> k prev' (x :: s) = None) ->
  k (last_prev prev u) v = Some res ->
  rep p false 1 prev (u ++ v) k = Some res.
Proof.
  intros Hn Hu Hf Hk. destruct u as [| c u]; [congruence |].
  apply rep_lazy_plus; auto. intros x s prev' Hx. apply Hf. right. exact Hx.
Qed.

Lemma lits_first_miss (A : Type) fl c u rs prev x s caps
    (k : option cu -> jsstring -> captures -> option A) :
  chr_eq fl c x = false ->
  rmatch fl (seq (lits (c :: u) ++ rs)) prev (x :: s) caps k = None.
Proof.
  intros H. cbn [lits map app]. fold (lits u).
  destruct (lits u ++ rs) as [| r0 rest].
  - cbn. rewrite H. reflexivity.
  - rewrite seq_cons by discriminate. cbn [rmatch]. rewrite H. reflexivity.
Qed.


Lemma match_h2_id T :
  T <> [] ->
  forallb is_dot T = true ->
  (forall x, In x T -> N.eqb 34 x = false /\ N.eqb 60 x = false) ->
  match_here fl_g re_h2_id None (h2_open ++ T ++ h2_mid ++ T ++ h2_close)
  = Some ([], [(2, T); (1, T)]).
Proof.
  intros Hn Hd Hc. unfold match_here, re_h2_id. fold h2_open h2_mid h2_close.
  rewrite rmatch_lits. rewrite seq_cons by discriminate.
  cbn [rmatch plus_lazy].
  apply rep_lazy_plus_all; [exact Hn | exact Hd | |].
  - intros x s prev' Hx. apply lits_first_miss. apply (Hc x Hx).
  - rewrite firstn_consumed. rewrite rmatch_lits. rewrite seq_cons by discriminate.
    cbn [rmatch plus_lazy].
    apply rep_lazy_plus_all; [exact Hn | exact Hd | |].
    + intros x s prev' Hx.
      rewrite <- (app_nil_r (lits h2_close)). apply lits_first_miss. apply (Hc x Hx).
    + rewrite firstn_consumed.
      rewrite <- (app_nil_r (lits h2_close)).
      rewrite <- (app_nil_r h2_close) at 2.
      rewrite rmatch_lits. reflexivity.
Qed.

Lemma plain_is_ascii x : plain_char x = true -> is_ascii x = true.
Proof.
  unfold plain_char. intros H. apply andb_prop in H. destruct H as [H _].
  apply andb_prop in H. apply H.
Qed.

Lemma inert_replace fl r f segs :
  check_segs fl r plain_char true segs = true ->
  segs_ok plain_char segs = true ->
  replace_all fl r f (flatten segs) = flatten segs.
Proof.
  intros H Hok. apply (inert_text fl r plain_char segs plain_is_ascii H Hok).
Qed.

Lemma split_on_misses : forall u prev cur v,
  misses fl_g (Chr nl) prev u v ->
  split_on nl cur (u ++ v) = split_on nl (cur ++ u) v.
Proof.
  induction u as [| x u IH]; intros prev cur v H.
  - rewrite app_nil_r. reflexivity.
  - destruct H as [H1 H2]. cbn [app split_on].
    unfold match_here in H1. cbn [rmatch chr_eq icase fl_g] in H1.
    rewrite N.eqb_sym. destruct (N.eqb nl x); [discriminate |].
    rewrite (IH (Some x) (cur ++ [x]) v H2), <- app_assoc. reflexivity.
Qed.

Lemma trim_ends s :
  match s with x :: _ => is_space x = false | [] => True end ->
  match rev s with y :: _ => is_space y = false | [] => True end ->
  trim s = s.
Proof.
  intros H1 H2. unfold trim.
  assert (forall t, match t with x :: _ => is_space x = false | [] => True end ->
                    drop_while is_space t = t) as D.
  { intros [| x t]; [reflexivity |]. cbn. intros ->. reflexivity. }
  rewrite (D s H1), (D (rev s) H2). apply rev_involutive.
Qed.

(** A text without line break, list line and blank line that is one
    block-level element passes the list and paragraph passes unchanged. *)
Lemma blocks_inert segs :
  check_segs fl_g (Chr nl) plain_char true segs = true ->
  check_segs fl_g re_ul plain_char true segs = true ->
  check_segs fl_g re_ol plain_char true segs = true ->
  check_segs fl_g re_blank plain_char true segs = true ->
  segs_ok plain_char segs = true ->
  trim (flatten segs) = flatten segs ->
  is_block (flatten segs) = true ->
  parseParagraphs (parseLists (flatten segs)) = flatten segs.
Proof.
  intros Hn Hu Ho Hb Hok Ht Hi.
  assert (parseLists (flatten segs) = flatten segs) as HL.
  { assert (split_char nl (flatten segs) = [flatten segs]) as HS.
    { destruct (check_segs_sound fl_g (Chr nl) plain_char plain_is_ascii segs None Hn Hok)
        as [M _].
      unfold split_char. rewrite <- (app_nil_r (flatten segs)) at 1.
      rewrite (split_on_misses _ None [] [] M). reflexivity. }
    unfold parseLists. rewrite HS. cbn [list_scan fold_left].
    unfold list_line, ulMatch, olMatch.
    rewrite (proj1 (proj2 (inert_text fl_g re_ul plain_char segs plain_is_ascii Hu Hok))).
    rewrite (proj1 (proj2 (inert_text fl_g re_ol plain_char segs plain_is_ascii Ho Hok))).
    reflexivity. }
  rewrite HL. unfold parseParagraphs.
  rewrite (proj2 (proj2 (inert_text fl_g re_blank plain_char segs plain_is_ascii Hb Hok))).
  cbn [map join]. unfold paragraph. rewrite Ht, Hi. reflexivity.
Qed.

(** ** Heading lines *)

Section Headings.
Variable cfg : Config.

Lemma plain_ascii s : forallb plain_char s = true -> forallb is_ascii s = true.
Proof.
  induction s as [| c s IH]; [reflexivity |]. cbn [forallb].
  intros H. apply andb_prop in H. destruct H as [H1 H2].
  rewrite (IH H2), andb_true_r. apply plain_is_ascii, H1.
Qed.

Lemma in_range_false lo hi c : in_range lo hi c = false <-> (c < lo \/ hi < c)%N.
Proof.
  unfold in_range. rewrite andb_false_iff, !N.leb_gt. tauto.
Qed.

(** Character classes as arithmetic facts. *)
Ltac cu_prop :=
  unfold slug_out_char, is_word, is_upper, is_lower, is_digit,
    is_hyphen, hyphen, is_space, is_dot, is_line_terminator, is_ascii in *;
  repeat (progress
    (rewrite ?negb_true_iff, ?negb_false_iff, ?orb_true_iff, ?orb_false_iff,
       ?andb_true_iff, ?in_range_spec, ?in_range_false, ?N.eqb_eq, ?N.eqb_neq,
       ?N.ltb_lt in *)).

Lemma plain_not c x : plain_char c = false -> plain_char x = true -> N.eqb c x = false.
Proof.
  intros Hc Hx. destruct (N.eqb_spec c x); [congruence | reflexivity].
Qed.

Lemma plain_line c :
  plain_char c = true -> (c < 128)%N /\ c <> 10%N /\ c <> 13%N /\ c <> 95%N.
Proof.
  intros H. pose proof (plain_not 95%N c eq_refl H) as U.
  unfold plain_char in H. apply andb_prop in H. destruct H as [H _].
  apply andb_prop in H. destruct H as [H1 H2]. cu_prop. lia.
Qed.

Lemma plain_dot s : forallb plain_char s = true -> forallb is_dot s = true.
Proof.
  induction s as [| c s IH]; [reflexivity |]. cbn [forallb].
  intros H. apply andb_prop in H. destruct H as [H1 H2].
  rewrite (IH H2), andb_true_r. apply plain_line in H1. clear - H1. cu_prop. lia.
Qed.

Lemma slug_out_plain c : slug_out_char c = true -> plain_char c = true.
Proof.
  intros H. unfold plain_char, markup_chars. cbn [existsb].
  assert ((48 <= c <= 57 \/ 97 <= c <= 122 \/ c = 45)%N) as R by (cu_prop; lia).
  clear H. cu_prop. repeat split; try reflexivity; lia.
Qed.

Lemma filter_forallb_imp (p q : cu -> bool) s :
  (forall c, In c s -> p c = true -> q c = true) ->
  forallb q (filter p s) = true.
Proof.
  induction s as [| c s IH]; intros H; [reflexivity |].
  cbn [filter]. destruct (p c) eqn:E.
  - cbn [forallb]. rewrite (H c (or_introl eq_refl) E), IH; [reflexivity |].
    intros x Hx. apply H. right. exact Hx.
  - apply IH. intros x Hx. apply H. right. exact Hx.
Qed.

(** The slug of a plain text holds lower-case letters, digits and
    hyphens only. *)
Lemma slug_out T :
  forallb plain_char T = true -> forallb slug_out_char (slugify T) = true.
Proof.
  intros H. rewrite slugify_refines. unfold slug_spec.
  rewrite (toLowerCase_ascii T (plain_ascii T H)).
  apply collapse_class; [reflexivity |]. apply filter_forallb_imp.
  intros c Hc Hs. apply in_map_iff in Hc. destruct Hc as (t & Ht & Hin).
  rewrite forallb_forall in H. specialize (H t Hin). apply plain_line in H.
  subst c. unfold slug_char in Hs. unfold is_sep.
  destruct (is_space (ascii_lower t)) eqn:E1; [reflexivity |].
  destruct (is_hyphen (ascii_lower t)) eqn:E2; [reflexivity |].
  cbn [orb] in *. rewrite !orb_false_r in Hs.
  unfold ascii_lower in *. destruct (is_upper t) eqn:E; clear E1 E2; cu_prop; lia.
Qed.

Lemma slug_plain T :
  forallb plain_char T = true -> forallb plain_char (slugify T) = true.
Proof.
  intros H. apply slug_out in H. rewrite forallb_forall in *.
  intros c Hc. apply slug_out_plain, H, Hc.
Qed.

Ltac segs_ok_tac :=
  cbn [segs_ok forallb]; 
  repeat match goal with H : forallb plain_char _ = true |- _ => rewrite H end;
  reflexivity.

Ltac inert_pass :=
  match goal with
  | |- context [replace_all ?fl ?r ?f (flatten ?segs)] =>
      rewrite (inert_replace fl r f segs) by
        first [ solve [vm_compute; reflexivity] | solve [segs_ok_tac] ]
  end.

Lemma plain_no_markup T x :
  forallb plain_char T = true -> In x T ->
  N.eqb 34 x = false /\ N.eqb 60 x = false.
Proof.
  intros H Hx. rewrite forallb_forall in H. specialize (H x Hx).
  split; apply plain_not; auto.
Qed.

Lemma lits_nil_miss (A : Type) fl c u rs prev caps
    (k : option cu -> jsstring -> captures -> option A) :
  rmatch fl (seq (lits (c :: u) ++ rs)) prev [] caps k = None.
Proof.
  cbn [lits map app]. fold (lits u).
  destruct (lits u ++ rs) as [| r0 rest]; [reflexivity |].
  rewrite seq_cons by discriminate. reflexivity.
Qed.

Lemma heading_no_empty k prev : match_here fl_gm (re_heading (S k)) prev [] = None.
Proof.
  unfold match_here, re_heading.
  rewrite seq_cons by discriminate. cbn [rmatch].
  destruct (at_bol fl_gm prev); [| reflexivity].
  apply (lits_nil_miss _ fl_gm 35%N (hashes k)).
Qed.

Lemma heading_pass k name T :
  forallb is_dot T = true ->
  match T with c :: _ => is_space c = false | [] => False end ->
  replace_all fl_gm (re_heading (S k)) (fun m => tag name (cap m 1))
    (flatten [Conc (hashes (S k) ++ js " "); Sym T])
  = tag name T.
Proof.
  intros HD Hsp.
  rewrite (replace_whole fl_gm (re_heading (S k)) _ _ [(1, T)]); [reflexivity | | |].
  - discriminate.
  - unfold flatten. cbn [map concat seg_text]. rewrite app_nil_r, <- app_assoc.
    apply match_heading; assumption.
  - apply heading_no_empty.
Qed.

Lemma heading2_pass T :
  forallb is_dot T = true ->
  match T with c :: _ => is_space c = false | [] => False end ->
  replace_all fl_gm (re_heading 2)
    (fun m => js "<h2 id='" ++ cap m 1 ++ js "'>" ++ cap m 1 ++ js "</h2>")
    (flatten [Conc (hashes 2 ++ js " "); Sym T])
  = flatten [Conc h2_open; Sym T; Conc h2_mid; Sym T; Conc h2_close].
Proof.
  intros HD Hsp.
  rewrite (replace_whole fl_gm (re_heading 2) _ _ [(1, T)]); [reflexivity | | |].
  - discriminate.
  - unfold flatten. cbn [map concat seg_text]. rewrite app_nil_r, <- app_assoc.
    apply match_heading; assumption.
  - apply no_empty_match; reflexivity.
Qed.

Lemma h2_id_pass T :
  forallb plain_char T = true ->
  T <> [] ->
  replace_all fl_g re_h2_id
    (fun m => js "<h2 id='" ++ slugify (cap m 2) ++ js "'>" ++ cap m 2 ++ js "</h2>")
    (flatten [Conc h2_open; Sym T; Conc h2_mid; Sym T; Conc h2_close])
  = flatten [Conc h2_open; Sym (slugify T); Conc h2_mid; Sym T; Conc h2_close].
Proof.
  intros HT Hn.
  rewrite (replace_whole fl_g re_h2_id _ _ [(2, T); (1, T)]); [reflexivity | | |].
  - discriminate.
  - apply match_h2_id; [exact Hn | apply plain_dot, HT |].
    intros x Hx. apply (plain_no_markup T x HT Hx).
  - apply no_empty_match; reflexivity.
Qed.

Ltac trim_tac :=
  apply trim_ends;
  [ reflexivity
  | unfold flatten; cbn [map concat seg_text]; rewrite !rev_app_distr; reflexivity ].

Ltac blocks_tac :=
  rewrite blocks_inert;
  [ reflexivity
  | solve [vm_compute; reflexivity] | solve [vm_compute; reflexivity]
  | solve [vm_compute; reflexivity] | solve [vm_compute; reflexivity]
  | solve [segs_ok_tac] | solve [trim_tac] | reflexivity ].

Ltac start_pipeline k :=
  match goal with
  | |- parseMarkdown _ (hashes k ++ js " " ++ ?T) = _ =>
      replace (hashes k ++ js " " ++ T) with (flatten [Conc (hashes k ++ js " "); Sym T])
        by (cbn; rewrite app_nil_r; reflexivity)
  end;
  unfold parseMarkdown, escape, parseCallouts, headers, emphasis, images,
    img_caption_pass, img_class_pass, img_plain_pass, links,
    code, blockquotes, rules;
  cbn [fold_left calloutTypes];
  repeat inert_pass.

(** C3, as amended: for a line of [k] number signs (1 to 6), a space and
    a plain heading text (ASCII, without line break and without the
    markup characters of [markup_chars]) that does not start with white
    space, the transformer gives an identifier to the heading of level 2
    only.  The level-2 heading carries the attribute
    [id = slugify text], a string of lower-case letters, digits and
    hyphens that depends on the text alone; a heading of level 1, 3, 4, 5
    or 6 is the bare element, without identifier. *)
Theorem heading_levels k T :
  1 <= k <= 6 ->
  forallb plain_char T = true ->
  starts_plain T = true ->
  parseMarkdown cfg (hashes k ++ js " " ++ T) = heading_html k T
  /\ forallb slug_out_char (slugify T) = true.
Proof.
  intros Hk HT Hs. split; [| apply slug_out, HT].
  assert (forallb plain_char (slugify T) = true) as HX by (apply slug_plain, HT).
  assert (forallb is_dot T = true) as HD by (apply plain_dot, HT).
  assert (match T with c :: _ => is_space c = false | [] => False end) as Hsp.
  { destruct T as [| c T']; [discriminate |].
    apply negb_true_iff in Hs. exact Hs. }
  assert (T <> []) as Hn by (destruct T; [discriminate | congruence]).
  destruct k as [| [| [| [| [| [| [| k]]]]]]]; try lia; clear Hk.
  - start_pipeline 1.
    rewrite (heading_pass 0 (js "h1") T HD Hsp).
    change (tag (js "h1") T) with (flatten [Conc (js "<h1>"); Sym T; Conc (js "</h1>")]).
    repeat inert_pass. blocks_tac.
  - start_pipeline 2.
    rewrite (heading2_pass T HD Hsp).
    inert_pass.
    rewrite (h2_id_pass T HT Hn).
    repeat inert_pass. blocks_tac.
  - start_pipeline 3.
    rewrite (heading_pass 2 (js "h3") T HD Hsp).
    change (tag (js "h3") T) with (flatten [Conc (js "<h3>"); Sym T; Conc (js "</h3>")]).
    repeat inert_pass. blocks_tac.
  - start_pipeline 4.
    rewrite (heading_pass 3 (js "h4") T HD Hsp).
    change (tag (js "h4") T) with (flatten [Conc (js "<h4>"); Sym T; Conc (js "</h4>")]).
    repeat inert_pass. blocks_tac.
  - start_pipeline 5.
    rewrite (heading_pass 4 (js "h5") T HD Hsp).
    change (tag (js "h5") T) with (flatten [Conc (js "<h5>"); Sym T; Conc (js "</h5>")]).
    repeat inert_pass. blocks_tac.
  - start_pipeline 6.
    rewrite (heading_pass 5 (js "h6") T HD Hsp).
    change (tag (js "h6") T) with (flatten [Conc (js "<h6>"); Sym T; Conc (js "</h6>")]).
    repeat inert_pass. blocks_tac.
Qed.
End Headings.

(** ** The paragraph pass *)

Section Paragraphs.

Lemma drop_while_length p s : length (drop_while p s) <= length s.
Proof.
  induction s as [| c s IH]; [reflexivity |]. cbn. destruct (p c); cbn; lia.
Qed.

Lemma trim_length s : length (trim s) <= length s.
Proof.
  unfold trim. rewrite length_rev.
  etransitivity; [apply drop_while_length |]. rewrite length_rev.
  apply drop_while_length.
Qed.

(** A trimmed text neither starts nor ends with white space. *)
Lemma trim_fixed_ends s :
  trim s = s ->
  match s with x :: _ => is_space x = false | [] => True end
  /\ match rev s with y :: _ => is_space y = false | [] => True end.
Proof.
  intros H. assert (length (trim s) = length s) as L by (rewrite H; reflexivity).
  unfold trim in L. rewrite length_rev in L.
  pose proof (drop_while_length is_space s) as L1.
  pose proof (drop_while_length is_space (rev (drop_while is_space s))) as L2.
  rewrite length_rev in L2.
  assert (drop_while is_space s = s) as D1.
  { destruct s as [| x s]; [reflexivity |]. cbn in *. destruct (is_space x); [| reflexivity].
    pose proof (drop_while_length is_space s). lia. }
  rewrite D1 in *. split.
  - destruct s as [| x s]; [exact I |]. cbn in D1. destruct (is_space x) eqn:E; [| reflexivity].
    pose proof (drop_while_length is_space s) as L3. rewrite D1 in L3. cbn in L3. lia.
  - destruct (rev s) as [| y t] eqn:R; [exact I |].
    cbn in L. destruct (is_space y) eqn:E; [| reflexivity].
    pose proof (drop_while_length is_space t) as L3.
    assert (length s = S (length t)) by (rewrite <- length_rev, R; reflexivity). lia.
Qed.

Lemma match_blank_miss prev x s :
  N.eqb x nl = false \/ match s with y :: _ => N.eqb y nl = false | [] => False end ->
  match_here fl_g re_blank prev (x :: s) = None.
Proof.
  unfold match_here, re_blank, plus. cbn [rmatch chr_eq icase fl_g].
  rewrite (N.eqb_sym nl x). destruct (N.eqb x nl) eqn:E; [| reflexivity].
  intros [H | H]; [discriminate |].
  destruct s as [| y s]; [contradiction |].
  cbn [rep]. rewrite (N.eqb_sym nl y), H. reflexivity.
Qed.

(** No blank-line separator starts inside a block that holds no blank
    line and does not end with a line feed, whatever follows it. *)
Lemma block_misses v : forall b prev,
  no_blank b = true ->
  match rev b with y :: _ => N.eqb y nl = false | [] => True end ->
  misses fl_g re_blank prev b v.
Proof.
  induction b as [| x b IH]; intros prev Hb Hl; [exact I |].
  assert (match rev b with y :: _ => N.eqb y nl = false | [] => True end) as Hl'.
  { destruct b as [| y b]; [exact I |].
    cbn [rev] in *. destruct (rev b ++ [y]) eqn:E.
    - destruct (rev b); discriminate.
    - exact Hl. }
  split.
  - apply match_blank_miss. destruct b as [| y b]; cbn [app].
    + left. exact Hl.
    + cbn [no_blank] in Hb. apply andb_prop in Hb. destruct Hb as [Hb _].
      apply negb_true_iff, andb_false_iff in Hb. exact Hb.
  - apply IH; [| exact Hl'].
    destruct b as [| y b]; [reflexivity |].
    cbn [no_blank] in Hb. apply andb_prop in Hb. apply Hb.
Qed.

Lemma match_blank_hit prev rest :
  match rest with y :: _ => N.eqb y nl = false | [] => True end ->
  match_here fl_g re_blank prev (nl :: nl :: rest) = Some (rest, []).
Proof.
  intros H. unfold match_here, re_blank, plus. cbn [rmatch chr_eq icase fl_g].
  rewrite N.eqb_refl.
  rewrite (rep_greedy_total (N.eqb nl) [] (nl :: rest) 1 (Some nl)).
  cbn [take_while drop_while]. rewrite N.eqb_refl. cbn [length Nat.leb].
  destruct rest as [| y rest]; [reflexivity |].
  cbn [drop_while]. rewrite N.eqb_sym, H. reflexivity.
Qed.

Lemma is_block_nonempty b : is_block b = true -> b <> [].
Proof. intros H ->. discriminate. Qed.

Lemma tight_first b :
  tight_block b ->
  match b with y :: _ => N.eqb y nl = false | [] => False end
  /\ match rev b with y :: _ => N.eqb y nl = false | [] => True end.
Proof.
  intros (Hb & Ht & _). destruct (trim_fixed_ends b Ht) as [H1 H2].
  assert (forall y, is_space y = false -> N.eqb y nl = false) as Hs.
  { intros y Hy. destruct (N.eqb_spec y nl); [subst; discriminate | reflexivity]. }
  split.
  - destruct b; [discriminate | auto].
  - destruct (rev b); auto.
Qed.

Lemma join_cons2 sep (x y : jsstring) l : join sep (x :: y :: l) = x ++ sep ++ join sep (y :: l).
Proof. reflexivity. Qed.

Lemma join_first sep (bs : list jsstring) :
  match bs with b :: _ => match b with y :: _ => N.eqb y nl = false | [] => False end | [] => True end ->
  match join sep bs with y :: _ => N.eqb y nl = false | [] => True end.
Proof.
  destruct bs as [| b bs]; [intros; exact I |].
  destruct b as [| y b]; [contradiction |].
  intros H. destruct bs; exact H.
Qed.

Lemma split_blocks : forall bs prev,
  Forall tight_block bs ->
  bs <> [] ->
  split_from fl_g re_blank 0 prev [] (join [nl; nl] bs) = bs.
Proof.
  induction bs as [| b bs IH]; intros prev Hbs Hn; [congruence |].
  inversion Hbs as [| b' bs' Hb Hbs']; subst.
  destruct (tight_first b Hb) as [Hf Hl].
  destruct Hb as (Hblk & Htrim & Hnb).
  destruct bs as [| b2 bs].
  - cbn [join]. rewrite <- (app_nil_r b) at 1.
    rewrite (split_misses fl_g re_blank b prev [] [] (block_misses [] b prev Hnb Hl)).
    reflexivity.
  - rewrite join_cons2.
    rewrite (split_misses fl_g re_blank b prev [] _ (block_misses _ b prev Hnb Hl)).
    cbn [app].
    assert (match join [nl; nl] (b2 :: bs) with y :: _ => N.eqb y nl = false | [] => True end) as Hj.
    { apply join_first. inversion Hbs'; subst. apply (tight_first b2); assumption. }
    assert (join [nl; nl] (b2 :: bs) <> []) as Hjn.
    { inversion Hbs' as [| ? ? Hb2 ?]; subst. destruct Hb2 as (Hb2 & _).
      destruct b2 as [| y b2]; [discriminate |]. destruct bs; discriminate. }
    cbn [split_from]. rewrite (match_blank_hit _ _ Hj).
    replace (length (nl :: nl :: join [nl; nl] (b2 :: bs)) - length (join [nl; nl] (b2 :: bs)))
      with 2 by (cbn [length]; lia).
    cbn [split_from]. f_equal. apply IH; [exact Hbs' | discriminate].
Qed.

(** C2, as amended: the paragraph pass, applied to a text made of blocks
    separated by blank lines, each block starting with a block-level tag
    (h1 to h6, ul, ol, li, blockquote, pre, div, figure, hr, table),
    without white space around it and without blank line inside, returns
    the text as it is: no such block is wrapped in a paragraph.  (The
    whole transformation applied again escapes the tags first, and then
    wraps them.) *)
Theorem paragraphs_keep_blocks bs :
  Forall tight_block bs ->
  parseParagraphs (join [nl; nl] bs) = join [nl; nl] bs.
Proof.
  intros Hbs. destruct bs as [| b0 bs0]; [reflexivity |].
  set (bs := b0 :: bs0) in *.
  assert (bs <> []) as Hn by discriminate.
  unfold parseParagraphs, split_re.
  destruct (join [nl; nl] bs) as [| x s] eqn:J.
  - inversion Hbs as [| ? ? Hb ?]; subst. destruct Hb as (Hb & _).
    unfold bs in J. destruct b0; [discriminate |]. destruct bs0; discriminate.
  - rewrite <- J. rewrite (split_blocks bs None Hbs Hn). f_equal.
    clear - Hbs. induction Hbs as [| b bs' (Hb & Ht & _) _ IH]; [reflexivity |].
    cbn [map]. rewrite IH. f_equal. unfold paragraph. rewrite Ht, Hb. reflexivity.
Qed.
End Paragraphs.
(** ** The list pass *)

Section Lists.

Lemma list_line_classify st line :
  list_line st line
  = match classify line with
    | Item t x => push (li x) (enter (type_name t) st)
    | Other l =>
        push l (if inList st
                then {| inList := false; listType := [];
                        result := result (push (close_tag st) st) |}
                else st)
    end.
Proof.
  unfold list_line, classify.
  destruct (ulMatch line); [reflexivity |].
  destruct (olMatch line); reflexivity.
Qed.

Lemma type_name_eqb t t' : str_eqb (type_name t) (type_name t') = ListType_eqb t t'.
Proof. destruct t, t'; reflexivity. Qed.

Lemma ListType_eqb_eq t t' : ListType_eqb t t' = true -> t = t'.
Proof. destruct t, t'; simpl; congruence. Qed.

Lemma ListType_eqb_refl t : ListType_eqb t t = true.
Proof. destruct t; reflexivity. Qed.

(** Entering a list: nothing is emitted inside a list of the same type;
    otherwise the open list is closed and the new one opened. *)
Lemma enter_result st o t :
  scanning st o ->
  scanning (enter (type_name t) st) (Some t)
  /\ result (enter (type_name t) st)
     = result st ++
       match o with
       | None => [open_tag t]
       | Some t0 => if ListType_eqb t0 t then [] else [end_tag t0; open_tag t]
       end.
Proof.
  unfold scanning, enter. destruct o as [t0 |].
  - intros [H1 H2]. rewrite H1, H2, type_name_eqb. cbn [negb orb].
    destruct (ListType_eqb t0 t) eqn:E; cbn [negb].
    + apply ListType_eqb_eq in E. subst t0. rewrite app_nil_r. auto.
    + cbn [inList listType result push]. unfold close_tag. rewrite H2.
      rewrite <- app_assoc. auto.
  - intros H1. rewrite H1. cbn [negb orb inList listType result push]. auto.
Qed.

Lemma leave_result st o l :
  scanning st o ->
  let st' := push l (if inList st
                then {| inList := false; listType := [];
                        result := result (push (close_tag st) st) |}
                else st) in
  scanning st' None
  /\ result st' = result st ++ match o with Some t0 => [end_tag t0; l] | None => [l] end.
Proof.
  unfold scanning. destruct o as [t0 |].
  - intros [H1 H2]. rewrite H1. cbn. unfold close_tag. rewrite H2, <- app_assoc. auto.
  - intros H1. rewrite H1. cbn. rewrite H1. auto.
Qed.

Lemma scan_ahead : forall lines st o,
  scanning st o ->
  result (finish (fold_left list_line lines st))
  = result st ++ ahead o (blocks (map classify lines)).
Proof.
  induction lines as [| line lines IH]; intros st o Hs.
  - cbn [fold_left map blocks]. unfold finish, scanning in *.
    destruct o as [t |].
    + destruct Hs as [H1 H2]. rewrite H1. cbn. unfold close_tag. rewrite H2. reflexivity.
    + rewrite Hs. cbn. rewrite app_nil_r. reflexivity.
  - cbn [fold_left map blocks]. rewrite list_line_classify.
    destruct (classify line) as [t x | l].
    + destruct (enter_result st o t Hs) as [Hs' Hr].
      assert (scanning (push (li x) (enter (type_name t) st)) (Some t)) as Hs''.
      { unfold scanning in *. cbn. exact Hs'. }
      rewrite (IH _ _ Hs''). cbn [push result]. rewrite Hr. rewrite <- !app_assoc.
      f_equal. 
      destruct (blocks (map classify lines)) as [| [t' xs | l'] bs] eqn:B;
        cbn [ahead]; try destruct (ListType_eqb t t') eqn:E;
        destruct o as [t0 |]; cbn [ahead];
        try (destruct (ListType_eqb t0 t) eqn:E0;
             [apply ListType_eqb_eq in E0; subst t0; rewrite ?E, ?ListType_eqb_refl |]);
        cbn; rewrite <- ?app_assoc, ?app_nil_r; reflexivity.
    + destruct (leave_result st o l Hs) as [Hs' Hr].
      rewrite (IH _ _ Hs'). rewrite Hr. rewrite <- app_assoc. f_equal.
      destruct o; reflexivity.
Qed.

Lemma parseLists_refines html : parseLists html = lists_spec html.
Proof.
  unfold parseLists, lists_spec, list_scan.
  change (if inList ?s then push (close_tag ?s) ?s else ?s) with (finish s).
  rewrite (scan_ahead (split_char nl html) _ None) by reflexivity.
  reflexivity.
Qed.

Lemma blocks_maximal ls : lists_maximal (blocks ls) = true.
Proof.
  induction ls as [| [t x | l] ls IH]; cbn [blocks]; auto.
  destruct (blocks ls) as [| [t' xs | l'] bs] eqn:B.
  - reflexivity.
  - destruct (ListType_eqb t t') eqn:E.
    + apply ListType_eqb_eq in E. subst t'. cbn [lists_maximal] in *.
      apply andb_prop in IH. destruct IH as [IH1 IH2].
      apply andb_prop in IH1. destruct IH1 as [_ IH1].
      rewrite IH1, IH2. reflexivity.
    + cbn [lists_maximal] in *. rewrite E. cbn. exact IH.
  - cbn [lists_maximal] in *. exact IH.
Qed.
(** C7: the list pass emits, for every text, the lines outside lists as
    they are and one list element per maximal run of consecutive list
    lines of one type ([lists_spec]): a change of list type or a line that
    is no list line closes the open list, no list is empty and no two
    lists of one type are adjacent.  The lines "- a", "- b", "1. c" give
    an unordered list of a and b followed by an ordered list of c. *)
Theorem parseLists_by_runs html :
  parseLists html = lists_spec html
  /\ lists_maximal (blocks (map classify (split_char nl html))) = true
  /\ blocks (map classify [js "- a"; js "- b"; js "1. c"])
     = [BList UL [js "a"; js "b"]; BList OL [js "c"]]
  /\ parseLists (join [nl] [js "- a"; js "- b"; js "1. c"])
     = join [nl] [js "<ul>"; js "<li>a</li>"; js "<li>b</li>"; js "</ul>";
                  js "<ol>"; js "<li>c</li>"; js "</ol>"].
Proof.
  split; [apply parseLists_refines |].
  split; [apply blocks_maximal |].
  split; vm_compute; reflexivity.
Qed.

End Lists.
(** ** The retry timer *)

Section Retry.
Variable host : Host.
Variable cfg : Config.

Lemma begin_fetches c fp :
  length (filter is_fetch (snd (fst (loadContent_begin host cfg fp c)))) <= 1.
Proof.
  unfold loadContent_begin. destruct (str_eqb _ _); simpl; lia.
Qed.

Lemma catch_no_fetch p e c :
  filter is_fetch (snd (fst (loadContent_catch host p e c))) = [].
Proof.
  unfold loadContent_catch. destruct (resolve _ _); reflexivity.
Qed.

Lemma resume_no_fetch p o toc c :
  filter is_fetch (snd (fst (loadContent_resume host cfg p o toc c))) = [].
Proof.
  unfold loadContent_resume. destruct (retrieved o) as [e | markdown].
  - pose proof (catch_no_fetch p e c) as H.
    destruct (loadContent_catch host p e c) as [[c' effs] r]. exact H.
  - destruct (generateTOC cfg); reflexivity.
Qed.

Lemma set_nth_length i c l : length (set_nth i c l) = length l.
Proof.
  revert i; induction l as [| x l IH]; intros [| i]; simpl; auto.
Qed.

Lemma retrievals_app pg effs :
  length (filter is_fetch (effects pg ++ effs))
  = retrievals pg + length (filter is_fetch effs).
Proof.
  unfold retrievals. rewrite filter_app, length_app. reflexivity.
Qed.

Lemma start_load_frame i pg : load_frame pg (start_load host cfg i pg).
Proof.
  unfold start_load, load_frame.
  destruct (nth_error (containers pg) i) as [c |]; [| repeat split; lia].
  pose proof (begin_fetches c (contentSource c)) as Hf.
  destruct (loadContent_begin host cfg (contentSource c) c) as [[c' effs] p].
  simpl in *. rewrite set_nth_length.
  unfold retrievals at 2 3; simpl. rewrite retrievals_app.
  repeat split; lia.
Qed.

Lemma retry_load_frame i pg : load_frame pg (retry_load host cfg pg i).
Proof.
  unfold retry_load.
  destruct (nth_error (containers pg) i) as [c |].
  - destruct (not_rendered c); [apply start_load_frame |].
    unfold load_frame; repeat split; lia.
  - unfold load_frame; repeat split; lia.
Qed.

Lemma loads_frame (f : Page -> nat -> Page) :
  (forall i pg, load_frame pg (f pg i)) ->
  forall l pg,
    let pg' := fold_left f l pg in
    attempts pg' = attempts pg /\ retryTimer pg' = retryTimer pg
    /\ length (containers pg') = length (containers pg)
    /\ retrievals pg <= retrievals pg' <= retrievals pg + length l.
Proof.
  intros Hf l. induction l as [| i l IH]; intros pg; simpl.
  - repeat split; lia.
  - destruct (Hf i pg) as (A1 & A2 & A3 & A4).
    destruct (IH (f pg i)) as (B1 & B2 & B3 & B4).
    repeat split; try congruence; lia.
Qed.

Lemma retry_tick_frame pg :
  let pg' := retry_tick host cfg pg in
  attempts pg' = attempts pg + 1
  /\ retryTimer pg' = (retryTimer pg && negb (maxAttempts <=? attempts pg + 1))%bool
  /\ length (containers pg') = length (containers pg)
  /\ retrievals pg <= retrievals pg' <= retrievals pg + length (containers pg).
Proof.
  unfold retry_tick.
  set (pg0 := {| containers := containers pg; tocContainer := tocContainer pg;
                 inflight := inflight pg; attempts := attempts pg + 1;
                 retryTimer := retryTimer pg; effects := effects pg |}).
  destruct (loads_frame (retry_load host cfg) retry_load_frame 
              (List.seq 0 (length (containers pg0))) pg0) as (A1 & A2 & A3 & A4).
  rewrite length_seq in A4. 
  change (retrievals pg0) with (retrievals pg) in A4.
  simpl in A1, A2, A3, A4.
  set (pg1 := fold_left _ _ _) in *.
  rewrite A1.
  destruct (maxAttempts <=? attempts pg + 1) eqn:E; simpl.
  - rewrite andb_false_r. unfold retrievals in *; simpl. repeat split; auto; lia.
  - rewrite andb_true_r. repeat split; auto; lia.
Qed.

Lemma settle_frame pg n o :
  let pg' := step host cfg pg (Settle n o) in
  attempts pg' = attempts pg /\ retryTimer pg' = retryTimer pg
  /\ length (containers pg') = length (containers pg)
  /\ retrievals pg' = retrievals pg.
Proof.
  simpl. destruct (nth_error (inflight pg) n) as [[i p] |]; [| auto].
  destruct (nth_error (containers pg) i) as [c |]; [| auto].
  pose proof (resume_no_fetch p o (tocContainer pg) c) as Hf.
  destruct (loadContent_resume host cfg p o (tocContainer pg) c) as [[[c' toc] effs] r].
  simpl in *. rewrite set_nth_length.
  unfold retrievals at 1; simpl. rewrite retrievals_app, Hf. simpl.
  repeat split; lia.
Qed.

Lemma step_inv pg e : timer_inv pg -> timer_inv (step host cfg pg e).
Proof.
  intros [H1 H2]. destruct e as [| n o].
  - simpl. destruct (retryTimer pg) eqn:T;
      [| split; [auto | rewrite T; intros; discriminate]].
    destruct (retry_tick_frame pg) as (A1 & A2 & _).
    specialize (H2 eq_refl). unfold timer_inv. rewrite A1, A2, T.
    destruct (maxAttempts <=? attempts pg + 1) eqn:E; cbn [andb negb].
    + split; [lia | intros; discriminate].
    + apply Nat.leb_gt in E. split; [lia | intros _; lia].
  - destruct (settle_frame pg n o) as (A1 & A2 & _).
    unfold timer_inv. rewrite A1, A2. split; auto.
Qed.

Lemma run_inv es : forall pg, timer_inv pg -> timer_inv (run host cfg pg es).
Proof.
  induction es as [| e es IH]; intros pg H; simpl; auto.
  apply IH, step_inv, H.
Qed.

(** Once the interval is cleared nothing sets it again and no retrieval
    is attempted. *)
Lemma run_cleared es : forall pg,
  retryTimer pg = false ->
  retryTimer (run host cfg pg es) = false
  /\ retrievals (run host cfg pg es) = retrievals pg.
Proof.
  induction es as [| e es IH]; intros pg T; simpl; auto.
  assert (retryTimer (step host cfg pg e) = false
          /\ retrievals (step host cfg pg e) = retrievals pg) as [T' R'].
  { destruct e as [| n o].
    - simpl. rewrite T. auto.
    - destruct (settle_frame pg n o) as (_ & A2 & _ & A4). split; congruence. }
  destruct (IH _ T') as [T'' R'']. split; congruence.
Qed.

(** The interval is cleared by the tick that brings the counter to the
    cap. *)
Lemma run_clears es : forall pg,
  timer_inv pg ->
  maxAttempts - attempts pg <= ticks es ->
  retryTimer (run host cfg pg es) = false.
Proof.
  induction es as [| e es IH]; intros pg [H1 H2] Hk.
  - change (ticks []) with 0 in Hk.
    destruct (retryTimer pg) eqn:T; auto. specialize (H2 eq_refl). lia.
  - destruct (retryTimer pg) eqn:T.
    2:{ apply (run_cleared (e :: es) pg T). }
    specialize (H2 eq_refl).
    change (run host cfg pg (e :: es)) with (run host cfg (step host cfg pg e) es).
    apply IH; [apply step_inv; split; auto |].
    destruct e as [| n o].
    + cbn [step]. rewrite T. destruct (retry_tick_frame pg) as (A1 & _).
      rewrite A1. change (ticks (Tick :: es)) with (S (ticks es)) in Hk. lia.
    + destruct (settle_frame pg n o) as (A1 & _). rewrite A1.
      change (ticks (Settle n o :: es)) with (ticks es) in Hk. lia.
Qed.

(** Every tick before the cap adds at most one retrieval per container. *)
Lemma run_retrievals es : forall pg,
  timer_inv pg ->
  retrievals (run host cfg pg es)
  <= retrievals pg + (maxAttempts - attempts pg) * length (containers pg).
Proof.
  induction es as [| e es IH]; intros pg Hi; cbn [run fold_left]; [apply Nat.le_add_r |].
  specialize (IH _ (step_inv pg e Hi)). fold (run host cfg) in *.
  destruct Hi as [H1 H2].
  destruct e as [| n o].
  - cbn [step] in *. destruct (retryTimer pg) eqn:T.
    + specialize (H2 eq_refl).
      destruct (retry_tick_frame pg) as (A1 & _ & A3 & A4).
      rewrite A1, A3 in IH.
      replace (maxAttempts - attempts pg) with (S (maxAttempts - (attempts pg + 1))) by lia.
      rewrite Nat.mul_succ_l.
      set (k := (maxAttempts - (attempts pg + 1)) * length (containers pg)) in *.
      clearbody k. unfold run in *. lia.
    + exact IH.
  - destruct (settle_frame pg n o) as (A1 & _ & A3 & A4).
    rewrite A1, A3, A4 in IH. exact IH.
Qed.

Lemma init_frame cs toc :
  let pg := init host cfg cs toc in
  attempts pg = 0 /\ length (containers pg) = length cs
  /\ retrievals pg <= length cs.
Proof.
  unfold init.
  set (pg0 := {| containers := cs; tocContainer := toc; inflight := [];
                 attempts := 0; retryTimer := false; effects := [] |}).
  destruct (loads_frame (fun pg i => start_load host cfg i pg)
              (fun i pg => start_load_frame i pg)
              (List.seq 0 (length cs)) pg0) as (A1 & A2 & A3 & A4).
  rewrite length_seq in A4. cbn [attempts containers pg0] in A1, A3.
  change (retrievals pg0) with 0 in A4.
  set (pg1 := fold_left _ _ pg0) in *. clearbody pg1. clear A2.
  destruct cs as [| c cs']; unfold retrievals in *;
    cbn [attempts containers effects]; repeat split; auto; lia.
Qed.

Lemma run_app pg es1 es2 :
  run host cfg pg (es1 ++ es2) = run host cfg (run host cfg pg es1) es2.
Proof. apply fold_left_app. Qed.

(** C9: once the interval has elapsed three times the timer is cleared;
    the counter never passes three, the ticks added at most three
    retrievals per container to those of the initial loads, and whatever
    happens afterwards (ticks of a host that ignores the clearing, or
    retrievals that settle) no further retrieval is attempted. *)
Theorem retry_cap cs toc es1 es2 :
  maxAttempts <= ticks es1 ->
  let start := init host cfg cs toc in
  let pg := run host cfg start es1 in
  retryTimer pg = false
  /\ attempts pg <= maxAttempts
  /\ retrievals pg <= retrievals start + maxAttempts * length cs
  /\ retrievals (run host cfg start (es1 ++ es2)) = retrievals pg.
Proof.
  intros Hk start pg.
  destruct (init_frame cs toc) as (A1 & A2 & A3).
  fold start in A1, A2, A3.
  assert (timer_inv start) as Hi.
  { unfold timer_inv. rewrite A1. unfold maxAttempts. split; intros; lia. }
  assert (retryTimer pg = false) as T.
  { apply run_clears; auto. rewrite A1, Nat.sub_0_r. exact Hk. }
  split; [exact T |]. split; [apply (run_inv es1 start Hi) |]. split.
  - pose proof (run_retrievals es1 start Hi) as H.
    rewrite A1, A2, Nat.sub_0_r in H. exact H.
  - rewrite run_app. apply run_cleared, T.
Qed.
End Retry.
(** ** loadContent when the retrieval fails *)

Section Failure.

Lemma failure_thrown outcome :
  retrieval_fails outcome = true -> exists e, retrieved outcome = inl e.
Proof.
  destruct outcome as [m | [] st body]; simpl; intros H; try discriminate; eauto.
Qed.

(** In the [catch] clause the identifier [fallbackContent] resolves to
    nothing unless the global object defines it. *)
Lemma catch_out_of_scope host p e c :
  scope_get (functionScope p) (js "fallbackContent") = None ->
  scope_get (globals host) (js "fallbackContent") = None ->
  loadContent_catch host p e c
  = (c, [Warned e], RejectedWith (ReferenceError (js "fallbackContent"))).
Proof.
  intros Hf Hg. unfold loadContent_catch. cbn [resolve]. rewrite Hf, Hg.
  reflexivity.
Qed.

(** C1 (the code departs from the claim): outside the [file:] protocol,
    when the retrieval fails and the global object has no property
    [fallbackContent], [loadContent] does not restore the content saved
    before the loading indicator was shown.  The [catch] clause throws a
    reference error on [fallbackContent], a constant of the [try] block:
    the promise is rejected, the container keeps the loading indicator and
    the interactive augmenter does not run. *)
Theorem loadContent_failure_leaves_loading host cfg filePath outcome toc c :
  str_eqb (protocol host) (js "file:") = false ->
  retrieval_fails outcome = true ->
  scope_get (globals host) (js "fallbackContent") = None ->
  exists e,
    retrieved outcome = inl e
    /\ loadContent host cfg filePath outcome toc c
       = (set_content loading c, toc,
          [Fetched (resolveContentPath cfg filePath); Warned e],
          RejectedWith (ReferenceError (js "fallbackContent"))).
Proof.
  intros Hp Hf Hg. destruct (failure_thrown outcome Hf) as [e He].
  exists e. split; [exact He |].
  unfold loadContent, loadContent_begin, loadContent_resume.
  rewrite Hp, He. rewrite catch_out_of_scope; [reflexivity | reflexivity | exact Hg].
Qed.

End Failure.

(** ** The lightbox *)

Section Lightbox.

Lemma without_self o : without o [o] = [].
Proof. unfold without; simpl. rewrite Nat.eqb_refl. reflexivity. Qed.

(** Opening an overlay and dismissing it by a click leaves its key
    listener on the document. *)
Lemma open_click d (w : bool) :
  lightboxes d = [] ->
  user_step (user_step d ImageClick)
    (if w then BackdropClick (created d) else CloseClick (created d))
  = {| lightboxes := []; created := S (created d); overflow := [];
       keydownListeners := keydownListeners d ++ [created d] |}.
Proof.
  intros Hd. destruct w; unfold user_step, openLightbox, close;
    cbn [lightboxes created keydownListeners];
    rewrite Hd; cbn [app existsb]; rewrite Nat.eqb_refl; cbn [orb];
    rewrite without_self; reflexivity.
Qed.

Lemma open_and_click_run ways : forall d,
  lightboxes d = [] ->
  let d' := user_run d (open_and_click (created d) ways) in
  lightboxes d' = []
  /\ created d' = created d + length ways
  /\ keydownListeners d' = keydownListeners d ++ List.seq (created d) (length ways).
Proof.
  induction ways as [| w ways IH]; intros d Hd.
  - cbn. rewrite app_nil_r, Nat.add_0_r. auto.
  - cbn [open_and_click user_run fold_left length List.seq].
    rewrite (open_click d w Hd).
    set (d1 := {| lightboxes := []; created := S (created d); overflow := [];
                  keydownListeners := keydownListeners d ++ [created d] |}).
    destruct (IH d1 eq_refl) as (A & B & C).
    cbn [created keydownListeners d1] in A, B, C. unfold user_run in *.
    rewrite A, B, C. rewrite <- app_assoc.
    repeat split; auto; lia.
Qed.

(** C5 (the code departs from the claim): a dismissal by a click on the
    backdrop or on the dismiss control removes the overlay and leaves its
    [keydown] listener installed.  After any number of cycles of opening
    an overlay and dismissing it by a click, no overlay is attached and
    the document holds one listener per cycle; only the Escape key
    removes the listeners. *)
Theorem lightbox_listener_leak (ways : list bool) :
  let d := user_run empty_document (open_and_click 0 ways) in
  lightboxes d = []
  /\ keydownListeners d = List.seq 0 (length ways)
  /\ keydownListeners (user_step d (KeyDown (js "Escape"))) = [].
Proof.
  destruct (open_and_click_run ways empty_document eq_refl) as (A & B & C).
  cbn zeta. split; [exact A |]. split; [exact C |].
  cbn [user_step]. simpl keydownListeners in C.
  set (d := user_run empty_document (open_and_click 0 ways)) in *.
  assert (forall l d0, keydownListeners
            (fold_left (fun d o => escHandler o (js "Escape") d) l d0)
          = fold_left (fun ks o => without o ks) l (keydownListeners d0)) as F.
  { induction l as [| o l IH]; intros d0; [reflexivity |].
    cbn [fold_left]. rewrite IH. reflexivity. }
  rewrite F, C.
  generalize (List.seq 0 (length ways)). intros l.
  assert (forall l1 l2, (forall x, In x l2 -> In x l1) ->
            fold_left (fun ks o => without o ks) l1 l2 = []) as G.
  { induction l1 as [| o l1 IH]; intros l2 H.
    - destruct l2 as [| x l2]; [reflexivity |]. destruct (H x (or_introl eq_refl)).
    - cbn [fold_left]. apply IH. intros x Hx. unfold without in Hx.
      apply filter_In in Hx. destruct Hx as [Hx Hne].
      destruct (H x Hx) as [E | E]; [| exact E].
      subst x. rewrite Nat.eqb_refl in Hne. discriminate. }
  apply G. auto.
Qed.

End Lightbox.
(** ** The transformer on the inputs of the specification *)

Section Examples.

(** C6: the line "## Costs for Energy at Home" becomes a level-2 heading
    with the identifier "costs-for-energy-at-home"; the browser's heading
    element for it has that identifier, and the navigation generator
    emits for it one entry whose link target and [data-target] are that
    identifier. *)
Theorem heading_round_trip :
  let html := parseMarkdown default_config (js "## Costs for Energy at Home") in
  html = js "<h2 id='costs-for-energy-at-home'>Costs for Energy at Home</h2>"
  /\ querySelectorAll_headings html
     = [{| tagName := js "H2"; id := js "costs-for-energy-at-home";
           textContent := js "Costs for Energy at Home";
           scrollMarginTop := [] |}]
  /\ map toc_item (querySelectorAll_headings html)
     = [js "<li class='toc-h2'><a href='#costs-for-energy-at-home' data-target='costs-for-energy-at-home'>Costs for Energy at Home</a></li>"]
  /\ fst (generateTableOfContents (Some []) (querySelectorAll_headings html))
     = Some (toc_head
             ++ js "<li class='toc-h2'><a href='#costs-for-energy-at-home' data-target='costs-for-energy-at-home'>Costs for Energy at Home</a></li>"
             ++ js "</ul></nav>").
Proof.
  cbv zeta. repeat split; vm_compute; reflexivity.
Qed.

(** C10: on [![a](p.png "c"){.x}] the captioned pattern matches from the
    exclamation mark through the closing parenthesis and leaves [{.x}]
    unread; the marker stays in the output as text, right after the
    figure, and is not applied as a class. *)
Theorem caption_leaves_class_marker :
  let input := js "![a](p.png 'c'){.x}" in
  let fig := figure (js "../assets/p.png") (js "a") (js "c") in
  match_here fl_g re_img_caption None input
  = Some (js "{.x}", [(3, js "c"); (2, js "p.png"); (1, js "a")])
  /\ img_caption_pass default_config input = fig ++ js "{.x}"
  /\ parseMarkdown default_config input = fig ++ js "{.x}"
  /\ includes (js "class='x'") (parseMarkdown default_config input) = false.
Proof.
  cbv zeta. repeat split; vm_compute; reflexivity.
Qed.

End Examples.


(** ** The escaping pass *)

Section Escape.

Lemma replace_chr_map c (h : jsstring) : forall s prev,
  replace_from fl_g (Chr c) (fun _ => h) 0 prev s
  = flat_map (fun x => if N.eqb c x then h else [x]) s.
Proof.
  induction s as [| x s IH]; intros prev; [reflexivity |].
  cbn [flat_map]. destruct (N.eqb c x) eqn:E.
  - rewrite (replace_from_hit fl_g (Chr c) _ prev x s s [] 0).
    + rewrite IH. reflexivity.
    + unfold match_here. cbn [rmatch chr_eq fl_g icase]. rewrite E. reflexivity.
    + cbn [length]. lia.
  - rewrite replace_from_miss.
    + rewrite IH. reflexivity.
    + unfold match_here. cbn [rmatch chr_eq fl_g icase]. rewrite E. reflexivity.
Qed.

Lemma flat_map_flat_map (f g : cu -> jsstring) s :
  flat_map g (flat_map f s) = flat_map (fun c => flat_map g (f c)) s.
Proof.
  induction s as [| x s IH]; [reflexivity |].
  cbn [flat_map]. rewrite flat_map_app, IH. reflexivity.
Qed.

Lemma escape_flat_map html : escape html = flat_map entity html.
Proof.
  unfold escape, replace_all. rewrite !replace_chr_map, !flat_map_flat_map.
  apply flat_map_ext. intros c. unfold entity.
  destruct (N.eqb_spec 38 c) as [E | E].
  - subst c. reflexivity.
  - rewrite (proj2 (N.eqb_neq c 38)) by congruence.
    cbn [flat_map app]. rewrite app_nil_r.
    destruct (N.eqb_spec 60 c) as [E1 | E1].
    + subst c. reflexivity.
    + rewrite (proj2 (N.eqb_neq c 60)) by congruence.
      cbn [flat_map app]. rewrite app_nil_r.
      destruct (N.eqb_spec 62 c) as [E2 | E2].
      * subst c. reflexivity.
      * rewrite (proj2 (N.eqb_neq c 62)) by congruence. reflexivity.
Qed.

Lemma entity_cases c :
  (c = 38%N /\ entity c = js "&amp;") \/ (c = 60%N /\ entity c = js "&lt;")
  \/ (c = 62%N /\ entity c = js "&gt;")
  \/ (c <> 38%N /\ c <> 60%N /\ c <> 62%N /\ entity c = [c]).
Proof.
  unfold entity.
  destruct (N.eqb_spec c 38); [left; auto |].
  destruct (N.eqb_spec c 60); [right; left; auto |].
  destruct (N.eqb_spec c 62); [right; right; left; auto |].
  right; right; right; auto.
Qed.

Lemma entity_no_angle c : forallb (fun x => negb (is_angle x)) (entity c) = true.
Proof.
  destruct (entity_cases c) as [[_ E] | [[_ E] | [[_ E] | (H1 & H2 & H3 & E)]]];
    rewrite E; try reflexivity.
  cbn [forallb]. unfold is_angle.
  rewrite (proj2 (N.eqb_neq c 60) H2), (proj2 (N.eqb_neq c 62) H3). reflexivity.
Qed.

Lemma flat_map_entity_inj : forall s t,
  flat_map entity s = flat_map entity t -> s = t.
Proof.
  induction s as [| x s IH]; intros [| y t] H; cbn [flat_map] in H.
  - reflexivity.
  - destruct (entity_cases y) as [[_ E] | [[_ E] | [[_ E] | (_ & _ & _ & E)]]];
      rewrite E in H; discriminate.
  - destruct (entity_cases x) as [[_ E] | [[_ E] | [[_ E] | (_ & _ & _ & E)]]];
      rewrite E in H; discriminate.
  - assert (x = y /\ flat_map entity s = flat_map entity t) as [Exy Est].
    { destruct (entity_cases x) as [[Hx E] | [[Hx E] | [[Hx E] | (X1 & X2 & X3 & E)]]];
        destruct (entity_cases y) as [[Hy E'] | [[Hy E'] | [[Hy E'] | (Y1 & Y2 & Y3 & E')]]];
        rewrite E, E' in H; subst; cbn in H;
        try (injection H as H; split; [reflexivity | exact H]);
        try discriminate;
        try (injection H as H0 H; congruence).
      injection H as H0 H. split; assumption. }
    subst y. f_equal. apply IH, Est.
Qed.

Lemma str_eqb_eq : forall a b : jsstring, str_eqb a b = true <-> a = b.
Proof.
  induction a as [| x a IHa]; intros [| y b]; cbn [str_eqb];
    try (split; [discriminate | discriminate]); try tauto.
  rewrite andb_true_iff, N.eqb_eq, IHa. split; [intros [-> ->]; reflexivity |].
  intros H; injection H; auto.
Qed.

(** X1: the escaping pass replaces every ampersand and angle bracket by
    its entity, one code unit at a time, and changes nothing else.  Its
    output holds no angle bracket, and two different texts never have the
    same output. *)
Theorem escape_entities (html : jsstring) :
  escape html = flat_map entity html
  /\ forallb (fun c => negb (is_angle c)) (escape html) = true
  /\ (forall html' : jsstring, str_eqb (escape html) (escape html') = str_eqb html html').
Proof.
  split; [apply escape_flat_map | split].
  - rewrite escape_flat_map. induction html as [| c s IH]; [reflexivity |].
    cbn [flat_map]. rewrite forallb_app, entity_no_angle, IH. reflexivity.
  - intros html'.
    pose proof str_eqb_eq as Heq.
    destruct (str_eqb html html') eqn:E.
    + apply Heq in E. subst html'. apply Heq. reflexivity.
    + destruct (str_eqb (escape html) (escape html')) eqn:E'; [| reflexivity].
      apply Heq in E'. rewrite !escape_flat_map in E'.
      apply flat_map_entity_inj in E'. apply Heq in E'. congruence.
Qed.

End Escape.

(** ** Inline code and code fences *)

Section Fences.

Lemma rep_none (A : Type) (Q : jsstring -> Prop) p g
    (k : option cu -> jsstring -> option A) :
  (forall x s, Q (x :: s) -> Q s) ->
  (forall prev v, Q v -> k prev v = None) ->
  forall s min prev, Q s -> rep p g min prev s k = None.
Proof.
  intros Ht Hk. induction s as [| c s IH]; intros min prev HQ.
  - cbn [rep]. destruct min; [apply Hk, HQ | reflexivity].
  - cbn [rep]. rewrite (IH (pred min) (Some c) (Ht c s HQ)).
    rewrite (Hk prev (c :: s) HQ).
    destruct (p c), g, min; reflexivity.
Qed.

(** A greedy run of a class followed by something that no member of the
    class starts: the run is taken whole. *)
Lemma rep_greedy_excl (A : Type) p (k : option cu -> jsstring -> option A) :
  (forall x s prev, p x = true -> k prev (x :: s) = None) ->
  forall s min prev,
    rep p true min prev s k
    = if min <=? length (take_while p s)
      then k (last_prev prev (take_while p s)) (drop_while p s)
      else None.
Proof.
  intros Hk. induction s as [| c s IH]; intros min prev.
  - cbn [rep take_while drop_while length last_prev fold_left].
    destruct min; reflexivity.
  - cbn [rep take_while drop_while]. destruct (p c) eqn:E.
    + rewrite IH. cbn [length].
      change (last_prev prev (c :: take_while p s))
        with (last_prev (Some c) (take_while p s)).
      destruct min as [| min]; cbn [pred Nat.leb].
      * destruct (k (last_prev (Some c) (take_while p s)) (drop_while p s)) eqn:K;
          [reflexivity |].
        apply Hk, E.
      * destruct (min <=? length (take_while p s)); [| reflexivity].
        destruct (k _ (drop_while p s)); reflexivity.
    + cbn [length last_prev fold_left]. destruct min; reflexivity.
Qed.

Lemma take_drop p (s : jsstring) : take_while p s ++ drop_while p s = s.
Proof.
  induction s as [| c s IH]; [reflexivity |]. cbn [take_while drop_while].
  destruct (p c); [cbn [app]; rewrite IH |]; reflexivity.
Qed.

Lemma take_while_all p (s : jsstring) : forallb p (take_while p s) = true.
Proof.
  induction s as [| c s IH]; [reflexivity |]. cbn [take_while].
  destruct (p c) eqn:E; [cbn [forallb]; rewrite E, IH |]; reflexivity.
Qed.

Lemma drop_while_nil p (s : jsstring) : drop_while p s = [] -> forallb p s = true.
Proof.
  induction s as [| c s IH]; [reflexivity |]. cbn [drop_while forallb].
  destruct (p c); [exact IH | discriminate].
Qed.

Lemma skipn_next (X : Type) : forall n (l : list X) y rest,
  skipn n l = y :: rest -> skipn (S n) l = rest.
Proof.
  induction n as [| n IH]; intros l y rest H.
  - cbn [skipn] in H. subst l. reflexivity.
  - destruct l as [| x l]; [discriminate |]. cbn [skipn] in H.
    change (skipn (S (S n)) (x :: l)) with (skipn (S n) l). apply (IH l y), H.
Qed.

(** The inline-code pattern at a position. *)
Lemma match_code prev s :
  match_here fl_g re_code prev s
  = match s with
    | x :: c :: s' =>
        if N.eqb backquote x && is_not backquote c
        then match drop_while (is_not backquote) s' with
             | y :: rest =>
                 Some (rest, [(1, c :: take_while (is_not backquote) s')])
             | [] => None
             end
        else None
    | _ => None
    end.
Proof.
  unfold match_here, re_code. cbn [seq rmatch chr_eq fl_g icase plus].
  destruct s as [| x s]; [reflexivity |]. fold backquote.
  destruct (N.eqb backquote x) eqn:Ex; [| destruct s; reflexivity].
  rewrite rep_greedy_excl.
  2:{ intros y t prev' Hy. unfold is_not in Hy. apply negb_true_iff in Hy.
      rewrite N.eqb_sym in Hy. fold backquote. rewrite Hy. reflexivity. }
  destruct s as [| c s']; [reflexivity |].
  cbn [take_while drop_while andb]. destruct (is_not backquote c) eqn:Ec.
  - cbn [length Nat.leb].
    pose proof (take_drop (is_not backquote) s') as TD.
    destruct (drop_while (is_not backquote) s') as [| y rest] eqn:D; [reflexivity |].
    assert (N.eqb backquote y = true) as Ey.
    { assert (is_not backquote y = false) as N.
      { clear - D. induction s' as [| z s' IH]; [discriminate |].
        cbn [drop_while] in D. destruct (is_not backquote z) eqn:Z; [auto |].
        injection D as -> _. exact Z. }
      unfold is_not in N. apply negb_false_iff in N. rewrite N.eqb_sym. exact N. }
    rewrite Ey. do 3 f_equal.
    set (u := take_while (is_not backquote) s') in *.
    rewrite <- TD.
    f_equal. apply (firstn_consumed (c :: u) (y :: rest)).
  - reflexivity.
Qed.

Lemma no_backquote_inert f : forall s prev,
  no_backquote s = true -> replace_from fl_g re_code f 0 prev s = s.
Proof.
  induction s as [| x s IH]; intros prev H.
  - cbn [replace_from]. rewrite match_code. reflexivity.
  - unfold no_backquote in H. cbn [forallb] in H. apply andb_prop in H.
    destruct H as [Hx Hs]. rewrite replace_from_miss.
    + rewrite (IH _ Hs). reflexivity.
    + rewrite match_code. unfold is_not in Hx. apply negb_true_iff in Hx.
      rewrite N.eqb_sym in Hx. rewrite Hx. destruct s; reflexivity.
Qed.

Lemma no_backquote_settled s : no_backquote s = true -> settled s = true.
Proof.
  induction s as [| x s IH]; [reflexivity |]. intros H.
  unfold no_backquote in H. cbn [forallb] in H. apply andb_prop in H.
  destruct H as [Hx Hs]. cbn [settled]. unfold is_not in Hx.
  apply negb_true_iff in Hx. rewrite Hx. apply IH, Hs.
Qed.

Lemma settled_app u v :
  no_backquote u = true -> settled v = true -> settled (u ++ v) = true.
Proof.
  intros Hu Hv. induction u as [| x u IH]; [exact Hv |].
  unfold no_backquote in Hu. cbn [forallb] in Hu. apply andb_prop in Hu.
  destruct Hu as [Hx Hu]. cbn [app settled]. unfold is_not in Hx.
  apply negb_true_iff in Hx. rewrite Hx. apply IH, Hu.
Qed.

(** After the inline-code pass every backquote is settled; a text that
    starts with a backquote gives an output that starts with a backquote or
    with the opening tag. *)
Lemma inline_code_settled : forall n s prev,
  length s <= n ->
  settled (replace_from fl_g re_code code_tag 0 prev s) = true
  /\ match s with
     | x :: _ =>
         N.eqb x backquote = true ->
         match replace_from fl_g re_code code_tag 0 prev s with
         | y :: _ => N.eqb y backquote || N.eqb y 60 = true
         | [] => False
         end
     | [] => True
     end.
Proof.
  induction n as [| n IH]; intros s prev Hn.
  - destruct s; [| cbn in Hn; lia]. cbn [replace_from]. rewrite match_code.
    split; [reflexivity | exact I].
  - destruct s as [| x s].
    { cbn [replace_from]. rewrite match_code. split; [reflexivity | exact I]. }
    cbn [length] in Hn.
    destruct (match_here fl_g re_code prev (x :: s)) as [[rest caps] |] eqn:M.
    + rewrite match_code in M.
      destruct s as [| c s']; [discriminate |].
      destruct (N.eqb backquote x && is_not backquote c) eqn:G; [| discriminate].
      destruct (drop_while (is_not backquote) s') as [| y rest'] eqn:D; [discriminate |].
      injection M as <- <-.
      pose proof (take_drop_length (is_not backquote) s') as TL. rewrite D in TL.
      cbn [length] in TL.
      assert (length (x :: c :: s') - length rest'
              = S (S (S (length (take_while (is_not backquote) s'))))) as L.
      { cbn [length]. lia. }
      rewrite (replace_from_hit fl_g re_code code_tag prev x (c :: s') rest'
                 [(1, c :: take_while (is_not backquote) s')]
                 (S (S (length (take_while (is_not backquote) s'))))).
      2:{ rewrite match_code, G, D. reflexivity. }
      2:{ exact L. }
      destruct (replace_from_skip fl_g re_code code_tag
                  (S (S (length (take_while (is_not backquote) s')))) (Some x) (c :: s'))
        as [prev' R].
      { cbn [length]. lia. }
      rewrite R.
      assert (skipn (S (S (length (take_while (is_not backquote) s')))) (c :: s') = rest') as SK.
      { apply (skipn_next _ (S (length (take_while (is_not backquote) s'))) (c :: s') y).
        cbn [skipn]. rewrite skipn_take_while. exact D. }
      rewrite SK.
      destruct (IH rest' prev') as [IH1 _]; [cbn [length] in Hn; lia |].
      split.
      * unfold code_tag, tag, cap. cbn [cap_opt Nat.eqb].
        rewrite <- !app_assoc.
        apply settled_app; [reflexivity |].
        apply andb_prop in G. destruct G as [_ Gc].
        change (settled ((c :: take_while (is_not backquote) s')
                         ++ js "</" ++ js "code" ++ js ">"
                         ++ replace_from fl_g re_code code_tag 0 prev' rest') = true).
        apply settled_app.
        { unfold no_backquote. cbn [forallb]. rewrite Gc. apply take_while_all. }
        apply (settled_app (js "</code>")); [reflexivity | exact IH1].
      * intros _. reflexivity.
    + rewrite replace_from_miss by exact M.
      destruct (IH s (Some x)) as [IH1 IH2]; [lia |].
      split; [| intros Hx; rewrite Hx; reflexivity].
      cbn [settled]. rewrite IH1, andb_true_r.
      destruct (N.eqb x backquote) eqn:Ex; [| reflexivity].
      rewrite match_code in M. rewrite N.eqb_sym in Ex.
      destruct s as [| c s']; [reflexivity |].
      rewrite Ex in M. cbn [andb] in M.
      destruct (is_not backquote c) eqn:Ec.
      * (* the closing backquote is missing *)
        destruct (drop_while (is_not backquote) s') as [| y rest'] eqn:D; [| discriminate].
        assert (no_backquote (c :: s') = true) as NB.
        { unfold no_backquote. cbn [forallb]. rewrite Ec. apply drop_while_nil, D. }
        rewrite (no_backquote_inert code_tag _ _ NB).
        unfold no_backquote in NB. cbn [forallb] in NB. apply andb_prop in NB.
        unfold no_backquote. rewrite (proj2 NB). apply orb_true_r.
      * unfold is_not in Ec. apply negb_false_iff in Ec.
        specialize (IH2 Ec).
        destruct (replace_from fl_g re_code code_tag 0 (Some x) (c :: s')) as [| y out];
          [contradiction |].
        cbv iota. rewrite IH2. reflexivity.
Qed.

Lemma settled_tail x s : settled (x :: s) = true -> settled s = true.
Proof. cbn [settled]. intros H. apply andb_prop in H. apply H. Qed.

Lemma lits_miss (A : Type) fl : forall u rs prev s caps
    (k : option cu -> jsstring -> captures -> option A),
  u <> [] ->
  (forall x t, s = x :: t -> match u with c :: _ => chr_eq fl c x = false | [] => False end) ->
  rmatch fl (seq (lits u ++ rs)) prev s caps k = None.
Proof.
  intros u rs prev s caps k Hu H. destruct u as [| c u]; [congruence |].
  destruct s as [| x t]; [apply lits_nil_miss |].
  apply lits_first_miss. apply (H x t eq_refl).
Qed.

Lemma lits_prefix_miss (A : Type) : forall u rs prev s caps
    (k : option cu -> jsstring -> captures -> option A),
  starts_with u s = false ->
  rmatch fl_g (seq (lits u ++ rs)) prev s caps k = None.
Proof.
  induction u as [| c u IH]; intros rs prev s caps k H; [discriminate |].
  destruct s as [| x s]; [apply lits_nil_miss |].
  cbn [starts_with] in H.
  destruct (N.eqb c x) eqn:E.
  - apply N.eqb_eq in E. subst x.
    change (c :: s) with ([c] ++ s). change (c :: u) with ([c] ++ u).
    unfold lits. rewrite map_app, <- app_assoc. fold (lits [c]) (lits u).
    rewrite rmatch_lits. apply IH. exact H.
  - apply lits_first_miss. exact E.
Qed.

Lemma starts_with_split : forall u s,
  starts_with u s = true -> exists t, s = u ++ t.
Proof.
  induction u as [| c u IH]; intros s H; [exists s; reflexivity |].
  destruct s as [| x s]; [discriminate |]. cbn [starts_with] in H.
  apply andb_prop in H. destruct H as [E H]. apply N.eqb_eq in E. subst x.
  destruct (IH s H) as [t ->]. exists t. reflexivity.
Qed.

(** The fence pattern finds nothing in a settled text. *)
Lemma match_fence_settled prev s :
  settled s = true -> match_here fl_g re_fence prev s = None.
Proof.
  intros H. unfold match_here, re_fence.
  destruct (starts_with (js "```") s) eqn:P; [| apply lits_prefix_miss, P].
  apply starts_with_split in P. destruct P as [t ->].
  rewrite rmatch_lits.
  change (js "```" ++ t) with (backquote :: backquote :: backquote :: t) in H.
  apply settled_tail, settled_tail in H. cbn [settled] in H.
  change (N.eqb backquote backquote) with true in H. cbv iota in H.
  destruct t as [| c b]; [reflexivity |].
  apply andb_prop in H. destruct H as [H _].
  set (tail := seq ([Chr nl; Grp 2 (star_lazy any_cu)] ++ lits (js "```"))).
  assert (forall prev' v caps',
            match v with
            | [] => True
            | y :: v' => chr_eq fl_g nl y = false \/ no_backquote v' = true
            end ->
            rmatch fl_g tail prev' v caps' (fun _ s' caps => Some (s', caps)) = None) as T.
  { intros prev' v caps' NB. unfold tail.
    change ([Chr nl; Grp 2 (star_lazy any_cu)] ++ lits (js "```"))
      with (Chr nl :: Grp 2 (star_lazy any_cu) :: lits (js "```")).
    rewrite !seq_cons by discriminate. cbn [rmatch].
    destruct v as [| y v]; [reflexivity |].
    destruct (chr_eq fl_g nl y); [| reflexivity].
    destruct NB as [NB | NB]; [discriminate |].
    cbn [star_lazy].
    apply (rep_none _ (fun t => no_backquote t = true)).
    - intros z t Z. unfold no_backquote in Z. cbn [forallb] in Z.
      apply andb_prop in Z. apply Z.
    - intros prev'' w W. rewrite <- (app_nil_r (lits (js "```"))).
      apply lits_prefix_miss. destruct w as [| z w]; [reflexivity |].
      unfold no_backquote in W. cbn [forallb] in W. apply andb_prop in W.
      destruct W as [W _]. unfold is_not in W. apply negb_true_iff in W.
      rewrite N.eqb_sym in W.
      change (js "```") with (backquote :: js "``"). cbn [starts_with].
      rewrite W. reflexivity.
    - exact NB. }
  assert (forall v, no_backquote v = true ->
            match v with
            | [] => True
            | y :: v' => chr_eq fl_g nl y = false \/ no_backquote v' = true
            end) as T'.
  { intros [| y v'] V; [exact I |]. right.
    unfold no_backquote in V. cbn [forallb] in V. apply andb_prop in V. apply V. }
  change (seq ([Opt (Grp 1 (plus is_word)); Chr nl; Grp 2 (star_lazy any_cu)]
               ++ lits (js "```")))
    with (Seq (Opt (Grp 1 (plus is_word))) tail).
  cbn [rmatch plus].
  destruct (N.eqb c backquote || N.eqb c 60) eqn:C.
  - assert (is_word c = false) as W.
    { apply orb_prop in C. destruct C as [C | C]; apply N.eqb_eq in C; subst c; reflexivity. }
    assert (chr_eq fl_g nl c = false) as NL.
    { apply orb_prop in C. destruct C as [C | C]; apply N.eqb_eq in C; subst c; reflexivity. }
    cbn [rep]. rewrite W. apply T. left. exact NL.
  - cbn [orb] in H.
    assert (no_backquote (c :: b) = true) as NB.
    { unfold no_backquote. cbn [forallb]. fold (no_backquote b). rewrite H, andb_true_r.
      apply orb_false_iff in C. unfold is_not. rewrite (proj1 C). reflexivity. }
    rewrite (rep_none _ (fun t => no_backquote t = true)).
    + apply T. apply (T' (c :: b)), NB.
    + intros z t Z. unfold no_backquote in Z. cbn [forallb] in Z.
      apply andb_prop in Z. apply Z.
    + intros prev' v V. apply T. apply (T' v), V.
    + exact NB.
Qed.

Lemma fence_inert f : forall s prev,
  settled s = true -> replace_from fl_g re_fence f 0 prev s = s.
Proof.
  induction s as [| x s IH]; intros prev H.
  - cbn [replace_from]. rewrite match_fence_settled; reflexivity.
  - rewrite replace_from_miss by (apply match_fence_settled, H).
    rewrite IH; [reflexivity | apply (settled_tail x), H].
Qed.

(** X2: the code-fence replacement never fires.  It runs on the output
    of the inline-code replacement, in which every backquote that is left
    is followed by nothing, by another backquote, by a tag, or by a text
    without backquote: for every input the pass [code] is the inline-code
    replacement alone, whatever the fence replacement would write. *)
Theorem code_fence_never_matches (html : jsstring) :
  code html = inline_code html
  /\ settled (inline_code html) = true
  /\ (forall f : captures -> jsstring,
        replace_all fl_g re_fence f (inline_code html) = inline_code html).
Proof.
  assert (settled (inline_code html) = true) as S.
  { apply (proj1 (inline_code_settled (length html) html None (le_n _))). }
  split; [| split; [exact S |]].
  - unfold code. fold (inline_code html). apply fence_inert, S.
  - intros f. apply fence_inert, S.
Qed.

End Fences.

(** ** More on the list pass *)

Section ListLines.

(** What comes after a pattern is tried on a suffix of the input only. *)
Lemma rmatch_none (A : Type) fl (Q : jsstring -> Prop) :
  (forall x s, Q (x :: s) -> Q s) ->
  forall r (k : option cu -> jsstring -> captures -> option A),
    (forall prev v caps, Q v -> k prev v caps = None) ->
    forall prev s caps, Q s -> rmatch fl r prev s caps k = None.
Proof.
  intros Ht.
  induction r as [| c | p | | | p min g | a IHa b IHb | a IHa b IHb | i a IHa | a IHa];
    intros k Hk prev s caps HQ; cbn [rmatch].
  - apply Hk, HQ.
  - destruct s as [| x s]; [reflexivity |].
    destruct (chr_eq fl c x); [apply Hk, (Ht x), HQ | reflexivity].
  - destruct s as [| x s]; [reflexivity |].
    destruct (p x); [apply Hk, (Ht x), HQ | reflexivity].
  - destruct (at_bol fl prev); [apply Hk, HQ | reflexivity].
  - destruct (at_eol fl s); [apply Hk, HQ | reflexivity].
  - apply (rep_none _ Q); [exact Ht | | exact HQ].
    intros prev' v Hv. apply Hk, Hv.
  - apply IHa; [| exact HQ]. intros prev' v caps' Hv. apply IHb; assumption.
  - rewrite IHa by assumption. apply IHb; assumption.
  - apply IHa; [| exact HQ]. intros prev' v caps' Hv. apply Hk, Hv.
  - rewrite IHa by assumption. apply Hk, HQ.
Qed.

(** A pattern anchored at the start of the input matches at the first
    position or nowhere. *)
Lemma search_anchored r : forall s x,
  search fl_g (Seq Bol r) (Some x) s = None.
Proof.
  induction s as [| y s IH]; intros x; cbn [search]; unfold match_here;
    cbn [rmatch at_bol fl_g multiline andb]; [reflexivity | apply IH].
Qed.

Lemma str_match_anchored r s :
  str_match fl_g (Seq Bol r) s
  = match match_here fl_g (Seq Bol r) None s with
    | Some (_, caps) => Some caps
    | None => None
    end.
Proof.
  unfold str_match. destruct s as [| x s]; cbn [search].
  - destruct (match_here fl_g (Seq Bol r) None []) as [[? ?] |]; reflexivity.
  - destruct (match_here fl_g (Seq Bol r) None (x :: s)) as [[? ?] |]; [reflexivity |].
    apply search_anchored.
Qed.

Lemma cr_tail_tl x s : cr_tail (x :: s) -> cr_tail s.
Proof.
  intros [H | H]; [discriminate |]. destruct s as [| y s]; [left; reflexivity |].
  right. unfold ends_cr in *. cbn [rev] in *.
  destruct (rev s ++ [y]) as [| z t] eqn:E; [destruct (rev s); discriminate |].
  exact H.
Qed.

Lemma ends_cr_not_dots s : ends_cr s = true -> forallb is_dot s = false.
Proof.
  unfold ends_cr. intros H. destruct (rev s) as [| c t] eqn:E; [discriminate |].
  apply N.eqb_eq in H. subst c.
  assert (In 13%N s) as I13 by (apply (proj2 (in_rev s 13%N)); rewrite E; left; reflexivity).
  destruct (forallb is_dot s) eqn:F; [| reflexivity].
  rewrite forallb_forall in F. specialize (F _ I13). discriminate.
Qed.

(** The end of a list pattern, [(.+)$], fails on every such suffix. *)
Lemma item_end_cr (A : Type) prev s caps
    (k : option cu -> jsstring -> captures -> option A) :
  cr_tail s ->
  rmatch fl_g (Seq (Grp 1 (plus is_dot)) Eol) prev s caps k = None.
Proof.
  intros H. cbn [rmatch plus].
  assert (forall t u min prev',
            forallb is_dot u = true -> cr_tail (u ++ t) -> u ++ t <> [] ->
            rep is_dot true min prev' t
              (fun prev'0 s' =>
                 if at_eol fl_g s'
                 then k prev'0 s' ((1, firstn (length s - length s') s) :: caps)
                 else None) = None) as R.
  { induction t as [| c t IH]; intros u min prev' Hu Hc Hn.
    - rewrite app_nil_r in *. destruct Hc as [Hc | Hc]; [congruence |].
      apply ends_cr_not_dots in Hc. congruence.
    - cbn [rep at_eol fl_g multiline andb].
      destruct (is_dot c) eqn:E.
      + rewrite (IH (u ++ [c])).
        * destruct min; reflexivity.
        * rewrite forallb_app, Hu. cbn [forallb]. rewrite E. reflexivity.
        * rewrite <- app_assoc. exact Hc.
        * destruct u; discriminate.
      + destruct min; reflexivity. }
  destruct s as [| x s']; [reflexivity |].
  apply (R (x :: s') [] 1 prev); [reflexivity | exact H | discriminate].
Qed.

Lemma not_item_ul line :
  negb (starts_item line) || ends_cr line = true -> ulMatch line = None.
Proof.
  intros H. unfold ulMatch, re_ul.
  change (seq [Bol; Cls (fun c => N.eqb c 45 || N.eqb c 42); plus is_space;
               Grp 1 (plus is_dot); Eol])
    with (Seq Bol (Seq (Cls (fun c => N.eqb c 45 || N.eqb c 42))
                     (Seq (plus is_space) (Seq (Grp 1 (plus is_dot)) Eol)))).
  rewrite str_match_anchored.
  unfold match_here. cbn [rmatch at_bol].
  destruct line as [| c s]; [reflexivity |].
  destruct (N.eqb c 45 || N.eqb c 42) eqn:E; [| reflexivity].
  apply orb_prop in H. destruct H as [H | H].
  - unfold starts_item, list_marker in H. rewrite E in H. discriminate.
  - rewrite (rmatch_none _ fl_g cr_tail cr_tail_tl); [reflexivity | | ].
    + intros prev v caps Hv.
      exact (item_end_cr _ prev v caps (fun _ s'' caps'' => Some (s'', caps'')) Hv).
    + apply (cr_tail_tl c). right. exact H.
Qed.

Lemma not_item_ol line :
  negb (starts_item line) || ends_cr line = true -> olMatch line = None.
Proof.
  intros H. unfold olMatch, re_ol.
  change (seq [Bol; plus is_digit; Chr 46%N; plus is_space; Grp 1 (plus is_dot); Eol])
    with (Seq Bol (Seq (plus is_digit)
                     (Seq (Chr 46%N)
                        (Seq (plus is_space) (Seq (Grp 1 (plus is_dot)) Eol))))).
  rewrite str_match_anchored.
  unfold match_here. cbn [rmatch at_bol plus].
  apply orb_prop in H. destruct H as [H | H].
  - destruct line as [| c s]; [reflexivity |].
    unfold starts_item, list_marker in H. apply negb_true_iff in H.
    apply orb_false_iff in H. destruct H as [_ H].
    cbn [rep]. rewrite H. reflexivity.
  - rewrite (rep_none _ cr_tail); [reflexivity | exact cr_tail_tl | | right; exact H].
    intros prev v Hv.
    exact (rmatch_none _ fl_g cr_tail cr_tail_tl (Seq (Chr 46%N) (plus is_space))
             (fun prev' s' caps' =>
                rmatch fl_g (Seq (Grp 1 (plus is_dot)) Eol) prev' s' caps'
                  (fun _ s'' caps'' => Some (s'', caps'')))
             (fun prev' v' caps' Hv' => item_end_cr _ prev' v' caps' _ Hv')
             prev v [] Hv).
Qed.

Lemma split_on_nonempty sep : forall s cur, split_on sep cur s <> [].
Proof.
  induction s as [| c s IH]; intros cur; cbn [split_on]; [discriminate |].
  destruct (N.eqb c sep); [discriminate | apply IH].
Qed.

Lemma join_cons_ne sep (x : jsstring) l : l <> [] -> join sep (x :: l) = x ++ sep ++ join sep l.
Proof. destruct l; [congruence | reflexivity]. Qed.

(** Joining the lines of a text with line feeds gives the text back. *)
Lemma join_split_on : forall s cur, join [nl] (split_on nl cur s) = cur ++ s.
Proof.
  induction s as [| c s IH]; intros cur; cbn [split_on].
  - cbn [join]. rewrite app_nil_r. reflexivity.
  - destruct (N.eqb_spec c nl) as [-> | Hc].
    + rewrite join_cons_ne by apply split_on_nonempty. rewrite IH. reflexivity.
    + rewrite IH, <- app_assoc. reflexivity.
Qed.

Lemma blocks_others ls :
  blocks (map Other ls) = map BLine ls.
Proof.
  induction ls as [| l ls IH]; [reflexivity |]. cbn [map blocks]. rewrite IH. reflexivity.
Qed.

(** A text none of whose lines is a list line. *)
Lemma parseLists_other_lines (html : jsstring) :
  forallb (fun l => negb (starts_item l) || ends_cr l) (split_char nl html) = true ->
  parseLists html = html.
Proof.
  intros H. rewrite parseLists_refines. unfold lists_spec.
  assert (map classify (split_char nl html) = map Other (split_char nl html)) as C.
  { apply map_ext_in. intros l Hl. rewrite forallb_forall in H. specialize (H l Hl).
    unfold classify. rewrite (not_item_ul l H), (not_item_ol l H). reflexivity. }
  rewrite C, blocks_others.
  assert (forall ls, concat (map render (map BLine ls)) = ls) as R.
  { induction ls as [| l ls IH]; [reflexivity |].
    cbn [map concat render app]. rewrite IH. reflexivity. }
  rewrite R. unfold split_char. apply (join_split_on html []).
Qed.

(** X3: the list pass returns a text as it is when none of its lines
    is a list line; a line that does not start with a hyphen, an asterisk
    or a digit is none, and neither is a line that ends with a carriage
    return, whatever it starts with (the patterns of the list pass end
    with [(.+)$], and the dot matches no carriage return). *)
Theorem parseLists_keeps_other_lines (html : jsstring) :
  forallb (fun l => negb (starts_item l) || ends_cr l) (split_char nl html) = true ->
  parseLists html = html.
Proof. apply parseLists_other_lines. Qed.

End ListLines.

Section ListItems.

Lemma item_text_spec x :
  item_text x = true ->
  forallb is_dot x = true
  /\ match x with c :: _ => is_space c = false | [] => False end.
Proof.
  unfold item_text. intros H. apply andb_prop in H. destruct H as [H1 H2].
  split; [exact H1 |]. destruct x; [discriminate |]. apply negb_true_iff, H2.
Qed.

(** The end of a list pattern on the space and the text of an item. *)
Lemma match_item_end prev x caps :
  item_text x = true ->
  rmatch fl_g (Seq (plus is_space) (Seq (Grp 1 (plus is_dot)) Eol)) prev (32%N :: x) caps
    (fun _ s' caps' => Some (s', caps'))
  = Some ([], (1, x) :: caps).
Proof.
  intros H. destruct (item_text_spec x H) as [Hd Hs].
  cbn [rmatch plus].
  apply (rep_greedy_stop _ is_space _ x _) with (u := [32%N]).
  - destruct x; [contradiction | exact Hs].
  - reflexivity.
  - cbn; lia.
  - destruct x as [| c x']; [contradiction |].
    apply rep_greedy_all; [exact Hd | cbn; lia |].
    cbn [at_eol]. rewrite Nat.sub_0_r, firstn_all. reflexivity.
Qed.

Lemma rmatch_seq_bol (A : Type) r s caps (k : option cu -> jsstring -> captures -> option A) :
  rmatch fl_g (Seq Bol r) None s caps k = rmatch fl_g r None s caps k.
Proof. reflexivity. Qed.

Lemma rmatch_seq_cls (A : Type) fl p r prev x s caps
    (k : option cu -> jsstring -> captures -> option A) :
  rmatch fl (Seq (Cls p) r) prev (x :: s) caps k
  = if p x then rmatch fl r (Some x) s caps k else None.
Proof. reflexivity. Qed.

Lemma rmatch_seq_chr (A : Type) fl c r prev x s caps
    (k : option cu -> jsstring -> captures -> option A) :
  rmatch fl (Seq (Chr c) r) prev (x :: s) caps k
  = if chr_eq fl c x then rmatch fl r (Some x) s caps k else None.
Proof. reflexivity. Qed.

Lemma rmatch_seq_rep (A : Type) fl p min g r prev s caps
    (k : option cu -> jsstring -> captures -> option A) :
  rmatch fl (Seq (Rep p min g) r) prev s caps k
  = rep p g min prev s (fun prev' s' => rmatch fl r prev' s' caps k).
Proof. reflexivity. Qed.

Lemma classify_bullet m x :
  is_bullet m = true -> item_text x = true -> classify (bullet m x) = Item UL x.
Proof.
  intros Hm Hx. unfold classify, ulMatch, re_ul.
  change (seq [Bol; Cls (fun c => N.eqb c 45 || N.eqb c 42); plus is_space;
               Grp 1 (plus is_dot); Eol])
    with (Seq Bol (Seq (Cls (fun c => N.eqb c 45 || N.eqb c 42))
                     (Seq (plus is_space) (Seq (Grp 1 (plus is_dot)) Eol)))).
  rewrite str_match_anchored. unfold match_here, bullet.
  rewrite rmatch_seq_bol, rmatch_seq_cls. unfold is_bullet in Hm. rewrite Hm.
  rewrite (match_item_end (Some m) x [] Hx).
  reflexivity.
Qed.

Lemma classify_numbered n x :
  is_number n = true -> item_text x = true -> classify (numbered n x) = Item OL x.
Proof.
  intros Hn Hx. unfold is_number in Hn. apply andb_prop in Hn. destruct Hn as [Hd Hl].
  destruct n as [| d n]; [discriminate |].
  assert (is_digit d = true) as Hd0 by (cbn [forallb] in Hd; apply andb_prop in Hd; apply Hd).
  unfold classify.
  assert (ulMatch (numbered (d :: n) x) = None) as U.
  { unfold ulMatch, re_ul.
    change (seq [Bol; Cls (fun c => N.eqb c 45 || N.eqb c 42); plus is_space;
                 Grp 1 (plus is_dot); Eol])
      with (Seq Bol (Seq (Cls (fun c => N.eqb c 45 || N.eqb c 42))
                       (Seq (plus is_space) (Seq (Grp 1 (plus is_dot)) Eol)))).
    rewrite str_match_anchored. unfold match_here, numbered.
    cbn [app]. rewrite rmatch_seq_bol, rmatch_seq_cls.
    assert (N.eqb d 45 || N.eqb d 42 = false) as E.
    { unfold is_digit in Hd0. apply in_range_spec in Hd0.
      apply orb_false_iff. split; apply N.eqb_neq; lia. }
    rewrite E. reflexivity. }
  rewrite U. unfold olMatch, re_ol.
  change (seq [Bol; plus is_digit; Chr 46%N; plus is_space; Grp 1 (plus is_dot); Eol])
    with (Seq Bol (Seq (plus is_digit)
                     (Seq (Chr 46%N)
                        (Seq (plus is_space) (Seq (Grp 1 (plus is_dot)) Eol))))).
  rewrite str_match_anchored. unfold match_here, numbered.
  rewrite rmatch_seq_bol. unfold plus at 1. rewrite rmatch_seq_rep.
  match goal with
  | |- context [rep is_digit true 1 None ?s ?k] =>
      assert (rep is_digit true 1 None s k = Some (@nil cu, [(1, x)])) as R
  end.
  { apply rep_greedy_stop.
    - reflexivity.
    - exact Hd.
    - cbn [length]. lia.
    - change (js ". " ++ x) with (46%N :: 32%N :: x). rewrite rmatch_seq_chr.
      change (chr_eq fl_g 46%N 46%N) with true. cbv iota.
      exact (match_item_end _ x [] Hx). }
  rewrite R. reflexivity.
Qed.

Lemma split_on_line : forall (l : jsstring) cur s,
  forallb is_dot l = true ->
  split_on nl cur (l ++ s) = split_on nl (cur ++ l) s.
Proof.
  induction l as [| c l IH]; intros cur s H.
  - rewrite app_nil_r. reflexivity.
  - cbn [forallb] in H. apply andb_prop in H. destruct H as [Hc Hl].
    cbn [app split_on].
    assert (N.eqb c nl = false) as E.
    { destruct (N.eqb_spec c nl); [subst; discriminate | reflexivity]. }
    rewrite E, (IH _ _ Hl), <- app_assoc. reflexivity.
Qed.

(** Splitting lines joined with line feeds gives the lines back. *)
Lemma split_join_lines : forall lines : list jsstring,
  lines <> [] ->
  forallb (forallb is_dot) lines = true ->
  split_char nl (join [nl] lines) = lines.
Proof.
  unfold split_char.
  induction lines as [| l lines IH]; intros Hn H; [congruence |].
  cbn [forallb] in H. apply andb_prop in H. destruct H as [Hl H].
  destruct lines as [| l2 lines].
  - cbn [join]. rewrite <- (app_nil_r l) at 1. rewrite split_on_line by exact Hl.
    reflexivity.
  - rewrite join_cons2, split_on_line by exact Hl.
    cbn [app split_on]. rewrite N.eqb_refl. cbn [app].
    rewrite IH; [reflexivity | discriminate | exact H].
Qed.

Lemma blocks_items t : forall xs,
  xs <> [] -> blocks (map (Item t) xs) = [BList t xs].
Proof.
  induction xs as [| x xs IH]; intros H; [congruence |].
  cbn [map blocks]. destruct xs as [| y xs]; [reflexivity |].
  rewrite IH by discriminate. rewrite ListType_eqb_refl. reflexivity.
Qed.

Lemma item_text_dots x : item_text x = true -> forallb is_dot x = true.
Proof. intros H. apply (item_text_spec x H). Qed.

(** X4: lines that each hold a hyphen or an asterisk, a space and a
    text become one unordered list with one item per line, in the order
    of the lines; hyphens and asterisks may alternate within the list. *)
Theorem bullets_make_one_list (items : list (cu * jsstring)) :
  items <> [] ->
  forallb (fun mx => is_bullet (fst mx) && item_text (snd mx)) items = true ->
  parseLists (join [nl] (map (fun mx => bullet (fst mx) (snd mx)) items))
  = join [nl] (js "<ul>" :: map (fun mx => li (snd mx)) items ++ [js "</ul>"]).
Proof.
  intros Hn H. rewrite parseLists_refines. unfold lists_spec.
  rewrite forallb_forall in H.
  rewrite split_join_lines.
  - rewrite map_map.
    rewrite (map_ext_in _ (fun mx => Item UL (snd mx))).
    + rewrite <- (map_map snd (Item UL)), blocks_items.
      * cbn [map concat render type_name]. rewrite app_nil_r, map_map. reflexivity.
      * destruct items; [congruence | discriminate].
    + intros mx Hmx. specialize (H mx Hmx). apply andb_prop in H.
      apply classify_bullet; apply H.
  - destruct items; [congruence | discriminate].
  - apply forallb_forall. intros l Hl. apply in_map_iff in Hl.
    destruct Hl as (mx & <- & Hmx). specialize (H mx Hmx). apply andb_prop in H.
    destruct H as [Hm Hx]. unfold bullet. cbn [forallb].
    rewrite (item_text_dots _ Hx), andb_true_r.
    unfold is_bullet in Hm. apply orb_prop in Hm.
    destruct Hm as [Hm | Hm]; apply N.eqb_eq in Hm; rewrite Hm; reflexivity.
Qed.

(** X5: lines that each hold a number, a full stop, a space and a text
    become one ordered list with one item per line; the numbers written in
    the lines are dropped, so that the list is numbered anew from one
    whatever they were. *)
Theorem numbered_lines_lose_numbers (items : list (jsstring * jsstring)) :
  items <> [] ->
  forallb (fun nx => is_number (fst nx) && item_text (snd nx)) items = true ->
  parseLists (join [nl] (map (fun nx => numbered (fst nx) (snd nx)) items))
  = join [nl] (js "<ol>" :: map (fun nx => li (snd nx)) items ++ [js "</ol>"]).
Proof.
  intros Hn H. rewrite parseLists_refines. unfold lists_spec.
  rewrite forallb_forall in H.
  rewrite split_join_lines.
  - rewrite map_map.
    rewrite (map_ext_in _ (fun nx => Item OL (snd nx))).
    + rewrite <- (map_map snd (Item OL)), blocks_items.
      * cbn [map concat render type_name]. rewrite app_nil_r, map_map. reflexivity.
      * destruct items; [congruence | discriminate].
    + intros nx Hnx. specialize (H nx Hnx). apply andb_prop in H.
      apply classify_numbered; apply H.
  - destruct items; [congruence | discriminate].
  - apply forallb_forall. intros l Hl. apply in_map_iff in Hl.
    destruct Hl as (nx & <- & Hnx). specialize (H nx Hnx). apply andb_prop in H.
    destruct H as [Hm Hx]. unfold numbered. rewrite !forallb_app.
    rewrite (item_text_dots _ Hx).
    change (forallb is_dot (js ". ")) with true. cbn [andb]. rewrite andb_true_r.
    unfold is_number in Hm. apply andb_prop in Hm. destruct Hm as [Hd _].
    clear - Hd.
    induction (fst nx) as [| d n IH]; [reflexivity |].
    cbn [forallb] in *. apply andb_prop in Hd. destruct Hd as [Hd Hn].
    rewrite (IH Hn), andb_true_r.
    unfold is_digit in Hd. apply in_range_spec in Hd. unfold is_dot, is_line_terminator.
    repeat (rewrite (proj2 (N.eqb_neq d _)) by lia). reflexivity.
Qed.

End ListItems.

(** ** More on the paragraph pass *)

Section Wrapping.

Lemma tidy_spec b :
  tidy_block b = true ->
  b <> [] /\ trim b = b /\ no_blank b = true
  /\ match b with y :: _ => N.eqb y nl = false | [] => False end
  /\ match rev b with y :: _ => N.eqb y nl = false | [] => True end.
Proof.
  unfold tidy_block. intros H. apply andb_prop in H. destruct H as [H Hb].
  apply andb_prop in H. destruct H as [Hn Ht]. apply str_eqb_eq in Ht.
  destruct (trim_fixed_ends b Ht) as [H1 H2].
  assert (forall y, is_space y = false -> N.eqb y nl = false) as Hs.
  { intros y Hy. destruct (N.eqb_spec y nl); [subst; discriminate | reflexivity]. }
  repeat split; try assumption.
  - intros ->. discriminate.
  - destruct b; [discriminate | auto].
  - destruct (rev b); auto.
Qed.

Lemma take_while_run (k : nat) (rest : jsstring) :
  match rest with y :: _ => N.eqb y nl = false | [] => True end ->
  take_while (N.eqb nl) (repeat nl k ++ rest) = repeat nl k
  /\ drop_while (N.eqb nl) (repeat nl k ++ rest) = rest.
Proof.
  intros H. induction k as [| k [IH1 IH2]].
  - cbn [repeat app]. destruct rest as [| y rest]; [split; reflexivity |].
    cbn [take_while drop_while]. rewrite N.eqb_sym, H. split; reflexivity.
  - cbn [repeat app take_while drop_while]. rewrite N.eqb_refl, IH1, IH2.
    split; reflexivity.
Qed.

(** A run of two or more line feeds is one separator. *)
Lemma match_blank_run prev k rest :
  match rest with y :: _ => N.eqb y nl = false | [] => True end ->
  match_here fl_g re_blank prev (repeat nl (2 + k) ++ rest) = Some (rest, []).
Proof.
  intros H. unfold match_here, re_blank, plus.
  cbn [repeat Nat.add app rmatch chr_eq icase fl_g]. rewrite N.eqb_refl.
  rewrite (rep_greedy_total (N.eqb nl) [] (nl :: repeat nl k ++ rest) 1 (Some nl)).
  cbn [take_while drop_while]. rewrite N.eqb_refl.
  destruct (take_while_run k rest H) as [-> ->]. reflexivity.
Qed.

Lemma split_from_skip fl r : forall (u : jsstring) prev cur s,
  split_from fl r (length u) prev cur (u ++ s)
  = match s with
    | [] => [cur]
    | _ :: _ => split_from fl r 0 (last_prev prev u) cur s
    end.
Proof.
  induction u as [| x u IH]; intros prev cur s.
  - cbn [length app last_prev fold_left]. destruct s; reflexivity.
  - cbn [length app split_from]. rewrite IH. reflexivity.
Qed.

Lemma glue_first b rest :
  match b with y :: _ => N.eqb y nl = false | [] => False end ->
  match glue b rest with y :: _ => N.eqb y nl = false | [] => False end.
Proof.
  destruct b as [| y b]; [contradiction |].
  destruct rest as [| [k b'] rest]; intros H; exact H.
Qed.

Lemma split_glue : forall rest b prev,
  tidy_block b = true ->
  forallb (fun kb => tidy_block (snd kb)) rest = true ->
  split_from fl_g re_blank 0 prev [] (glue b rest) = b :: map snd rest.
Proof.
  induction rest as [| [k b'] rest IH]; intros b prev Hb Hr.
  - destruct (tidy_spec b Hb) as (_ & _ & Hnb & _ & Hl).
    cbn [glue map]. rewrite <- (app_nil_r b) at 1.
    rewrite (split_misses fl_g re_blank b prev [] [] (block_misses [] b prev Hnb Hl)).
    reflexivity.
  - destruct (tidy_spec b Hb) as (_ & _ & Hnb & _ & Hl).
    cbn [forallb snd] in Hr. apply andb_prop in Hr. destruct Hr as [Hb' Hr].
    destruct (tidy_spec b' Hb') as (_ & _ & _ & Hf' & _).
    pose proof (glue_first b' rest Hf') as Hg.
    cbn [glue map snd].
    rewrite (split_misses fl_g re_blank b prev [] _ (block_misses _ b prev Hnb Hl)).
    cbn [app].
    assert (match glue b' rest with y :: _ => N.eqb y nl = false | [] => True end) as Hg'.
    { destruct (glue b' rest); [exact I | exact Hg]. }
    pose proof (match_blank_run (last_prev prev b) k (glue b' rest) Hg') as M.
    change (repeat nl (2 + k) ++ glue b' rest)
      with (nl :: (nl :: repeat nl k) ++ glue b' rest) in *.
    cbn [split_from]. rewrite M.
    replace (length (nl :: (nl :: repeat nl k) ++ glue b' rest) - length (glue b' rest))
      with (S (length (nl :: repeat nl k))).
    2:{ cbn [length]. rewrite length_app. cbn [length]. lia. }
    rewrite split_from_skip.
    destruct (glue b' rest) as [| y g] eqn:G; [contradiction |].
    f_equal. rewrite <- G. apply IH; assumption.
Qed.

Lemma paragraph_tidy b : tidy_block b = true -> paragraph b = wrapped b.
Proof.
  intros H. destruct (tidy_spec b H) as (Hn & Ht & _).
  unfold paragraph, wrapped. rewrite Ht. destruct (is_block b); [reflexivity |].
  destruct b as [| x b]; [congruence |].
  unfold replace_all. rewrite replace_chr_map. reflexivity.
Qed.

(** X6: the paragraph pass on blocks that are separated by runs of two
    or more line feeds, none of them empty, with white space around it
    or with a blank line inside: a block that starts with a block-level
    tag is kept, any other block is put into one paragraph element and its
    line feeds become line-break elements; whatever the length of the
    runs between them, the results are separated by exactly two line
    feeds. *)
Theorem paragraphs_wrap_text (b : jsstring) (rest : list (nat * jsstring)) :
  tidy_block b = true ->
  forallb (fun kb => tidy_block (snd kb)) rest = true ->
  parseParagraphs (glue b rest) = join [nl; nl] (map wrapped (b :: map snd rest)).
Proof.
  intros Hb Hr. unfold parseParagraphs, split_re.
  destruct (tidy_spec b Hb) as (_ & _ & _ & Hf & _).
  pose proof (glue_first b rest Hf) as Hg.
  destruct (glue b rest) as [| y g] eqn:G; [contradiction |].
  rewrite <- G, (split_glue rest b None Hb Hr). f_equal.
  cbn [map]. rewrite (paragraph_tidy b Hb). f_equal.
  rewrite forallb_forall in Hr. rewrite !map_map. apply map_ext_in.
  intros kb Hkb. apply paragraph_tidy, Hr, Hkb.
Qed.

End Wrapping.

(** ** Soundness of the check with look-ahead *)

Section LookAhead.
Variables (fl : flags) (r : regex).

Lemma conc_la_misses la v : forall u prev,
  inert_conc_la fl r (at_bol fl prev) u la = true ->
  misses fl r prev u (la ++ v).
Proof.
  induction u as [| x u IH]; intros prev H; [exact I |].
  cbn [inert_conc_la] in H. apply andb_prop in H. destruct H as [H1 H2].
  split.
  - change (x :: u ++ la ++ v) with ((x :: u) ++ la ++ v). rewrite app_assoc.
    apply (cannot_match_sound _ fl r prev ((x :: u) ++ la) true v [] _ H1).
    discriminate.
  - apply IH. exact H2.
Qed.

Lemma segs_ok_la_weaken cls segs : segs_ok_la cls segs = true -> segs_ok cls segs = true.
Proof.
  induction segs as [| [u | u] segs IH]; cbn [segs_ok_la segs_ok forallb]; intros H.
  - reflexivity.
  - apply IH, H.
  - apply andb_prop in H. destruct H as [H1 H2]. apply andb_prop in H1.
    rewrite (proj1 H1). apply IH, H2.
Qed.

Lemma check_segs_la_sound cls :
  (forall x, cls x = true -> is_ascii x = true) ->
  forall segs prev,
    check_segs_la fl r cls (at_bol fl prev) segs = true ->
    segs_ok_la cls segs = true ->
    misses fl r prev (flatten segs) []
    /\ match_here fl r (last_prev prev (flatten segs)) [] = None.
Proof.
  intros Ha. induction segs as [| sg segs IH]; intros prev H Hok.
  - split; [exact I |].
    apply (cannot_match_sound _ fl r prev [] false [] [] _ H). reflexivity.
  - pose proof Hok as Hok0.
    cbn [segs_ok_la forallb] in Hok. apply andb_prop in Hok. destruct Hok as [Hsg Hok].
    unfold flatten. cbn [map concat]. fold (flatten segs).
    rewrite last_prev_app.
    destruct sg as [u | u]; cbn [check_segs_la seg_text] in *.
    + apply andb_prop in H. destruct H as [H1 H2].
      rewrite <- at_bol_last_prev in H2.
      destruct (IH _ H2 Hok) as [IH1 IH2]. split; [| exact IH2].
      apply misses_app; [| exact IH1].
      rewrite app_nil_r.
      destruct segs as [| [w | w] segs'].
      * apply (conc_misses fl r false _ _ _ H1). reflexivity.
      * apply (conc_misses fl r true _ _ _ H1). discriminate.
      * apply orb_prop in H1. destruct H1 as [H1 | H1].
        { apply (conc_misses fl r true _ _ _ H1). discriminate. }
        cbn [segs_ok_la forallb] in Hok. apply andb_prop in Hok.
        destruct Hok as [Hw _]. apply andb_prop in Hw. destruct Hw as [Hw Hne].
        destruct w as [| c w]; [discriminate |].
        cbn [forallb] in Hw. apply andb_prop in Hw. destruct Hw as [Hc _].
        unfold inert_before in H1. rewrite forallb_forall in H1.
        specialize (H1 c (in_ascii_units c (Ha c Hc))). rewrite Hc in H1.
        cbn [implb] in H1.
        unfold flatten. cbn [map concat seg_text].
        change ((c :: w) ++ concat (map seg_text segs'))
          with ([c] ++ (w ++ concat (map seg_text segs'))).
        apply conc_la_misses. exact H1.
    + apply andb_prop in H. destruct H as [H1 H3].
      apply andb_prop in H1. destruct H1 as [H1 H2].
      apply negb_true_iff in H1.
      apply andb_prop in Hsg. destruct Hsg as [Hsg _].
      destruct (sym_misses fl r cls (flatten segs) H2 Ha u prev Hsg H1) as [M B].
      rewrite <- B in H3.
      destruct (IH _ H3 Hok) as [IH1 IH2]. split; [| exact IH2].
      apply misses_app; [| exact IH1]. rewrite app_nil_r. exact M.
Qed.

(** A text that passes the check is left as it is by the pattern. *)
Lemma inert_text_la cls segs :
  (forall x, cls x = true -> is_ascii x = true) ->
  check_segs_la fl r cls true segs = true ->
  segs_ok_la cls segs = true ->
  (forall f, replace_all fl r f (flatten segs) = flatten segs)
  /\ str_match fl r (flatten segs) = None
  /\ split_re fl r (flatten segs) = [flatten segs].
Proof.
  intros Ha H Hok. destruct (check_segs_la_sound cls Ha segs None H Hok) as [M E].
  split; [| split].
  - intros f. unfold replace_all.
    rewrite <- (app_nil_r (flatten segs)) at 1.
    rewrite (replace_misses fl r f _ _ _ M). cbn [replace_from]. rewrite E.
    apply app_nil_r.
  - unfold str_match. rewrite <- (app_nil_r (flatten segs)).
    rewrite (search_misses fl r _ _ _ M). cbn [search]. rewrite E. reflexivity.
  - unfold split_re. destruct (flatten segs) as [| x s] eqn:F.
    + cbn [last_prev fold_left] in E. rewrite E. reflexivity.
    + rewrite <- (app_nil_r (x :: s)) at 1.
      rewrite (split_misses fl r _ None [] [] M). reflexivity.
Qed.

End LookAhead.

Lemma inert_replace_la fl r f segs :
  check_segs_la fl r plain_char true segs = true ->
  segs_ok_la plain_char segs = true ->
  replace_all fl r f (flatten segs) = flatten segs.
Proof.
  intros H Hok. apply (inert_text_la fl r plain_char segs plain_is_ascii H Hok).
Qed.

(** A text of one line that is no list line and holds no blank line
    passes the list pass unchanged; the paragraph pass keeps it when it
    starts with a block-level tag and wraps it otherwise. *)
Lemma line_inert segs :
  check_segs_la fl_g (Chr nl) plain_char true segs = true ->
  check_segs_la fl_g re_ul plain_char true segs = true ->
  check_segs_la fl_g re_ol plain_char true segs = true ->
  check_segs_la fl_g re_blank plain_char true segs = true ->
  segs_ok_la plain_char segs = true ->
  trim (flatten segs) = flatten segs ->
  flatten segs <> [] ->
  parseParagraphs (parseLists (flatten segs))
  = if is_block (flatten segs) then flatten segs
    else js "<p>" ++ flatten segs ++ js "</p>".
Proof.
  intros Hn Hu Ho Hb Hok Ht Hne.
  pose proof (inert_text_la fl_g (Chr nl) plain_char segs plain_is_ascii Hn Hok) as [RN _].
  assert (parseLists (flatten segs) = flatten segs) as HL.
  { assert (split_char nl (flatten segs) = [flatten segs]) as HS.
    { destruct (check_segs_la_sound fl_g (Chr nl) plain_char plain_is_ascii segs None Hn Hok)
        as [M _].
      unfold split_char. rewrite <- (app_nil_r (flatten segs)) at 1.
      rewrite (split_on_misses _ None [] [] M). reflexivity. }
    unfold parseLists. rewrite HS. cbn [list_scan fold_left].
    unfold list_line, ulMatch, olMatch.
    rewrite (proj1 (proj2 (inert_text_la fl_g re_ul plain_char segs plain_is_ascii Hu Hok))).
    rewrite (proj1 (proj2 (inert_text_la fl_g re_ol plain_char segs plain_is_ascii Ho Hok))).
    reflexivity. }
  rewrite HL. unfold parseParagraphs.
  rewrite (proj2 (proj2 (inert_text_la fl_g re_blank plain_char segs plain_is_ascii Hb Hok))).
  cbn [map join]. unfold paragraph. rewrite Ht.
  destruct (is_block (flatten segs)); [reflexivity |].
  destruct (flatten segs) as [| x s] eqn:F; [congruence |].
  rewrite RN. reflexivity.
Qed.

(** ** Inline markup, through the whole transformation *)

Section Inline.
Variable cfg : Config.

Lemma search_anchored_fl fl r : multiline fl = false ->
  forall s x, search fl (Seq Bol r) (Some x) s = None.
Proof.
  intros Hm. induction s as [| y s IH]; intros x; cbn [search]; unfold match_here;
    cbn [rmatch at_bol]; rewrite Hm; cbn [andb]; [reflexivity | apply IH].
Qed.

(** Whether a text is a block is decided at its first position. *)
Lemma is_block_head s :
  is_block s
  = match match_here fl_gi re_block_tag None s with Some _ => true | None => false end.
Proof.
  unfold is_block, str_match.
  change re_block_tag with
    (Seq Bol (seq [Chr 60%N;
       Grp 1 (alts [Seq (Chr 104%N) (Cls (in_range 49%N 54%N));
                    lit (js "ul"); lit (js "ol"); lit (js "li");
                    lit (js "blockquote"); lit (js "pre"); lit (js "div");
                    lit (js "figure"); lit (js "hr"); lit (js "table")])])).
  destruct s as [| x s]; cbn [search].
  - destruct (match_here fl_gi _ None []) as [[? ?] |]; reflexivity.
  - destruct (match_here fl_gi _ None (x :: s)) as [[? ?] |]; [reflexivity |].
    rewrite search_anchored_fl; reflexivity.
Qed.

Lemma nonempty_length (s : jsstring) : s <> [] -> negb (Nat.eqb (length s) 0) = true.
Proof. destruct s; [congruence | reflexivity]. Qed.

Ltac segs_ok_la_tac :=
  cbn [segs_ok_la forallb];
  repeat match goal with
         | H : forallb plain_char _ = true |- _ => rewrite H
         | H : negb (Nat.eqb (length _) 0) = true |- _ => rewrite H
         end;
  reflexivity.

Ltac inert_pass_la :=
  match goal with
  | |- context [replace_all ?fl ?r ?f (flatten ?segs)] =>
      rewrite (inert_replace_la fl r f segs) by
        first [ solve [vm_compute; reflexivity] | solve [segs_ok_la_tac] ]
  end.

Ltac open_pipeline :=
  unfold parseMarkdown, escape, parseCallouts, headers, emphasis, images,
    img_caption_pass, img_class_pass, img_plain_pass, links,
    code, blockquotes, rules;
  cbn [fold_left calloutTypes].

Ltac trim_la_tac :=
  apply trim_ends;
  [ reflexivity
  | unfold flatten; cbn [map concat seg_text]; rewrite !rev_app_distr; reflexivity ].

(** The list and paragraph passes at the end of the pipeline, on a text
    of one line. *)
Ltac close_pipeline :=
  rewrite line_inert;
  [ rewrite is_block_head;
    match goal with
    | |- context [match_here fl_gi re_block_tag None ?s] =>
        let v := eval vm_compute in
          (match match_here fl_gi re_block_tag None s with
           | Some _ => true | None => false end) in
        change (match match_here fl_gi re_block_tag None s with
                | Some _ => true | None => false end) with v
    end;
    cbv iota
  | solve [vm_compute; reflexivity] | solve [vm_compute; reflexivity]
  | solve [vm_compute; reflexivity] | solve [vm_compute; reflexivity]
  | solve [segs_ok_la_tac] | solve [trim_la_tac]
  | unfold flatten; cbn [map concat seg_text]; discriminate ].

Lemma delim_no_empty d prev : d <> [] -> match_here fl_g (re_delim d) prev [] = None.
Proof.
  intros H. destruct d as [| c d]; [congruence |].
  unfold match_here, re_delim. apply lits_nil_miss.
Qed.

Lemma rmatch_lit_end (A : Type) fl u prev caps
    (k : option cu -> jsstring -> captures -> option A) :
  rmatch fl (seq (lits u)) prev u caps k = k (last_prev prev u) [] caps.
Proof.
  pose proof (rmatch_lits fl A u [] prev [] caps k) as H.
  rewrite !app_nil_r in H. exact H.
Qed.

(** A text between two delimiters that holds no character the delimiter
    starts with. *)
Lemma match_delim c d T :
  T <> [] ->
  forallb is_dot T = true ->
  (forall x, In x T -> N.eqb c x = false) ->
  match_here fl_g (re_delim (c :: d)) None ((c :: d) ++ T ++ c :: d) = Some ([], [(1, T)]).
Proof.
  intros Hn Hd Hc. unfold match_here, re_delim.
  rewrite rmatch_lits. rewrite seq_cons by discriminate.
  cbn [rmatch plus_lazy].
  apply rep_lazy_plus_all; [exact Hn | exact Hd | |].
  - intros x s prev' Hx.
    rewrite <- (app_nil_r (lits (c :: d))). apply lits_first_miss. apply (Hc x Hx).
  - rewrite firstn_consumed. rewrite rmatch_lit_end. reflexivity.
Qed.

Lemma delim_pass d T f :
  T <> [] ->
  forallb plain_char T = true ->
  match d with c :: _ => plain_char c = false | [] => False end ->
  replace_all fl_g (re_delim d) f (flatten [Conc d; Sym T; Conc d]) = f [(1, T)].
Proof.
  intros Hn HT Hc. destruct d as [| c d]; [contradiction |].
  apply replace_whole.
  - discriminate.
  - unfold flatten. cbn [map concat seg_text]. rewrite app_nil_r.
    apply match_delim; [exact Hn | apply plain_dot, HT |].
    intros x Hx. rewrite forallb_forall in HT. apply plain_not; auto.
  - intros prev. apply delim_no_empty. discriminate.
Qed.

Ltac emphasis_case d op cl :=
  match goal with
  | |- parseMarkdown _ (?a ++ ?T ++ ?b) = _ =>
      replace (a ++ T ++ b) with (flatten [Conc d; Sym T; Conc d])
        by (unfold flatten; cbn [map concat seg_text]; rewrite app_nil_r; reflexivity)
  end;
  open_pipeline;
  repeat inert_pass_la;
  rewrite delim_pass by (assumption || reflexivity);
  match goal with
  | |- context [flatten ?s] => fail 1
  | |- _ => idtac
  end;
  match goal with
  | H : forallb plain_char ?T = true |- _ =>
      change (strong_em (cap [(1, T)] 1)) with (flatten [Conc op; Sym T; Conc cl]) ||
      change (tag (js "strong") (cap [(1, T)] 1)) with (flatten [Conc op; Sym T; Conc cl]) ||
      change (tag (js "em") (cap [(1, T)] 1)) with (flatten [Conc op; Sym T; Conc cl])
  end;
  repeat inert_pass_la;
  close_pipeline;
  unfold flatten; cbn [map concat seg_text]; rewrite ?app_nil_r;
  repeat (rewrite <- ?app_assoc; cbn [app]); reflexivity.

(** X7: a plain text between asterisks or underscores.  One delimiter
    gives an emphasis element, two give a strong element, three give both,
    and the paragraph pass puts the result into a paragraph. *)
Theorem emphasis_forms (T : jsstring) :
  T <> [] ->
  forallb plain_char T = true ->
  parseMarkdown cfg (js "*" ++ T ++ js "*") = js "<p><em>" ++ T ++ js "</em></p>"
  /\ parseMarkdown cfg (js "**" ++ T ++ js "**")
     = js "<p><strong>" ++ T ++ js "</strong></p>"
  /\ parseMarkdown cfg (js "***" ++ T ++ js "***")
     = js "<p><strong><em>" ++ T ++ js "</em></strong></p>"
  /\ parseMarkdown cfg (js "_" ++ T ++ js "_") = js "<p><em>" ++ T ++ js "</em></p>"
  /\ parseMarkdown cfg (js "__" ++ T ++ js "__")
     = js "<p><strong>" ++ T ++ js "</strong></p>"
  /\ parseMarkdown cfg (js "___" ++ T ++ js "___")
     = js "<p><strong><em>" ++ T ++ js "</em></strong></p>".
Proof.
  intros Hn HT. pose proof (nonempty_length T Hn) as HL.
  repeat split.
  - emphasis_case (js "*") (js "<em>") (js "</em>").
  - emphasis_case (js "**") (js "<strong>") (js "</strong>").
  - emphasis_case (js "***") (js "<strong><em>") (js "</em></strong>").
  - emphasis_case (js "_") (js "<em>") (js "</em>").
  - emphasis_case (js "__") (js "<strong>") (js "</strong>").
  - emphasis_case (js "___") (js "<strong><em>") (js "</em></strong>").
Qed.

Lemma rmatch_seq_grp_rep (A : Type) fl i p min g r prev s caps
    (k : option cu -> jsstring -> captures -> option A) :
  rmatch fl (Seq (Grp i (Rep p min g)) r) prev s caps k
  = rep p g min prev s
      (fun prev' s' =>
         rmatch fl r prev' s' ((i, firstn (length s - length s') s) :: caps) k).
Proof. reflexivity. Qed.

Lemma rmatch_grp_rep (A : Type) fl i p min g prev s caps
    (k : option cu -> jsstring -> captures -> option A) :
  rmatch fl (Grp i (Rep p min g)) prev s caps k
  = rep p g min prev s
      (fun prev' s' => k prev' s' ((i, firstn (length s - length s') s) :: caps)).
Proof. reflexivity. Qed.

Lemma link_text_spec t :
  link_text t = true ->
  forallb plain_char t = true /\ forallb (is_not 93%N) t = true /\ t <> []
  /\ negb (Nat.eqb (length t) 0) = true.
Proof.
  unfold link_text. intros H. apply andb_prop in H. destruct H as [H H3].
  apply andb_prop in H. destruct H as [H1 H2]. repeat split; try assumption.
  intros ->. discriminate.
Qed.

Lemma link_target_spec u :
  link_target u = true ->
  forallb plain_char u = true /\ forallb (is_not 41%N) u = true /\ u <> []
  /\ negb (Nat.eqb (length u) 0) = true.
Proof.
  unfold link_target. intros H. apply andb_prop in H. destruct H as [H H3].
  apply andb_prop in H. destruct H as [H1 H2]. repeat split; try assumption.
  intros ->. discriminate.
Qed.

Lemma nonempty_le (s : jsstring) : s <> [] -> 1 <= length s.
Proof. destruct s; [congruence | cbn; lia]. Qed.

Lemma match_link t u :
  t <> [] -> forallb (is_not 93%N) t = true ->
  u <> [] -> forallb (is_not 41%N) u = true ->
  match_here fl_g re_link None (js "[" ++ t ++ js "](" ++ u ++ js ")")
  = Some ([], [(2, u); (1, t)]).
Proof.
  intros Ht1 Ht2 Hu1 Hu2. unfold match_here, re_link.
  change (js "[" ++ t ++ js "](" ++ u ++ js ")") with (91%N :: t ++ js "](" ++ u ++ js ")").
  rewrite seq_cons by discriminate. rewrite rmatch_seq_chr.
  change (chr_eq fl_g 91%N 91%N) with true. cbv iota.
  rewrite seq_cons by discriminate. unfold plus at 1. rewrite rmatch_seq_grp_rep.
  apply rep_greedy_stop; [reflexivity | exact Ht2 | apply nonempty_le, Ht1 |].
  rewrite firstn_consumed, rmatch_lits.
  change (seq [Grp 2 (plus (is_not 41%N)); Chr 41%N])
    with (Seq (Grp 2 (Rep (is_not 41%N) 1 true)) (Chr 41%N)).
  rewrite rmatch_seq_grp_rep.
  apply rep_greedy_stop; [reflexivity | exact Hu2 | apply nonempty_le, Hu1 |].
  rewrite firstn_consumed. reflexivity.
Qed.

Lemma link_pass t u f :
  link_text t = true -> link_target u = true ->
  replace_all fl_g re_link f
    (flatten [Conc (js "["); Sym t; Conc (js "]("); Sym u; Conc (js ")")])
  = f [(2, u); (1, t)].
Proof.
  intros Ht Hu. destruct (link_text_spec t Ht) as (_ & T2 & T3 & _).
  destruct (link_target_spec u Hu) as (_ & U2 & U3 & _).
  apply replace_whole.
  - discriminate.
  - unfold flatten. cbn [map concat seg_text]. rewrite app_nil_r.
    apply match_link; assumption.
  - apply no_empty_match; reflexivity.
Qed.

(** X8: a link whose text and target are plain: the brackets hold the
    text, the parentheses hold the target, the result is an anchor
    element inside a paragraph. *)
Theorem link_becomes_anchor (t u : jsstring) :
  link_text t = true ->
  link_target u = true ->
  parseMarkdown cfg (js "[" ++ t ++ js "](" ++ u ++ js ")")
  = js "<p><a href='" ++ u ++ js "'>" ++ t ++ js "</a></p>".
Proof.
  intros Ht Hu.
  destruct (link_text_spec t Ht) as (T1 & _ & _ & T4).
  destruct (link_target_spec u Hu) as (U1 & _ & _ & U4).
  replace (js "[" ++ t ++ js "](" ++ u ++ js ")")
    with (flatten [Conc (js "["); Sym t; Conc (js "]("); Sym u; Conc (js ")")])
    by (unfold flatten; cbn [map concat seg_text]; rewrite app_nil_r; reflexivity).
  open_pipeline. repeat inert_pass_la.
  rewrite link_pass by assumption.
  change (js "<a href='" ++ cap [(2, u); (1, t)] 2 ++ js "'>" ++ cap [(2, u); (1, t)] 1
          ++ js "</a>")
    with (flatten [Conc (js "<a href='"); Sym u; Conc (js "'>"); Sym t; Conc (js "</a>")]).
  repeat inert_pass_la.
  close_pipeline.
  unfold flatten; cbn [map concat seg_text]; rewrite ?app_nil_r;
  repeat (rewrite <- ?app_assoc; cbn [app]); reflexivity.
Qed.

Lemma match_inline_code T :
  T <> [] -> forallb (is_not backquote) T = true ->
  match_here fl_g re_code None (js "`" ++ T ++ js "`") = Some ([], [(1, T)]).
Proof.
  intros Hn HT. unfold match_here, re_code.
  change (js "`" ++ T ++ js "`") with (96%N :: T ++ js "`").
  change (seq [Chr 96%N; Grp 1 (plus (is_not 96%N)); Chr 96%N])
    with (Seq (Chr 96%N) (Seq (Grp 1 (Rep (is_not 96%N) 1 true)) (Chr 96%N))).
  rewrite rmatch_seq_chr. change (chr_eq fl_g 96%N 96%N) with true. cbv iota.
  rewrite rmatch_seq_grp_rep.
  apply rep_greedy_stop; [reflexivity | exact HT | apply nonempty_le, Hn |].
  rewrite firstn_consumed. reflexivity.
Qed.

Lemma plain_no_backquote T : forallb plain_char T = true -> forallb (is_not backquote) T = true.
Proof.
  intros H. rewrite forallb_forall in *. intros x Hx. specialize (H x Hx).
  unfold is_not. rewrite N.eqb_sym. rewrite (plain_not backquote x eq_refl H). reflexivity.
Qed.

(** X9: a plain text between backquotes becomes a code element inside
    a paragraph. *)
Theorem backquotes_make_code (T : jsstring) :
  T <> [] ->
  forallb plain_char T = true ->
  parseMarkdown cfg (js "`" ++ T ++ js "`") = js "<p><code>" ++ T ++ js "</code></p>".
Proof.
  intros Hn HT. pose proof (nonempty_length T Hn) as HL.
  replace (js "`" ++ T ++ js "`")
    with (flatten [Conc (js "`"); Sym T; Conc (js "`")])
    by (unfold flatten; cbn [map concat seg_text]; rewrite app_nil_r; reflexivity).
  open_pipeline. repeat inert_pass_la.
  rewrite (replace_whole fl_g re_code _ _ [(1, T)]).
  - change (tag (js "code") (cap [(1, T)] 1))
      with (flatten [Conc (js "<code>"); Sym T; Conc (js "</code>")]).
    repeat inert_pass_la.
    close_pipeline.
    unfold flatten; cbn [map concat seg_text]; rewrite ?app_nil_r;
    repeat (rewrite <- ?app_assoc; cbn [app]); reflexivity.
  - discriminate.
  - unfold flatten. cbn [map concat seg_text]. rewrite app_nil_r.
    apply match_inline_code; [exact Hn | apply plain_no_backquote, HT].
  - apply no_empty_match; reflexivity.
Qed.

(** A line made of a marker, a space and a text. *)
Lemma match_marked_line pre T :
  forallb is_dot T = true ->
  match T with c :: _ => is_space c = false | [] => False end ->
  match_here fl_gm (seq (Bol :: lits pre ++ [plus is_space; Grp 1 (plus is_dot); Eol]))
    None (pre ++ 32%N :: T)
  = Some ([], [(1, T)]).
Proof.
  intros Hd Hs. unfold match_here.
  rewrite seq_cons by (destruct (lits pre); discriminate).
  cbn [rmatch at_bol]. rewrite rmatch_lits.
  cbn [seq rmatch plus].
  apply (rep_greedy_stop _ is_space _ T _ ) with (u := [32%N]).
  - destruct T; [contradiction | exact Hs].
  - reflexivity.
  - cbn; lia.
  - destruct T as [| c T']; [contradiction |].
    apply rep_greedy_all; [exact Hd | cbn; lia |].
    cbn [rmatch at_eol]. rewrite Nat.sub_0_r, firstn_all. reflexivity.
Qed.

Lemma entity_plain T : forallb plain_char T = true -> flat_map entity T = T.
Proof.
  induction T as [| c T IH]; [reflexivity |]. cbn [forallb flat_map]. intros H.
  apply andb_prop in H. destruct H as [Hc HT]. rewrite (IH HT).
  unfold entity.
  rewrite (N.eqb_sym c 38), (plain_not 38%N c eq_refl Hc).
  rewrite (N.eqb_sym c 60), (plain_not 60%N c eq_refl Hc).
  rewrite (N.eqb_sym c 62), (plain_not 62%N c eq_refl Hc). reflexivity.
Qed.

Lemma starts_plain_spec T :
  starts_plain T = true ->
  T <> [] /\ match T with c :: _ => is_space c = false | [] => False end.
Proof.
  destruct T as [| c T]; [discriminate |]. cbn [starts_plain]. intros H.
  split; [discriminate | apply negb_true_iff, H].
Qed.

(** X10: a line that holds a closing angle bracket, a space and a plain
    text becomes a quotation element; the bracket is first escaped, and
    the pattern of the quotation looks for the escaped form. *)
Theorem quote_line (T : jsstring) :
  forallb plain_char T = true ->
  starts_plain T = true ->
  parseMarkdown cfg (js "> " ++ T) = js "<blockquote>" ++ T ++ js "</blockquote>".
Proof.
  intros HT Hs. destruct (starts_plain_spec T Hs) as [Hn Hsp].
  pose proof (nonempty_length T Hn) as HL.
  unfold parseMarkdown. rewrite escape_flat_map, flat_map_app, (entity_plain T HT).
  change (flat_map entity (js "> ")) with (js "&gt; ").
  replace (js "&gt; " ++ T) with (flatten [Conc (js "&gt; "); Sym T])
    by (unfold flatten; cbn [map concat seg_text]; rewrite app_nil_r; reflexivity).
  open_pipeline. repeat inert_pass_la.
  rewrite (replace_whole fl_gm re_quote _ _ [(1, T)]).
  - change (tag (js "blockquote") (cap [(1, T)] 1))
      with (flatten [Conc (js "<blockquote>"); Sym T; Conc (js "</blockquote>")]).
    repeat inert_pass_la.
    close_pipeline.
    unfold flatten; cbn [map concat seg_text]; rewrite ?app_nil_r;
    repeat (rewrite <- ?app_assoc; cbn [app]); reflexivity.
  - discriminate.
  - unfold flatten. cbn [map concat seg_text]. rewrite app_nil_r.
    change (js "&gt; " ++ T) with (js "&gt;" ++ 32%N :: T).
    apply (match_marked_line (js "&gt;")); [apply plain_dot, HT | exact Hsp].
  - apply no_empty_match; reflexivity.
Qed.

Lemma repeat_plain c n : plain_char c = true -> forallb plain_char (repeat c n) = true.
Proof.
  intros H. induction n as [| n IH]; [reflexivity |]. cbn [repeat forallb].
  rewrite H, IH. reflexivity.
Qed.

Lemma match_rule n :
  match_here fl_gm (re_rule 45%N) None (repeat 45%N (3 + n)) = Some ([], []).
Proof.
  unfold match_here, re_rule.
  cbn [seq rmatch at_bol repeat Nat.add chr_eq fl_gm icase plus].
  change (N.eqb 45 45) with true. cbv iota.
  apply rep_greedy_all.
  - cbn [forallb]. change (N.eqb 45 45) with true. cbn [andb].
    induction n as [| n IH]; [reflexivity |]. cbn [repeat forallb].
    change (N.eqb 45 45) with true. exact IH.
  - cbn [length]. lia.
  - reflexivity.
Qed.

(** X11: a line of three or more hyphens becomes a rule element,
    however many hyphens it holds. *)
Theorem hyphens_make_rule (n : nat) :
  parseMarkdown cfg (repeat 45%N (3 + n)) = js "<hr>".
Proof.
  unfold parseMarkdown.
  assert (forallb plain_char (repeat 45%N (3 + n)) = true) as HP
    by (apply repeat_plain; reflexivity).
  rewrite escape_flat_map, (entity_plain _ HP).
  destruct n as [| n].
  { vm_compute. reflexivity. }
  assert (forallb plain_char (repeat 45%N (S n)) = true) as HT
    by (apply repeat_plain; reflexivity).
  assert (negb (Nat.eqb (length (repeat 45%N (S n))) 0) = true) as HL by reflexivity.
  replace (repeat 45%N (3 + S n))
    with (flatten [Conc (js "---"); Sym (repeat 45%N (S n))])
    by (unfold flatten; cbn [map concat seg_text]; rewrite app_nil_r; reflexivity).
  open_pipeline. repeat inert_pass_la.
  rewrite (replace_whole fl_gm (re_rule 45%N) _ _ []).
  - vm_compute. reflexivity.
  - discriminate.
  - unfold flatten. cbn [map concat seg_text]. rewrite app_nil_r.
    apply (match_rule (S n)).
  - apply no_empty_match; reflexivity.
Qed.

Lemma ends_plain_spec T :
  ends_plain T = true ->
  match rev T with c :: _ => is_space c = false | [] => False end.
Proof.
  unfold ends_plain. destruct (rev T); [discriminate |]. intros H.
  apply negb_true_iff, H.
Qed.

(** X12: a line that starts with seven number signs is no heading,
    whatever plain text follows them (more number signs, a space, a
    title): the transformer knows six levels, and the line is wrapped as
    ordinary text. *)
Theorem seven_hashes_no_heading (R : jsstring) :
  forallb plain_char R = true ->
  ends_plain R = true ->
  parseMarkdown cfg (hashes 7 ++ R) = js "<p>" ++ hashes 7 ++ R ++ js "</p>".
Proof.
  intros HR He. pose proof (ends_plain_spec R He) as Hl.
  assert (negb (Nat.eqb (length R) 0) = true) as HL.
  { destruct R; [discriminate | reflexivity]. }
  assert (hashes 7 ++ R = flatten [Conc (hashes 7); Sym R]) as E.
  { unfold flatten. cbn [map concat seg_text]. rewrite app_nil_r. reflexivity. }
  rewrite !E.
  unfold parseMarkdown.
  rewrite escape_flat_map.
  assert (flat_map entity (flatten [Conc (hashes 7); Sym R]) = flatten [Conc (hashes 7); Sym R]) as EE.
  { unfold flatten. cbn [map concat seg_text]. rewrite !flat_map_app, (entity_plain R HR).
    reflexivity. }
  rewrite EE.
  open_pipeline. repeat inert_pass_la.
  rewrite line_inert.
  - rewrite is_block_head. rewrite <- E. reflexivity.
  - vm_compute; reflexivity.
  - vm_compute; reflexivity.
  - vm_compute; reflexivity.
  - vm_compute; reflexivity.
  - segs_ok_la_tac.
  - apply trim_ends; [reflexivity |].
    rewrite <- E, rev_app_distr. destruct (rev R); [contradiction | exact Hl].
  - discriminate.
Qed.

(** *** Images *)

(** A pattern that holds a literal character finds nothing in a text
    without that character. *)
Lemma seq_needs_char (A : Type) fl c : forall l1 l2 prev s caps
    (k : option cu -> jsstring -> captures -> option A),
  forallb (fun x => negb (chr_eq fl c x)) s = true ->
  rmatch fl (seq (l1 ++ Chr c :: l2)) prev s caps k = None.
Proof.
  induction l1 as [| r l1 IH]; intros l2 prev s caps k H.
  - cbn [app]. destruct s as [| x s].
    + destruct l2; reflexivity.
    + cbn [forallb] in H. apply andb_prop in H. destruct H as [H _].
      apply negb_true_iff in H. destruct l2; cbn [seq rmatch]; rewrite H; reflexivity.
  - change ((r :: l1) ++ Chr c :: l2) with (r :: (l1 ++ Chr c :: l2)).
    rewrite seq_cons by (destruct l1; discriminate). cbn [rmatch].
    apply (rmatch_none _ fl (fun t => forallb (fun x => negb (chr_eq fl c x)) t = true)).
    + intros x t Ht. cbn [forallb] in Ht. apply andb_prop in Ht. apply Ht.
    + intros prev' v caps' Hv. apply IH, Hv.
    + exact H.
Qed.

Lemma replace_never fl r f (Q : jsstring -> Prop) :
  (forall x s, Q (x :: s) -> Q s) ->
  (forall prev s, Q s -> match_here fl r prev s = None) ->
  forall s prev, Q s -> replace_from fl r f 0 prev s = s.
Proof.
  intros Ht Hm. induction s as [| x s IH]; intros prev HQ.
  - cbn [replace_from]. rewrite (Hm prev [] HQ). reflexivity.
  - rewrite replace_from_miss by (apply Hm, HQ).
    rewrite (IH _ (Ht x s HQ)). reflexivity.
Qed.

Lemma without_char_inert fl c l1 l2 f s :
  forallb (fun x => negb (chr_eq fl c x)) s = true ->
  replace_all fl (seq (l1 ++ Chr c :: l2)) f s = s.
Proof.
  intros H. unfold replace_all.
  apply (replace_never fl _ f (fun t => forallb (fun x => negb (chr_eq fl c x)) t = true)).
  - intros x t Ht. cbn [forallb] in Ht. apply andb_prop in Ht. apply Ht.
  - intros prev t Ht. apply seq_needs_char, Ht.
  - exact H.
Qed.

Lemma forallb_pointwise (p q : cu -> bool) s :
  (forall x, p x = q x) -> forallb p s = forallb q s.
Proof.
  intros H. induction s as [| x s IH]; [reflexivity |]. cbn [forallb].
  rewrite H, IH. reflexivity.
Qed.

(** The captioned form needs a double quote. *)
Lemma caption_needs_quote f s :
  forallb (is_not 34%N) s = true ->
  replace_all fl_g re_img_caption f s = s.
Proof.
  intros H.
  change re_img_caption with
    (seq ((lits (js "![") ++ Grp 1 (star (is_not 93%N)) :: lits (js "](")
           ++ [Grp 2 (plus (fun c => is_not 41%N c && is_not 34%N c)); plus is_space])
          ++ Chr 34%N :: Grp 3 (plus (is_not 34%N)) :: lits (js "')"))).
  apply without_char_inert.
  rewrite <- H. apply forallb_pointwise.
  intros x. unfold is_not, chr_eq. cbn [icase fl_g]. rewrite N.eqb_sym. reflexivity.
Qed.

(** The classed form needs an opening brace. *)
Lemma class_needs_brace f s :
  forallb (is_not 123%N) s = true ->
  replace_all fl_g re_img_class f s = s.
Proof.
  intros H.
  change re_img_class with
    (seq ((lits (js "![") ++ Grp 1 (star (is_not 93%N)) :: lits (js "](")
           ++ [Grp 2 (plus (is_not 41%N)); Chr 41%N])
          ++ Chr 123%N :: Chr 46%N :: [Grp 3 (plus (is_not 125%N)); Chr 125%N])).
  apply without_char_inert.
  rewrite <- H. apply forallb_pointwise.
  intros x. unfold is_not, chr_eq. cbn [icase fl_g]. rewrite N.eqb_sym. reflexivity.
Qed.

Lemma plain_without c T :
  plain_char c = false -> forallb plain_char T = true -> forallb (is_not c) T = true.
Proof.
  intros Hc H. rewrite forallb_forall in *. intros x Hx. specialize (H x Hx).
  unfold is_not. rewrite N.eqb_sym, (plain_not c x Hc H). reflexivity.
Qed.

Lemma image_alt_spec a :
  image_alt a = true ->
  forallb plain_char a = true /\ forallb (is_not 93%N) a = true
  /\ forallb (is_not 123%N) a = true.
Proof.
  unfold image_alt. intros H. apply andb_prop in H. destruct H as [H H3].
  apply andb_prop in H. destruct H as [H1 H2]. auto.
Qed.

Lemma image_src_spec p :
  image_src p = true ->
  forallb plain_char p = true /\ forallb (is_not 41%N) p = true /\ p <> []
  /\ forallb (is_not 123%N) p = true.
Proof.
  unfold image_src. intros H. apply andb_prop in H. destruct H as [H H3].
  destruct (link_target_spec p H) as (H1 & H2 & H4 & _). auto.
Qed.

Lemma image_class_spec x :
  image_class x = true ->
  forallb plain_char x = true /\ forallb (is_not 125%N) x = true /\ x <> []
  /\ negb (Nat.eqb (length x) 0) = true.
Proof.
  unfold image_class. intros H. apply andb_prop in H. destruct H as [H H3].
  apply andb_prop in H. destruct H as [H1 H2]. repeat split; try assumption.
  intros ->. discriminate.
Qed.

(** The head of the three image patterns, up to the source. *)
Lemma match_image_head (A : Type) rs a p v
    (k : option cu -> jsstring -> captures -> option A) res :
  forallb (is_not 93%N) a = true ->
  p <> [] -> forallb (is_not 41%N) p = true ->
  match v with x :: _ => is_not 41%N x = false | [] => True end ->
  rs <> [] ->
  rmatch fl_g (seq rs) (last_prev None (js "![" ++ a ++ js "](" ++ p)) v [(2, p); (1, a)] k
  = Some res ->
  rmatch fl_g (seq (lits (js "![") ++ Grp 1 (star (is_not 93%N)) :: lits (js "](")
                    ++ Grp 2 (plus (is_not 41%N)) :: rs))
    None (js "![" ++ a ++ js "](" ++ p ++ v) [] k
  = Some res.
Proof.
  intros Ha Hp1 Hp2 Hv Hrs Hk.
  rewrite rmatch_lits. rewrite seq_cons by discriminate.
  unfold star at 1. rewrite rmatch_seq_grp_rep.
  apply rep_greedy_stop; [reflexivity | exact Ha | lia |].
  rewrite firstn_consumed, rmatch_lits.
  rewrite seq_cons by exact Hrs. unfold plus at 1. rewrite rmatch_seq_grp_rep.
  apply rep_greedy_stop; [exact Hv | exact Hp2 | apply nonempty_le, Hp1 |].
  rewrite firstn_consumed.
  rewrite <- Hk. f_equal.
  rewrite !last_prev_app. reflexivity.
Qed.

Lemma match_image a p :
  forallb (is_not 93%N) a = true ->
  p <> [] -> forallb (is_not 41%N) p = true ->
  match_here fl_g re_img None (js "![" ++ a ++ js "](" ++ p ++ js ")")
  = Some ([], [(2, p); (1, a)]).
Proof.
  intros Ha Hp1 Hp2. unfold match_here, re_img.
  change (lits (js "![") ++ Grp 1 (star (is_not 93%N)) :: lits (js "](")
          ++ [Grp 2 (plus (is_not 41%N)); Chr 41%N])
    with (lits (js "![") ++ Grp 1 (star (is_not 93%N)) :: lits (js "](")
          ++ Grp 2 (plus (is_not 41%N)) :: [Chr 41%N]).
  apply match_image_head; try assumption; try reflexivity. discriminate.
Qed.

Lemma match_image_class a p x :
  forallb (is_not 93%N) a = true ->
  p <> [] -> forallb (is_not 41%N) p = true ->
  x <> [] -> forallb (is_not 125%N) x = true ->
  match_here fl_g re_img_class None (js "![" ++ a ++ js "](" ++ p ++ js "){." ++ x ++ js "}")
  = Some ([], [(3, x); (2, p); (1, a)]).
Proof.
  intros Ha Hp1 Hp2 Hx1 Hx2. unfold match_here, re_img_class.
  change (lits (js "![") ++ Grp 1 (star (is_not 93%N)) :: lits (js "](")
          ++ Grp 2 (plus (is_not 41%N)) :: lits (js "){.")
          ++ [Grp 3 (plus (is_not 125%N)); Chr 125%N])
    with (lits (js "![") ++ Grp 1 (star (is_not 93%N)) :: lits (js "](")
          ++ Grp 2 (plus (is_not 41%N))
          :: (lits (js "){.") ++ [Grp 3 (plus (is_not 125%N)); Chr 125%N])).
  apply match_image_head; try assumption; try reflexivity; [discriminate |].
  rewrite rmatch_lits.
  change (seq [Grp 3 (plus (is_not 125%N)); Chr 125%N])
    with (Seq (Grp 3 (Rep (is_not 125%N) 1 true)) (Chr 125%N)).
  rewrite rmatch_seq_grp_rep.
  apply rep_greedy_stop; [reflexivity | exact Hx2 | apply nonempty_le, Hx1 |].
  rewrite firstn_consumed. reflexivity.
Qed.

Lemma resolved_plain p :
  forallb plain_char (imageBasePath cfg) = true ->
  forallb plain_char p = true -> p <> [] ->
  forallb plain_char (resolveImagePath cfg p) = true
  /\ negb (Nat.eqb (length (resolveImagePath cfg p)) 0) = true.
Proof.
  intros Hb Hp Hn. unfold resolveImagePath.
  destruct (starts_with (js "http") p || starts_with (js "data:") p
            || starts_with (js "/") p).
  - split; [exact Hp | apply nonempty_length, Hn].
  - split; [rewrite forallb_app, Hb, Hp; reflexivity |].
    rewrite length_app. destruct p; [congruence |]. cbn [length].
    rewrite Nat.add_succ_r. reflexivity.
Qed.

Ltac as_segs segs :=
  match goal with
  | |- parseMarkdown _ ?s = _ =>
      replace s with (flatten segs)
        by (unfold flatten; cbn [map concat seg_text]; rewrite ?app_nil_r; reflexivity)
  end.

Ltac without_tac :=
  unfold flatten; cbn [map concat seg_text]; rewrite ?forallb_app;
  repeat match goal with
         | H : forallb (is_not _) _ = true |- _ => rewrite H
         end;
  reflexivity.

Ltac finish_segs :=
  unfold flatten; cbn [map concat seg_text]; rewrite ?app_nil_r;
  repeat (rewrite <- ?app_assoc; cbn [app]); reflexivity.

(** X13: an image without caption and class.  The alternative text and
    the source are plain; the source is resolved against the image base
    path, and the image element is put into a paragraph. *)
Theorem image_becomes_img (a p : jsstring) :
  forallb plain_char (imageBasePath cfg) = true ->
  image_alt a = true ->
  image_src p = true ->
  parseMarkdown cfg (js "![" ++ a ++ js "](" ++ p ++ js ")")
  = js "<p>" ++ img_element cfg a p ++ js "</p>".
Proof.
  intros Hb Ha Hp.
  destruct (image_alt_spec a Ha) as (A1 & A2 & A3).
  destruct (image_src_spec p Hp) as (P1 & P2 & P3 & P4).
  pose proof (plain_without 34%N a eq_refl A1) as A4.
  pose proof (plain_without 34%N p eq_refl P1) as P5.
  pose proof (nonempty_length p P3) as P6.
  destruct (resolved_plain p Hb P1 P3) as [R1 R2].
  unfold img_element. set (R := resolveImagePath cfg p) in *.
  assert (forall f, replace_all fl_g re_img f (js "![" ++ a ++ js "](" ++ p ++ js ")")
                    = f [(2, p); (1, a)]) as M.
  { intros f. apply replace_whole.
    - discriminate.
    - apply match_image; assumption.
    - apply no_empty_match; reflexivity. }
  destruct a as [| c a'].
  - as_segs [Conc (js "![]("); Sym p; Conc (js ")")].
    open_pipeline. repeat inert_pass_la.
    rewrite caption_needs_quote by without_tac.
    rewrite class_needs_brace by without_tac.
    change (flatten [Conc (js "![]("); Sym p; Conc (js ")")])
      with (js "![" ++ [] ++ js "](" ++ p ++ js ")").
    rewrite M.
    change (cap [(2, p); (1, [])] 2) with p. change (cap [(2, p); (1, [])] 1) with (@nil cu).
    fold R.
    change (js "<img src='" ++ R ++ js "' alt='" ++ [] ++ js "' loading='lazy'>")
      with (flatten [Conc (js "<img src='"); Sym R; Conc (js "' alt='' loading='lazy'>")]).
    repeat inert_pass_la.
    close_pipeline. finish_segs.
  - set (a := c :: a') in *.
    assert (negb (Nat.eqb (length a) 0) = true) as A5 by reflexivity.
    clearbody a.
    as_segs [Conc (js "!["); Sym a; Conc (js "]("); Sym p; Conc (js ")")].
    open_pipeline. repeat inert_pass_la.
    rewrite caption_needs_quote by without_tac.
    rewrite class_needs_brace by without_tac.
    replace (flatten [Conc (js "!["); Sym a; Conc (js "]("); Sym p; Conc (js ")")])
      with (js "![" ++ a ++ js "](" ++ p ++ js ")")
      by (unfold flatten; cbn [map concat seg_text]; rewrite ?app_nil_r; reflexivity).
    rewrite M.
    change (cap [(2, p); (1, a)] 2) with p. change (cap [(2, p); (1, a)] 1) with a.
    fold R.
    change (js "<img src='" ++ R ++ js "' alt='" ++ a ++ js "' loading='lazy'>")
      with (flatten [Conc (js "<img src='"); Sym R; Conc (js "' alt='"); Sym a;
                     Conc (js "' loading='lazy'>")]).
    repeat inert_pass_la.
    close_pipeline. finish_segs.
Qed.

(** X14: an image with a class.  The class marker after the closing
    parenthesis becomes the class attribute of the image element. *)
Theorem image_with_class (a p x : jsstring) :
  forallb plain_char (imageBasePath cfg) = true ->
  forallb plain_char a = true ->
  forallb (is_not 93%N) a = true ->
  link_target p = true ->
  image_class x = true ->
  parseMarkdown cfg (js "![" ++ a ++ js "](" ++ p ++ js "){." ++ x ++ js "}")
  = js "<p>" ++ img_class_element cfg a p x ++ js "</p>".
Proof.
  intros Hb A1 A2 Hp Hx.
  destruct (link_target_spec p Hp) as (P1 & P2 & P3 & P6).
  destruct (image_class_spec x Hx) as (X1 & X2 & X3 & X4).
  pose proof (plain_without 34%N a eq_refl A1) as A4.
  pose proof (plain_without 34%N p eq_refl P1) as P5.
  pose proof (plain_without 34%N x eq_refl X1) as X5.
  destruct (resolved_plain p Hb P1 P3) as [R1 R2].
  unfold img_class_element. set (R := resolveImagePath cfg p) in *.
  assert (forall f, replace_all fl_g re_img_class f
                      (js "![" ++ a ++ js "](" ++ p ++ js "){." ++ x ++ js "}")
                    = f [(3, x); (2, p); (1, a)]) as M.
  { intros f. apply replace_whole.
    - discriminate.
    - apply match_image_class; assumption.
    - apply no_empty_match; reflexivity. }
  destruct a as [| c a'].
  - as_segs [Conc (js "![]("); Sym p; Conc (js "){."); Sym x; Conc (js "}")].
    open_pipeline. repeat inert_pass_la.
    rewrite caption_needs_quote by without_tac.
    change (flatten [Conc (js "![]("); Sym p; Conc (js "){."); Sym x; Conc (js "}")])
      with (js "![" ++ [] ++ js "](" ++ p ++ js "){." ++ x ++ js "}").
    rewrite M.
    change (cap [(3, x); (2, p); (1, [])] 3) with x.
    change (cap [(3, x); (2, p); (1, [])] 2) with p.
    change (cap [(3, x); (2, p); (1, [])] 1) with (@nil cu).
    fold R.
    change (js "<img src='" ++ R ++ js "' alt='" ++ [] ++ js "' class='" ++ x
            ++ js "' loading='lazy'>")
      with (flatten [Conc (js "<img src='"); Sym R; Conc (js "' alt='' class='"); Sym x;
                     Conc (js "' loading='lazy'>")]).
    repeat inert_pass_la.
    close_pipeline. finish_segs.
  - set (a := c :: a') in *.
    assert (negb (Nat.eqb (length a) 0) = true) as A5 by reflexivity.
    clearbody a.
    as_segs [Conc (js "!["); Sym a; Conc (js "]("); Sym p; Conc (js "){."); Sym x;
             Conc (js "}")].
    open_pipeline. repeat inert_pass_la.
    rewrite caption_needs_quote by without_tac.
    replace (flatten [Conc (js "!["); Sym a; Conc (js "]("); Sym p; Conc (js "){."); Sym x;
                      Conc (js "}")])
      with (js "![" ++ a ++ js "](" ++ p ++ js "){." ++ x ++ js "}")
      by (unfold flatten; cbn [map concat seg_text]; rewrite ?app_nil_r; reflexivity).
    rewrite M.
    change (cap [(3, x); (2, p); (1, a)] 3) with x.
    change (cap [(3, x); (2, p); (1, a)] 2) with p.
    change (cap [(3, x); (2, p); (1, a)] 1) with a.
    fold R.
    change (js "<img src='" ++ R ++ js "' alt='" ++ a ++ js "' class='" ++ x
            ++ js "' loading='lazy'>")
      with (flatten [Conc (js "<img src='"); Sym R; Conc (js "' alt='"); Sym a;
                     Conc (js "' class='"); Sym x; Conc (js "' loading='lazy'>")]).
    repeat inert_pass_la.
    close_pipeline. finish_segs.
Qed.

(** *** Callouts *)

Lemma colon_fold x : plain_char x = true \/ x = nl -> chr_eq fl_gi 58%N x = false.
Proof.
  intros H. unfold chr_eq. cbn [icase fl_gi].
  change (ascii_upper 58%N) with 58%N.
  destruct H as [H | ->]; [| reflexivity].
  pose proof (plain_not 58%N x eq_refl H) as N. apply N.eqb_neq in N.
  apply N.eqb_neq. unfold ascii_upper. destruct (is_lower x) eqn:E; [| congruence].
  unfold is_lower in E. apply in_range_spec in E. lia.
Qed.

Lemma match_callout type B :
  forallb plain_char B = true ->
  match_here fl_gi (re_callout type) None
    ((js ":::" ++ type) ++ nl :: (B ++ [nl]) ++ js ":::")
  = Some ([], [(1, B ++ [nl])]).
Proof.
  intros HB. unfold match_here, re_callout.
  rewrite rmatch_lits.
  change ([Chr nl; Grp 1 (star_lazy any_cu)] ++ lits (js ":::"))
    with (Chr nl :: Grp 1 (star_lazy any_cu) :: lits (js ":::")).
  rewrite seq_cons by discriminate. rewrite rmatch_seq_chr.
  rewrite chr_eq_refl.
  rewrite seq_cons by discriminate. unfold star_lazy. rewrite rmatch_seq_grp_rep.
  apply rep_lazy_star.
  - clear. induction (B ++ [nl]) as [| x l IH]; [reflexivity | exact IH].
  - intros x s prev' Hx.
    rewrite <- (app_nil_r (lits (js ":::"))). apply lits_first_miss.
    apply colon_fold. apply in_app_or in Hx. destruct Hx as [Hx | [<- | []]].
    + left. rewrite forallb_forall in HB. apply HB, Hx.
    + right. reflexivity.
  - rewrite firstn_consumed, rmatch_lit_end. reflexivity.
Qed.

Lemma callout_no_empty type prev : match_here fl_gi (re_callout type) prev [] = None.
Proof.
  unfold match_here, re_callout.
  change (js ":::" ++ type) with (58%N :: js "::" ++ type). apply lits_nil_miss.
Qed.

Lemma callout_pass type B f :
  forallb plain_char B = true ->
  replace_all fl_gi (re_callout type) f
    (flatten [Conc (js ":::" ++ type ++ [nl]); Sym B; Conc (nl :: js ":::")])
  = f [(1, B ++ [nl])].
Proof.
  intros HB. apply replace_whole.
  - unfold flatten. cbn [map concat seg_text]. discriminate.
  - unfold flatten. cbn [map concat seg_text]. rewrite app_nil_r.
    replace ((js ":::" ++ type ++ [nl]) ++ B ++ nl :: js ":::")
      with ((js ":::" ++ type) ++ nl :: (B ++ [nl]) ++ js ":::").
    + apply match_callout, HB.
    + rewrite <- !app_assoc. reflexivity.
  - apply callout_no_empty.
Qed.

Lemma trim_line B :
  starts_plain B = true -> ends_plain B = true -> trim (B ++ [nl]) = B.
Proof.
  intros Hs He. destruct (starts_plain_spec B Hs) as [Hn Hf].
  pose proof (ends_plain_spec B He) as Hl.
  unfold trim. destruct B as [| c B]; [congruence |].
  cbn [app drop_while]. rewrite Hf.
  change (c :: B ++ [nl]) with ((c :: B) ++ [nl]). rewrite rev_app_distr.
  cbn [rev app drop_while]. change (is_space nl) with true. cbv iota.
  change (rev B ++ [c]) with (rev (c :: B)) in *.
  destruct (rev (c :: B)) as [| y t] eqn:E; [contradiction |].
  cbn [drop_while]. rewrite Hl. rewrite <- E. apply rev_involutive.
Qed.

Ltac callout_case ty B :=
  as_segs [Conc (js ":::" ++ ty ++ [nl]); Sym B; Conc (nl :: js ":::")];
  unfold parseMarkdown; rewrite escape_flat_map;
  match goal with
  | |- context [flat_map entity (flatten ?segs)] =>
      replace (flat_map entity (flatten segs)) with (flatten segs)
        by (unfold flatten; cbn [map concat seg_text];
            rewrite !flat_map_app, (entity_plain B) by assumption; reflexivity)
  end;
  open_pipeline;
  repeat inert_pass_la;
  rewrite callout_pass by assumption;
  change (cap [(1, B ++ [nl])] 1) with (B ++ [nl]);
  rewrite trim_line by assumption;
  match goal with
  | |- context [js "<div class='info-box " ++ ty ++ js "'>" ++ B ++ js "</div>"] =>
      change (js "<div class='info-box " ++ ty ++ js "'>" ++ B ++ js "</div>")
        with (flatten [Conc (js "<div class='info-box " ++ ty ++ js "'>"); Sym B;
                       Conc (js "</div>")])
  end;
  repeat inert_pass_la;
  close_pipeline; finish_segs.

(** X15: a callout of one of the five types, with a body of one plain
    line: the marker line, the body and the closing marker become one
    division whose class names the type. *)
Theorem callout_becomes_box (type B : jsstring) :
  In type calloutTypes ->
  forallb plain_char B = true ->
  starts_plain B = true ->
  ends_plain B = true ->
  parseMarkdown cfg (js ":::" ++ type ++ [nl] ++ B ++ [nl] ++ js ":::")
  = js "<div class='info-box " ++ type ++ js "'>" ++ B ++ js "</div>".
Proof.
  intros Hty HB Hs He. destruct (starts_plain_spec B Hs) as [Hn _].
  pose proof (nonempty_length B Hn) as HL.
  unfold calloutTypes in Hty. cbn [In] in Hty.
  destruct Hty as [<- | [<- | [<- | [<- | [<- | []]]]]].
  - callout_case (js "note") B.
  - callout_case (js "warning") B.
  - callout_case (js "tip") B.
  - callout_case (js "info") B.
  - callout_case (js "important") B.
Qed.

(** *** A line of plain text *)

Lemma text_start_plain c : text_start c = true -> plain_char c = true.
Proof.
  unfold text_start. intros H. apply andb_prop in H. destruct H as [H _].
  apply andb_prop in H. destruct H as [H _]. apply andb_prop in H. apply H.
Qed.

Lemma plain_not_terminator c : plain_char c = true -> is_line_terminator c = false.
Proof.
  intros H. apply plain_line in H. unfold is_line_terminator.
  repeat (rewrite (proj2 (N.eqb_neq c _)) by lia). reflexivity.
Qed.

Lemma line_misses fl r c rest :
  inert_line fl r = true ->
  text_start c = true ->
  forallb plain_char rest = true ->
  misses fl r None (c :: rest) []
  /\ match_here fl r (last_prev None (c :: rest)) [] = None.
Proof.
  intros H Hc Hr. unfold inert_line in H.
  apply andb_prop in H. destruct H as [H H3]. apply andb_prop in H. destruct H as [H1 H2].
  pose proof (text_start_plain c Hc) as Pc.
  assert (at_bol fl (Some c) = false) as B.
  { cbn [at_bol]. rewrite (plain_not_terminator c Pc). apply andb_false_r. }
  destruct (sym_misses fl r plain_char [] H2 plain_is_ascii rest (Some c) Hr B) as [M E].
  split; [split |].
  - unfold inert_first in H1. rewrite forallb_forall in H1.
    specialize (H1 c (in_ascii_units c (plain_is_ascii c Pc))). rewrite Hc in H1.
    cbn [implb] in H1.
    rewrite app_nil_r.
    apply (cannot_match_sound _ fl r None [c] true rest [] _ H1). discriminate.
  - exact M.
  - cbn [last_prev fold_left]. fold (last_prev (Some c) rest).
    apply (cannot_match_sound _ fl r _ [] false [] [] _); [| reflexivity].
    rewrite E. exact H3.
Qed.

Lemma line_inert_text fl r c rest :
  inert_line fl r = true ->
  text_start c = true ->
  forallb plain_char rest = true ->
  (forall f, replace_all fl r f (c :: rest) = c :: rest)
  /\ str_match fl r (c :: rest) = None
  /\ split_re fl r (c :: rest) = [c :: rest].
Proof.
  intros H Hc Hr. destruct (line_misses fl r c rest H Hc Hr) as [M E].
  split; [| split].
  - intros f. unfold replace_all.
    rewrite <- (app_nil_r (c :: rest)) at 1.
    rewrite (replace_misses fl r f _ _ _ M). cbn [replace_from]. rewrite E.
    apply app_nil_r.
  - unfold str_match. rewrite <- (app_nil_r (c :: rest)).
    rewrite (search_misses fl r _ _ _ M). cbn [search]. rewrite E. reflexivity.
  - unfold split_re. rewrite <- (app_nil_r (c :: rest)) at 1.
    rewrite (split_misses fl r _ None [] [] M). reflexivity.
Qed.

Ltac inert_line_pass :=
  match goal with
  | |- context [replace_all ?fl ?r ?f (?c :: ?rest)] =>
      rewrite (proj1 (line_inert_text fl r c rest ltac:(vm_compute; reflexivity)
                        ltac:(assumption) ltac:(assumption)) f)
  end.

(** X27: a line of plain text that starts with a character that is no
    white space, no number sign, no hyphen and no digit, and that does not
    end with white space, goes through every pass unchanged and is put
    into a paragraph. *)
Theorem plain_line_paragraph (c : cu) (rest : jsstring) :
  text_start c = true ->
  forallb plain_char rest = true ->
  ends_plain (c :: rest) = true ->
  parseMarkdown cfg (c :: rest) = js "<p>" ++ c :: rest ++ js "</p>".
Proof.
  intros Hc Hr He. pose proof (text_start_plain c Hc) as Pc.
  assert (forallb plain_char (c :: rest) = true) as HP.
  { cbn [forallb]. rewrite Pc, Hr. reflexivity. }
  unfold parseMarkdown. rewrite escape_flat_map, (entity_plain _ HP).
  open_pipeline. repeat inert_line_pass.
  destruct (line_inert_text fl_g (Chr nl) c rest eq_refl Hc Hr) as [RN _].
  destruct (line_misses fl_g (Chr nl) c rest eq_refl Hc Hr) as [MN _].
  destruct (line_inert_text fl_g re_ul c rest eq_refl Hc Hr) as (_ & U & _).
  destruct (line_inert_text fl_g re_ol c rest eq_refl Hc Hr) as (_ & O & _).
  destruct (line_inert_text fl_g re_blank c rest eq_refl Hc Hr) as (_ & _ & B).
  destruct (line_inert_text fl_gi re_block_tag c rest eq_refl Hc Hr) as (_ & K & _).
  assert (parseLists (c :: rest) = c :: rest) as HL.
  { assert (split_char nl (c :: rest) = [c :: rest]) as HS.
    { unfold split_char. rewrite <- (app_nil_r (c :: rest)) at 1.
      rewrite (split_on_misses _ None [] [] MN). reflexivity. }
    unfold parseLists. rewrite HS. cbn [list_scan fold_left].
    unfold list_line, ulMatch, olMatch. rewrite U, O. reflexivity. }
  rewrite HL. unfold parseParagraphs. rewrite B. cbn [map join].
  unfold paragraph.
  assert (trim (c :: rest) = c :: rest) as T.
  { apply trim_ends.
    - unfold text_start in Hc. apply andb_prop in Hc. destruct Hc as [Hc _].
      apply andb_prop in Hc. destruct Hc as [Hc _]. apply andb_prop in Hc.
      destruct Hc as [_ Hc]. apply negb_true_iff, Hc.
    - pose proof (ends_plain_spec _ He) as L.
      destruct (rev (c :: rest)); [contradiction | exact L]. }
  rewrite T. unfold is_block. rewrite K, RN. reflexivity.
Qed.

(** *** Captioned images *)

(** A greedy run that gives back its last character. *)
Lemma rep_greedy_back (A : Type) p (k : option cu -> jsstring -> option A) x v res :
  p x = true ->
  match v with y :: _ => p y = false | [] => True end ->
  k (Some x) v = None ->
  forall u min prev,
    forallb p u = true ->
    min <= length u ->
    k (last_prev prev u) (x :: v) = Some res ->
    rep p true min prev (u ++ x :: v) k = Some res.
Proof.
  intros Hx Hv Hk. induction u as [| c u IH]; intros min prev Hu Hm Hr.
  - cbn [length] in Hm. assert (min = 0) by lia. subst min.
    cbn [app last_prev fold_left] in *. cbn [rep]. rewrite Hx. cbn [pred].
    assert (rep p true 0 (Some x) v k = None) as E.
    { destruct v as [| y v]; cbn [rep]; [exact Hk |]. rewrite Hv. exact Hk. }
    rewrite E. exact Hr.
  - cbn [forallb] in Hu. apply andb_prop in Hu. destruct Hu as [Hc Hu].
    cbn [app rep]. rewrite Hc.
    rewrite (IH (pred min) (Some c) Hu); [reflexivity | cbn [length] in Hm; lia | exact Hr].
Qed.

Lemma match_image_caption a p c :
  forallb (is_not 93%N) a = true ->
  p <> [] -> forallb (fun x => is_not 41%N x && is_not 34%N x) p = true ->
  c <> [] -> forallb (is_not 34%N) c = true ->
  match_here fl_g re_img_caption None
    (js "![" ++ a ++ js "](" ++ p ++ js " '" ++ c ++ js "')")
  = Some ([], [(3, c); (2, p); (1, a)]).
Proof.
  intros Ha Hp1 Hp2 Hc1 Hc2. unfold match_here, re_img_caption.
  rewrite rmatch_lits. rewrite seq_cons by discriminate.
  unfold star at 1. rewrite rmatch_seq_grp_rep.
  apply rep_greedy_stop; [reflexivity | exact Ha | lia |].
  rewrite firstn_consumed, rmatch_lits.
  change ([Grp 2 (plus (fun c0 => is_not 41%N c0 && is_not 34%N c0)); plus is_space;
           Chr 34%N; Grp 3 (plus (is_not 34%N))] ++ lits (js "')"))
    with (Grp 2 (Rep (fun c0 => is_not 41%N c0 && is_not 34%N c0) 1 true)
          :: plus is_space :: Chr 34%N :: Grp 3 (plus (is_not 34%N)) :: lits (js "')")).
  rewrite seq_cons by discriminate. rewrite rmatch_seq_grp_rep.
  change (p ++ js " '" ++ c ++ js "')") with (p ++ 32%N :: (34%N :: c ++ js "')")).
  apply rep_greedy_back.
  - reflexivity.
  - reflexivity.
  - rewrite seq_cons by discriminate. unfold plus at 1. rewrite rmatch_seq_rep. reflexivity.
  - exact Hp2.
  - apply nonempty_le, Hp1.
  - rewrite firstn_consumed.
    rewrite seq_cons by discriminate. unfold plus at 1. rewrite rmatch_seq_rep.
    apply (rep_greedy_stop _ is_space _ (34%N :: c ++ js "')") _) with (u := [32%N]).
    + reflexivity.
    + reflexivity.
    + cbn; lia.
    + rewrite seq_cons by discriminate. rewrite rmatch_seq_chr.
      change (chr_eq fl_g 34%N 34%N) with true. cbv iota.
      rewrite seq_cons by discriminate. unfold plus at 1. rewrite rmatch_seq_grp_rep.
      apply rep_greedy_stop; [reflexivity | exact Hc2 | apply nonempty_le, Hc1 |].
      rewrite firstn_consumed, rmatch_lit_end. reflexivity.
Qed.

Lemma image_caption_spec c :
  image_caption c = true ->
  forallb plain_char c = true /\ c <> [] /\ negb (Nat.eqb (length c) 0) = true.
Proof.
  unfold image_caption. intros H. apply andb_prop in H. destruct H as [H1 H2].
  repeat split; try assumption. intros ->. discriminate.
Qed.

(** The figure passes the list and paragraph passes unchanged. *)
Lemma figure_block R a c :
  forallb plain_char R = true ->
  forallb plain_char a = true ->
  forallb plain_char c = true ->
  split_re fl_g re_blank (figure R a c) = [figure R a c] ->
  parseParagraphs (parseLists (figure R a c)) = figure R a c.
Proof.
  intros HR Ha Hc HB.
  assert (parseLists (figure R a c) = figure R a c) as HL.
  { apply parseLists_other_lines.
    assert (figure R a c
            = join [nl]
                [js "<figure class='figure'>";
                 spaces 16 ++ js "<img src='" ++ R ++ js "' alt='" ++ a
                 ++ js "' loading='lazy'>";
                 spaces 16 ++ js "<figcaption class='figure-caption'>" ++ c
                 ++ js "</figcaption>";
                 spaces 12 ++ js "</figure>"]) as E.
    { unfold figure. cbn [join]. rewrite <- !app_assoc. reflexivity. }
    rewrite E, split_join_lines.
    - reflexivity.
    - discriminate.
    - pose proof (plain_dot _ HR) as DR. pose proof (plain_dot _ Ha) as Da.
      pose proof (plain_dot _ Hc) as Dc.
      cbn [forallb]. rewrite !forallb_app, DR, Da, Dc. reflexivity. }
  rewrite HL. unfold parseParagraphs. rewrite HB. cbn [map join]. unfold paragraph.
  assert (trim (figure R a c) = figure R a c) as T.
  { apply trim_ends; [reflexivity |].
    unfold figure. rewrite !rev_app_distr. reflexivity. }
  rewrite T, is_block_head. reflexivity.
Qed.

(** X28: an image with a caption.  The alternative text, the source
    and the caption are plain; the result is a figure element that holds
    the image, with the source resolved against the image base path, and
    the caption, and the paragraph pass leaves the figure unwrapped. *)
Theorem image_with_caption (a p c : jsstring) :
  forallb plain_char (imageBasePath cfg) = true ->
  forallb plain_char a = true ->
  forallb (is_not 93%N) a = true ->
  link_target p = true ->
  image_caption c = true ->
  parseMarkdown cfg (js "![" ++ a ++ js "](" ++ p ++ js " '" ++ c ++ js "')")
  = figure (resolveImagePath cfg p) a c.
Proof.
  intros Hb A1 A2 Hp Hc.
  destruct (link_target_spec p Hp) as (P1 & P2 & P3 & P6).
  destruct (image_caption_spec c Hc) as (C1 & C2 & C3).
  pose proof (plain_without 34%N p eq_refl P1) as P5.
  pose proof (plain_without 34%N c eq_refl C1) as C5.
  destruct (resolved_plain p Hb P1 P3) as [R1 R2].
  assert (forallb (fun x => is_not 41%N x && is_not 34%N x) p = true) as P7.
  { rewrite forallb_forall in *. intros x Hx. rewrite (P2 x Hx), (P5 x Hx). reflexivity. }
  assert (forall f, replace_all fl_g re_img_caption f
                      (js "![" ++ a ++ js "](" ++ p ++ js " '" ++ c ++ js "')")
                    = f [(3, c); (2, p); (1, a)]) as M.
  { intros f. apply replace_whole.
    - discriminate.
    - apply match_image_caption; assumption.
    - apply no_empty_match; reflexivity. }
  set (R := resolveImagePath cfg p) in *.
  destruct a as [| c0 a'].
  - as_segs [Conc (js "![]("); Sym p; Conc (js " '"); Sym c; Conc (js "')")].
    open_pipeline. repeat inert_pass_la.
    change (flatten [Conc (js "![]("); Sym p; Conc (js " '"); Sym c; Conc (js "')")])
      with (js "![" ++ [] ++ js "](" ++ p ++ js " '" ++ c ++ js "')").
    rewrite M.
    change (cap [(3, c); (2, p); (1, [])] 3) with c.
    change (cap [(3, c); (2, p); (1, [])] 2) with p.
    change (cap [(3, c); (2, p); (1, [])] 1) with (@nil cu).
    fold R.
    set (segs := [Conc (js "<figure class='figure'>" ++ [nl] ++ spaces 16 ++ js "<img src='");
                  Sym R;
                  Conc (js "' alt='' loading='lazy'>" ++ [nl] ++ spaces 16
                        ++ js "<figcaption class='figure-caption'>");
                  Sym c;
                  Conc (js "</figcaption>" ++ [nl] ++ spaces 12 ++ js "</figure>")]).
    assert (figure R [] c = flatten segs) as F.
    { unfold figure, flatten, segs. cbn [map concat seg_text].
      rewrite <- !app_assoc. reflexivity. }
    rewrite F. unfold segs. repeat inert_pass_la. fold segs. rewrite <- F.
    apply figure_block; try assumption; try reflexivity.
    rewrite F. unfold segs.
    apply (inert_text_la fl_g re_blank plain_char _ plain_is_ascii);
      [vm_compute; reflexivity | segs_ok_la_tac].
  - set (a := c0 :: a') in *.
    assert (negb (Nat.eqb (length a) 0) = true) as A5 by reflexivity.
    clearbody a.
    as_segs [Conc (js "!["); Sym a; Conc (js "]("); Sym p; Conc (js " '"); Sym c;
             Conc (js "')")].
    open_pipeline. repeat inert_pass_la.
    replace (flatten [Conc (js "!["); Sym a; Conc (js "]("); Sym p; Conc (js " '"); Sym c;
                      Conc (js "')")])
      with (js "![" ++ a ++ js "](" ++ p ++ js " '" ++ c ++ js "')")
      by (unfold flatten; cbn [map concat seg_text]; rewrite ?app_nil_r; reflexivity).
    rewrite M.
    change (cap [(3, c); (2, p); (1, a)] 3) with c.
    change (cap [(3, c); (2, p); (1, a)] 2) with p.
    change (cap [(3, c); (2, p); (1, a)] 1) with a.
    fold R.
    set (segs := [Conc (js "<figure class='figure'>" ++ [nl] ++ spaces 16 ++ js "<img src='");
                  Sym R;
                  Conc (js "' alt='");
                  Sym a;
                  Conc (js "' loading='lazy'>" ++ [nl] ++ spaces 16
                        ++ js "<figcaption class='figure-caption'>");
                  Sym c;
                  Conc (js "</figcaption>" ++ [nl] ++ spaces 12 ++ js "</figure>")]).
    assert (figure R a c = flatten segs) as F.
    { unfold figure, flatten, segs. cbn [map concat seg_text].
      rewrite <- !app_assoc. reflexivity. }
    rewrite F. unfold segs. repeat inert_pass_la. fold segs. rewrite <- F.
    apply figure_block; try assumption; try reflexivity.
    rewrite F. unfold segs.
    apply (inert_text_la fl_g re_blank plain_char _ plain_is_ascii);
      [vm_compute; reflexivity | segs_ok_la_tac].
Qed.

(** *** The three image forms, in the order of the passes *)









End Inline.

(** ** The navigation generator *)

Section Navigation.

Lemma heading_id_visit h : heading_id (toc_visit h) = heading_id h.
Proof.
  unfold heading_id at 1. cbn [toc_visit id textContent].
  destruct (heading_id h) as [| c l] eqn:E; [| reflexivity].
  unfold heading_id in E. destruct (id h); [exact E | discriminate].
Qed.

Lemma toc_item_visit h : toc_item (toc_visit h) = toc_item h.
Proof.
  unfold toc_item. rewrite heading_id_visit. reflexivity.
Qed.

Lemma toc_visit_twice h : toc_visit (toc_visit h) = toc_visit h.
Proof.
  unfold toc_visit at 1 3. cbn [tagName textContent]. rewrite heading_id_visit. reflexivity.
Qed.

(** X16: the navigation generator, on a page with a navigation target.
    Every heading leaves the generator with the identifier its entry links
    to: the one it had, or the slug of its text.  Running the generator
    again on these headings writes the same navigation and changes no
    heading.  Without navigation target, or without headings, nothing is
    written. *)
Theorem toc_targets_are_ids (old : jsstring) (hs : list Element) :
  let r := generateTableOfContents (Some old) hs in
  Forall (fun h => heading_id h = id h) (snd r)
  /\ map id (snd r) = map heading_id hs
  /\ map textContent (snd r) = map textContent hs
  /\ generateTableOfContents (fst r) (snd r) = r
  /\ generateTableOfContents None hs = (None, hs)
  /\ generateTableOfContents (Some old) [] = (Some old, []).
Proof.
  cbv zeta. destruct hs as [| h hs].
  - cbn. repeat split; constructor.
  - cbn [generateTableOfContents fst snd].
    change (toc_visit h :: map toc_visit hs) with (map toc_visit (h :: hs)).
    set (l := h :: hs).
    assert (map toc_item (map toc_visit l) = map toc_item l) as E1.
    { rewrite map_map. apply map_ext. intros x. apply toc_item_visit. }
    assert (map toc_visit (map toc_visit l) = map toc_visit l) as E2.
    { rewrite map_map. apply map_ext. intros x. apply toc_visit_twice. }
    split; [| split; [| split; [| split; [| split]]]].
    + apply Forall_forall. intros x Hx.
      apply in_map_iff in Hx. destruct Hx as (y & <- & _).
      rewrite heading_id_visit. reflexivity.
    + rewrite map_map. reflexivity.
    + rewrite map_map. reflexivity.
    + unfold l at 1. cbn [map generateTableOfContents].
      change (toc_visit (toc_visit h) :: map toc_visit (map toc_visit hs))
        with (map toc_visit (map toc_visit l)).
      change (toc_item (toc_visit h) :: map toc_item (map toc_visit hs))
        with (map toc_item (map toc_visit l)).
      rewrite E1, E2. reflexivity.
    + reflexivity.
    + reflexivity.
Qed.

End Navigation.

(** ** Loads started by [init] and by the timer *)

Section Loads.
Variable host : Host.
Variable cfg : Config.

Lemma nth_error_mid (X : Type) (l1 : list X) x l2 :
  nth_error (l1 ++ x :: l2) (length l1) = Some x.
Proof. induction l1 as [| y l1 IH]; [reflexivity | exact IH]. Qed.

Lemma set_nth_mid l1 x l2 c : set_nth (length l1) c (l1 ++ x :: l2) = l1 ++ c :: l2.
Proof.
  induction l1 as [| y l1 IH]; [reflexivity |]. cbn [length app set_nth]. rewrite IH.
  reflexivity.
Qed.

Section Visit.
Variable F : Page -> nat -> Page.
Variable g : Container -> Container.
Variable e : Container -> list Effect.
Hypothesis HF : forall pg i c,
  nth_error (containers pg) i = Some c ->
  containers (F pg i) = set_nth i (g c) (containers pg)
  /\ effects (F pg i) = effects pg ++ e c
  /\ attempts (F pg i) = attempts pg
  /\ retryTimer (F pg i) = retryTimer pg
  /\ tocContainer (F pg i) = tocContainer pg.

(** A loop over the indices of the containers visits each container
    once. *)
Lemma visit_all : forall todo done pg,
  containers pg = done ++ todo ->
  let pg' := fold_left F (List.seq (length done) (length todo)) pg in
  containers pg' = done ++ map g todo
  /\ effects pg' = effects pg ++ flat_map e todo
  /\ attempts pg' = attempts pg
  /\ retryTimer pg' = retryTimer pg
  /\ tocContainer pg' = tocContainer pg.
Proof.
  induction todo as [| c todo IH]; intros done pg Hc; cbv zeta.
  - cbn [length List.seq fold_left map flat_map]. rewrite !app_nil_r in *. auto.
  - cbn [length List.seq fold_left map flat_map].
    destruct (HF pg (length done) c) as (H1 & H2 & H3 & H4 & H5).
    { rewrite Hc. apply nth_error_mid. }
    rewrite Hc, set_nth_mid in H1.
    specialize (IH (done ++ [g c]) (F pg (length done))).
    rewrite length_app, Nat.add_1_r in IH. cbv zeta in IH.
    destruct IH as (I1 & I2 & I3 & I4 & I5).
    { rewrite H1, <- app_assoc. reflexivity. }
    rewrite I1, I2, I3, I4, I5, H2, H3, H4, H5, <- !app_assoc. auto.
Qed.
End Visit.

Lemma set_nth_same : forall l i c, nth_error l i = Some c -> set_nth i c l = l.
Proof.
  induction l as [| x l IH]; intros [| i] c H; cbn in *; try discriminate.
  - congruence.
  - rewrite (IH i c H). reflexivity.
Qed.

Lemma start_load_visit pg i c :
  nth_error (containers pg) i = Some c ->
  containers (start_load host cfg i pg) = set_nth i (begun host cfg c) (containers pg)
  /\ effects (start_load host cfg i pg) = effects pg ++ begin_effects host cfg c
  /\ attempts (start_load host cfg i pg) = attempts pg
  /\ retryTimer (start_load host cfg i pg) = retryTimer pg
  /\ tocContainer (start_load host cfg i pg) = tocContainer pg.
Proof.
  intros H. unfold start_load, begun, begin_effects. rewrite H.
  destruct (loadContent_begin host cfg (contentSource c) c) as [[c' effs] p].
  cbn. auto.
Qed.

Lemma retry_load_visit pg i c :
  nth_error (containers pg) i = Some c ->
  containers (retry_load host cfg pg i) = set_nth i (retried host cfg c) (containers pg)
  /\ effects (retry_load host cfg pg i) = effects pg ++ retry_effects host cfg c
  /\ attempts (retry_load host cfg pg i) = attempts pg
  /\ retryTimer (retry_load host cfg pg i) = retryTimer pg
  /\ tocContainer (retry_load host cfg pg i) = tocContainer pg.
Proof.
  intros H. unfold retry_load, retried, retry_effects. rewrite H.
  destruct (not_rendered c).
  - apply start_load_visit, H.
  - rewrite (set_nth_same _ _ _ H), app_nil_r. auto.
Qed.

(** What [init] leaves on a page with containers. *)
Lemma init_visit cs toc :
  let pg := init host cfg cs toc in
  containers pg = map (begun host cfg) cs
  /\ effects pg = flat_map (begin_effects host cfg) cs
  /\ attempts pg = 0
  /\ retryTimer pg = negb (Nat.eqb (length cs) 0)
  /\ tocContainer pg = toc.
Proof.
  cbv zeta. unfold init.
  set (pg0 := {| containers := cs; tocContainer := toc; inflight := [];
                 attempts := 0; retryTimer := false; effects := [] |}).
  destruct (visit_all (fun pg i => start_load host cfg i pg) (begun host cfg)
              (begin_effects host cfg)
              (fun pg i c => start_load_visit pg i c) cs [] pg0 eq_refl)
    as (H1 & H2 & H3 & H4 & H5).
  cbn [length app] in *. 
  set (pg1 := fold_left _ _ pg0) in *. clearbody pg1.
  destruct cs as [| c cs']; cbn [containers effects attempts retryTimer tocContainer length
                                  Nat.eqb negb]; auto.
Qed.

(** What one run of the callback of the interval leaves. *)
Lemma retry_tick_visit pg :
  let pg' := retry_tick host cfg pg in
  containers pg' = map (retried host cfg) (containers pg)
  /\ effects pg' = effects pg ++ flat_map (retry_effects host cfg) (containers pg)
  /\ attempts pg' = attempts pg + 1
  /\ retryTimer pg' = (if maxAttempts <=? attempts pg + 1 then false else retryTimer pg)
  /\ tocContainer pg' = tocContainer pg.
Proof.
  cbv zeta. unfold retry_tick.
  set (pg0 := {| containers := containers pg; tocContainer := tocContainer pg;
                 inflight := inflight pg; attempts := attempts pg + 1;
                 retryTimer := retryTimer pg; effects := effects pg |}).
  destruct (visit_all (retry_load host cfg) (retried host cfg) (retry_effects host cfg)
              (fun pg i c => retry_load_visit pg i c) (containers pg0) [] pg0 eq_refl)
    as (H1 & H2 & H3 & H4 & H5).
  cbn [length app] in *.
  set (pg1 := fold_left _ _ pg0) in *. clearbody pg1.
  cbn [containers effects attempts retryTimer tocContainer pg0] in *.
  rewrite H3. destruct (maxAttempts <=? attempts pg + 1);
    cbn [containers effects attempts retryTimer tocContainer]; auto.
Qed.

Lemma count_fetches (e : Container -> list Effect) (q : Container -> bool) cs :
  (forall c, length (filter is_fetch (e c)) = if q c then 1 else 0) ->
  length (filter is_fetch (flat_map e cs)) = length (filter q cs).
Proof.
  intros H. induction cs as [| c cs IH]; [reflexivity |].
  cbn [flat_map filter]. rewrite filter_app, length_app, IH, H.
  destruct (q c); reflexivity.
Qed.

Lemma filter_true (X : Type) (l : list X) : filter (fun _ => true) l = l.
Proof. induction l as [| x l IH]; [reflexivity |]. cbn. rewrite IH. reflexivity. Qed.

(** X17: served over a protocol other than [file:], [init] starts one
    retrieval for every container, and every run of the callback of the
    interval starts one retrieval for every container whose rendered
    snapshot is unset at that moment, and for no other. *)
Theorem ticks_refetch_unrendered (cs : list Container) (toc : option jsstring) (pg : Page) :
  str_eqb (protocol host) (js "file:") = false ->
  retryTimer pg = true ->
  retrievals (init host cfg cs toc) = length cs
  /\ retrievals (step host cfg pg Tick)
     = retrievals pg + count_unrendered (containers pg).
Proof.
  intros Hp Ht.
  assert (forall c, length (filter is_fetch (begin_effects host cfg c)) = 1) as B.
  { intros c. unfold begin_effects, loadContent_begin. rewrite Hp. reflexivity. }
  split.
  - destruct (init_visit cs toc) as (_ & H2 & _). cbv zeta in H2.
    unfold retrievals. rewrite H2.
    rewrite (count_fetches _ (fun _ => true)); [rewrite filter_true; reflexivity |].
    intros c. apply B.
  - cbn [step]. rewrite Ht.
    destruct (retry_tick_visit pg) as (_ & H2 & _). cbv zeta in H2.
    unfold retrievals at 1. rewrite H2, filter_app, length_app.
    unfold count_unrendered. f_equal. apply count_fetches.
    intros c. unfold retry_effects. destruct (not_rendered c); [apply B | reflexivity].
Qed.

End Loads.

(** ** Pages opened from the file system *)

Section FileProtocol.
Variable host : Host.
Variable cfg : Config.
Hypothesis file_protocol : str_eqb (protocol host) (js "file:") = true.

Lemma begun_file c : begun host cfg c = marked c.
Proof. unfold begun, loadContent_begin. rewrite file_protocol. reflexivity. Qed.

Lemma begin_effects_file c : begin_effects host cfg c = [Interactive (innerHTML c)].
Proof. unfold begin_effects, loadContent_begin. rewrite file_protocol. reflexivity. Qed.

Lemma has_class_marked c : has_class (js "markdown-content") (marked c) = true.
Proof.
  unfold has_class, marked, add_class, classList_add. cbn [classList].
  destruct (existsb (str_eqb (js "markdown-content")) (classList c)) eqn:E; [exact E |].
  rewrite existsb_app, E. reflexivity.
Qed.

Lemma marked_twice c : marked (marked c) = marked c.
Proof.
  pose proof (has_class_marked c) as H. unfold has_class in H.
  unfold marked at 1. unfold add_class, classList_add. rewrite H.
  destruct (marked c); reflexivity.
Qed.

Lemma not_rendered_marked c : not_rendered (marked c) = not_rendered c.
Proof. reflexivity. Qed.

Lemma retried_marked c : retried host cfg (marked c) = marked c.
Proof.
  unfold retried. destruct (not_rendered (marked c)); [| reflexivity].
  rewrite begun_file. apply marked_twice.
Qed.

Lemma start_load_inflight i pg : inflight (start_load host cfg i pg) = inflight pg.
Proof.
  unfold start_load. destruct (nth_error (containers pg) i) as [c |]; [| reflexivity].
  unfold loadContent_begin. rewrite file_protocol. cbn. apply app_nil_r.
Qed.

Lemma retry_load_inflight pg i : inflight (retry_load host cfg pg i) = inflight pg.
Proof.
  unfold retry_load. destruct (nth_error (containers pg) i) as [c |]; [| reflexivity].
  destruct (not_rendered c); [apply start_load_inflight | reflexivity].
Qed.

Lemma fold_inflight (F : Page -> nat -> Page) :
  (forall pg i, inflight (F pg i) = inflight pg) ->
  forall l pg, inflight (fold_left F l pg) = inflight pg.
Proof.
  intros H. induction l as [| i l IH]; intros pg; [reflexivity |].
  cbn [fold_left]. rewrite IH. apply H.
Qed.

Lemma init_inflight cs toc : inflight (init host cfg cs toc) = [].
Proof.
  unfold init.
  set (pg0 := {| containers := cs; tocContainer := toc; inflight := [];
                 attempts := 0; retryTimer := false; effects := [] |}).
  pose proof (fold_inflight (fun pg i => start_load host cfg i pg)
                (fun pg i => start_load_inflight i pg) (List.seq 0 (length cs)) pg0) as H.
  destruct cs; cbn [inflight]; exact H.
Qed.

Lemma retry_tick_inflight pg : inflight (retry_tick host cfg pg) = inflight pg.
Proof.
  unfold retry_tick.
  set (pg0 := {| containers := containers pg; tocContainer := tocContainer pg;
                 inflight := inflight pg; attempts := attempts pg + 1;
                 retryTimer := retryTimer pg; effects := effects pg |}).
  pose proof (fold_inflight (retry_load host cfg) retry_load_inflight
                (List.seq 0 (length (containers pg0))) pg0) as H.
  destruct (maxAttempts <=? _); cbn [inflight]; exact H.
Qed.

Section Run.
Variable cs : list Container.
Variable toc : option jsstring.

Lemma count_unrendered_marked : count_unrendered (map marked cs) = count_unrendered cs.
Proof.
  unfold count_unrendered. induction cs as [| c l IH]; [reflexivity |].
  cbn [map filter]. rewrite not_rendered_marked.
  destruct (not_rendered c); cbn [length]; rewrite IH; reflexivity.
Qed.

Lemma interactive_flat_map (q : Container -> bool) l :
  filter is_interactive
    (flat_map (fun c => if q c then [Interactive (innerHTML c)] else []) l)
  = map (fun c => Interactive (innerHTML c)) (filter q l).
Proof.
  induction l as [| c l IH]; [reflexivity |]. cbn [flat_map filter].
  rewrite filter_app, IH. destruct (q c); reflexivity.
Qed.

Lemma fetch_flat_map (q : Container -> bool) l :
  filter is_fetch
    (flat_map (fun c => if q c then [Interactive (innerHTML c)] else []) l) = [].
Proof.
  induction l as [| c l IH]; [reflexivity |]. cbn [flat_map].
  rewrite filter_app, IH. destruct (q c); reflexivity.
Qed.

Lemma interactive_all l :
  filter is_interactive (flat_map (fun c => [Interactive (innerHTML c)]) l)
  = map (fun c => Interactive (innerHTML c)) l.
Proof.
  induction l as [| c l IH]; [reflexivity |]. cbn [flat_map app filter is_interactive map].
  rewrite IH. reflexivity.
Qed.

Lemma fetch_all l :
  filter is_fetch (flat_map (fun c => [Interactive (innerHTML c)]) l) = [].
Proof.
  induction l as [| c l IH]; [reflexivity |]. cbn [flat_map app filter is_fetch].
  exact IH.
Qed.

Lemma only_interactive (q : Container -> bool) l :
  forallb is_interactive
    (flat_map (fun c => if q c then [Interactive (innerHTML c)] else []) l) = true.
Proof.
  induction l as [| c l IH]; [reflexivity |]. cbn [flat_map].
  rewrite forallb_app, IH. destruct (q c); reflexivity.
Qed.

Lemma only_interactive_all l :
  forallb is_interactive (flat_map (fun c => [Interactive (innerHTML c)]) l) = true.
Proof.
  induction l as [| c l IH]; [reflexivity |]. cbn [flat_map app forallb is_interactive].
  exact IH.
Qed.

Lemma init_file_page : file_page cs toc (init host cfg cs toc) 0.
Proof.
  destruct (init_visit host cfg cs toc) as (H1 & H2 & H3 & H4 & H5). cbv zeta in *.
  assert (effects (init host cfg cs toc)
          = flat_map (fun c => [Interactive (innerHTML c)]) cs) as E.
  { rewrite H2. apply flat_map_ext. intros c. apply begin_effects_file. }
  unfold file_page. repeat split.
  - rewrite H1. apply map_ext. intros c. apply begun_file.
  - apply init_inflight.
  - exact H5.
  - exact H3.
  - unfold maxAttempts. lia.
  - rewrite H4. unfold maxAttempts. cbn [Nat.ltb Nat.leb]. rewrite andb_true_r. reflexivity.
  - unfold retrievals. rewrite E, fetch_all. reflexivity.
  - unfold interactive_calls. rewrite E, interactive_all, length_map. lia.
  - rewrite E. apply only_interactive_all.
Qed.

Lemma step_file_page pg k e :
  file_page cs toc pg k ->
  file_page cs toc (step host cfg pg e)
    (match e with Tick => if retryTimer pg then S k else k | Settle _ _ => k end).
Proof.
  intros (H1 & H2 & H3 & H4 & H5 & H6 & H7 & H8 & H9).
  destruct e as [| n outcome].
  - cbn [step]. destruct (retryTimer pg) eqn:T.
    + destruct (retry_tick_visit host cfg pg) as (V1 & V2 & V3 & V4 & V5). cbv zeta in *.
      symmetry in H6. apply andb_prop in H6. destruct H6 as [N L].
      apply Nat.ltb_lt in L.
      assert (effects (retry_tick host cfg pg)
              = effects pg
                ++ flat_map (fun c => if not_rendered c then [Interactive (innerHTML c)] else [])
                     (map marked cs)) as E.
      { rewrite V2, H1. f_equal. apply flat_map_ext. intros c.
        unfold retry_effects. rewrite begin_effects_file. reflexivity. }
      unfold file_page. repeat split.
      * rewrite V1, H1, map_map. apply map_ext. intros c. apply retried_marked.
      * rewrite retry_tick_inflight. exact H2.
      * rewrite V5. exact H3.
      * rewrite V3, H4. lia.
      * lia.
      * rewrite V4, H4, T, N. cbn [andb].
        unfold maxAttempts in *.
        destruct (3 <=? k + 1) eqn:Q.
        -- apply Nat.leb_le in Q. symmetry. apply Nat.ltb_ge. lia.
        -- apply Nat.leb_gt in Q. symmetry. apply Nat.ltb_lt. lia.
      * unfold retrievals in *. rewrite E, filter_app, length_app, H7, fetch_flat_map.
        reflexivity.
      * unfold interactive_calls in *.
        rewrite E, filter_app, length_app, H8, interactive_flat_map, length_map.
        fold (count_unrendered (map marked cs)). rewrite count_unrendered_marked. lia.
      * rewrite E, forallb_app, H9. apply only_interactive.
    + unfold file_page. repeat split; try assumption. rewrite T. exact H6.
  - cbn [step]. rewrite H2. destruct n; cbn [nth_error]; unfold file_page;
      repeat split; assumption.
Qed.

Lemma run_file_page : forall es pg k,
  file_page cs toc pg k ->
  exists k', file_page cs toc (run host cfg pg es) k'
             /\ (Nat.eqb (length cs) 0 = false -> k' = Nat.min (k + ticks es) maxAttempts)
             /\ (Nat.eqb (length cs) 0 = true -> k' = k).
Proof.
  induction es as [| e es IH]; intros pg k H.
  - exists k. split; [exact H |]. split; [| reflexivity].
    intros _. unfold ticks. cbn [filter length].
    destruct H as (_ & _ & _ & _ & H5 & _). lia.
  - pose proof (step_file_page pg k e H) as S.
    destruct (IH _ _ S) as (k' & I1 & I2 & I3).
    exists k'. split; [exact I1 |].
    destruct H as (_ & _ & _ & _ & H5 & H6 & _).
    split.
    + intros Hn. rewrite (I2 Hn). unfold ticks. destruct e as [| n o]; cbn [filter is_tick length].
      * rewrite H6, Hn. cbn [negb andb].
        destruct (k <? maxAttempts) eqn:L.
        -- f_equal. lia.
        -- apply Nat.ltb_ge in L. lia.
      * reflexivity.
    + intros He. rewrite (I3 He). destruct e as [| n o]; [| reflexivity].
      rewrite H6, He. reflexivity.
Qed.

End Run.

(** X18: a page opened from the file system ([file:] protocol).  No
    retrieval is ever attempted, whatever the timer does: all the loader
    does is to give every container the class [markdown-content] and to
    call [initializeInteractiveElements] on it; no snapshot is set and
    the navigation target is not touched.  As the rendered snapshot stays
    unset, every run of the callback of the interval calls
    [initializeInteractiveElements] again on each container whose snapshot
    was unset: after [k] runs (three at most) the function ran once on
    every container plus [k] times on these. *)
Theorem file_protocol_never_fetches (cs : list Container) (toc : option jsstring)
    (es : list Event) :
  let pg := run host cfg (init host cfg cs toc) es in
  retrievals pg = 0
  /\ inflight pg = []
  /\ forallb is_interactive (effects pg) = true
  /\ map lastRendered (containers pg) = map lastRendered cs
  /\ forallb (has_class (js "markdown-content")) (containers pg) = true
  /\ tocContainer pg = toc
  /\ interactive_calls pg = length cs + attempts pg * count_unrendered cs
  /\ attempts pg = (if Nat.eqb (length cs) 0 then 0 else Nat.min (ticks es) maxAttempts).
Proof.
  cbv zeta.
  destruct (run_file_page cs toc es _ 0 (init_file_page cs toc)) as (k & H & K1 & K2).
  destruct H as (H1 & H2 & H3 & H4 & H5 & H6 & H7 & H8 & H9).
  repeat split.
  - exact H7.
  - exact H2.
  - exact H9.
  - rewrite H1, map_map. reflexivity.
  - rewrite H1. apply forallb_forall. intros c Hc. apply in_map_iff in Hc.
    destruct Hc as (c0 & <- & _). apply has_class_marked.
  - exact H3.
  - rewrite H4. exact H8.
  - rewrite H4. destruct (Nat.eqb (length cs) 0) eqn:E; [apply K2 | apply K1]; reflexivity.
Qed.

End FileProtocol.

(** ** A load that succeeds *)

Section Success.
Variable host : Host.
Variable cfg : Config.

Lemma firstn_nil_iff (s : jsstring) n : firstn (S n) s = [] <-> s = [].
Proof. destruct s; cbn; split; congruence. Qed.

(** X19: a load whose retrieval succeeds fulfils its promise, keeps the
    first 800 code units of the text and of the transformed text as
    snapshots, and gives the container the class [markdown-content].  The
    container then counts as rendered exactly when the transformed text
    is not empty: the snapshot of an empty result is the empty string,
    which the timer takes for unset, so that a document that renders to
    nothing (the empty document, for one) is retrieved again at every run
    of the callback of the interval. *)
Theorem rendered_iff_not_empty (p : Pending) (outcome : FetchOutcome)
    (toc : option jsstring) (c : Container) (markdown : jsstring) :
  retrieved outcome = inr markdown ->
  let r := loadContent_resume host cfg p outcome toc c in
  snd r = Fulfilled
  /\ lastMarkdown (fst (fst (fst r))) = Some (firstn 800 markdown)
  /\ lastRendered (fst (fst (fst r))) = Some (firstn 800 (parseMarkdown cfg markdown))
  /\ has_class (js "markdown-content") (fst (fst (fst r))) = true
  /\ (not_rendered (fst (fst (fst r))) = true <-> parseMarkdown cfg markdown = [])
  /\ parseMarkdown cfg [] = [].
Proof.
  intros H. cbv zeta. unfold loadContent_resume. rewrite H.
  destruct (generateTOC cfg); cbn [fst snd].
  all: repeat split; try reflexivity.
  all: try (unfold has_class, add_class, classList_add; cbn [classList set_content set_snapshots];
            destruct (existsb (str_eqb (js "markdown-content")) (classList c)) eqn:E;
            [exact E | rewrite existsb_app, E; reflexivity]).
  all: unfold not_rendered; cbn [lastRendered add_class set_content set_snapshots];
       destruct (parseMarkdown cfg markdown); cbn; congruence.
Qed.

End Success.

(** ** [init] on the whole document *)

Section InitDocument.

Lemma no_sources doc :
  querySelectorAll_sources doc = [] ->
  forall n, In n doc -> dataContentSource n = None.
Proof.
  induction doc as [| m doc IH]; intros H n Hn; [contradiction |].
  cbn [querySelectorAll_sources] in H.
  destruct (dataContentSource m) eqn:E; [discriminate |].
  destruct Hn as [<- | Hn]; [exact E | apply IH; assumption].
Qed.

Lemma getElementById_in doc i n : getElementById doc i = Some n -> In n doc.
Proof.
  induction doc as [| m doc IH]; [discriminate |]. cbn [getElementById].
  destruct (str_eqb (nodeId m) i).
  - intros H. injection H as <-. left. reflexivity.
  - intros H. right. apply IH, H.
Qed.

(** X20: [init] loads the containers that carry the attribute
    [data-content-source], and nothing else.  The branch for the element
    with the default id never starts a load: it is reached only when no
    element of the document carries the attribute, and then the element
    with the default id carries none either.  So [init] on a document is
    [init] on the containers selected, with the configuration merged with
    the options; and options that override nothing leave the configuration
    as it is. *)
Theorem default_container_never_loads (host : Host) (config : Config)
    (options : Options) (doc : list Node) (toc : option jsstring) :
  init_document host config options doc toc
  = (merge_config config options,
     init host (merge_config config options) (querySelectorAll_sources doc) toc)
  /\ (querySelectorAll_sources doc = [] ->
      effects (snd (init_document host config options doc toc)) = []
      /\ retryTimer (snd (init_document host config options doc toc)) = false)
  /\ merge_config config no_options = config.
Proof.
  assert (init_document host config options doc toc
          = (merge_config config options,
             init host (merge_config config options) (querySelectorAll_sources doc) toc)) as E.
  { unfold init_document. f_equal.
    destruct (querySelectorAll_sources doc) as [| c cs] eqn:Q; [| reflexivity].
    destruct (getElementById doc (defaultContentId (merge_config config options)))
      as [d |] eqn:G; [| reflexivity].
    rewrite (no_sources doc Q d (getElementById_in _ _ _ G)). reflexivity. }
  split; [exact E |]. split.
  - intros Q. rewrite E, Q. split; reflexivity.
  - destruct config. reflexivity.
Qed.

End InitDocument.

(** ** Galleries *)

Section Galleries.

Lemma shown_outside : forall n a i,
  i < a \/ a + n <= i -> shown_from a n i = all_hidden a n.
Proof.
  induction n as [| n IH]; intros a i H; [reflexivity |].
  unfold shown_from, all_hidden in *. cbn [List.seq map].
  rewrite (IH (S a) i) by lia.
  destruct (Nat.eqb_spec a i); [lia | reflexivity].
Qed.

Lemma hide_shown : forall n a i,
  a <= i -> set_display (i - a) (js "none") (shown_from a n i) = all_hidden a n.
Proof.
  induction n as [| n IH]; intros a i H; [destruct (i - a); reflexivity |].
  unfold shown_from, all_hidden in *. cbn [List.seq map].
  destruct (i - a) as [| d] eqn:D.
  - cbn [set_display]. f_equal. apply (shown_outside n (S a) i). lia.
  - cbn [set_display]. destruct (Nat.eqb_spec a i); [lia |]. f_equal.
    replace d with (i - S a) by lia. apply IH. lia.
Qed.

Lemma show_hidden : forall n a i,
  a <= i -> set_display (i - a) (js "block") (all_hidden a n) = shown_from a n i.
Proof.
  induction n as [| n IH]; intros a i H; [destruct (i - a); reflexivity |].
  unfold shown_from, all_hidden in *. cbn [List.seq map].
  destruct (i - a) as [| d] eqn:D.
  - cbn [set_display]. assert (a = i) as -> by lia. rewrite Nat.eqb_refl. f_equal.
    symmetry. apply (shown_outside n (S i) i). lia.
  - cbn [set_display]. destruct (Nat.eqb_spec a i); [lia |]. f_equal.
    replace d with (i - S a) by lia. apply IH. lia.
Qed.

Lemma one_shown_length n i : length (one_shown n i) = n.
Proof. unfold one_shown. rewrite length_map, length_seq. reflexivity. Qed.

Lemma click_at next n i :
  gallery_click next 0 (gallery_at n i) = gallery_at n (next i n).
Proof.
  unfold gallery_click, gallery_at. cbn [navs nth_error displays currentIndex set_nav].
  rewrite one_shown_length. f_equal.
  pose proof (hide_shown n 0 i (Nat.le_0_l i)) as H1.
  pose proof (show_hidden n 0 (next i n) (Nat.le_0_l _)) as H2.
  rewrite Nat.sub_0_r in H1, H2. unfold shown_from in H1, H2. unfold one_shown.
  rewrite H1, H2. reflexivity.
Qed.

Lemma initGallery_at ds :
  2 <= length ds ->
  initGallery {| displays := ds; navs := [] |} = gallery_at (length ds) 0.
Proof.
  intros H. unfold initGallery. cbn [displays navs].
  destruct (length ds <=? 1) eqn:E; [apply Nat.leb_le in E; lia |]. reflexivity.
Qed.

Lemma clicks_at n : forall clicks i,
  fold_left nav_click clicks (gallery_at n i)
  = gallery_at n (fold_left (fun i (forward : bool) =>
                               if forward then next_index i n else prev_index i n)
                    clicks i).
Proof.
  induction clicks as [| b clicks IH]; intros i; [reflexivity |].
  cbn [fold_left]. unfold nav_click at 2, next_click, prev_click.
  destruct b; rewrite click_at; apply IH.
Qed.

Lemma index_bound n : forall clicks i,
  1 <= n -> i < n ->
  fold_left (fun i (forward : bool) => if forward then next_index i n else prev_index i n)
    clicks i < n.
Proof.
  induction clicks as [| b clicks IH]; intros i Hn Hi; [exact Hi |].
  cbn [fold_left]. apply IH; [exact Hn |].
  destruct b; unfold next_index, prev_index; apply Nat.mod_upper_bound; lia.
Qed.

(** X21: a gallery of two images or more, after [initGallery] and any
    sequence of clicks on the two buttons of its navigation: exactly one
    image is shown, the one the navigation points to, all the others are
    hidden, and the counter reads the number of that image (counted from
    one) and the number of images.  A gallery of one image or none is left
    as it is. *)
Theorem gallery_shows_one (ds : list jsstring) (clicks : list bool) :
  2 <= length ds ->
  let n := length ds in
  let g := fold_left nav_click clicks (initGallery {| displays := ds; navs := [] |}) in
  exists i,
    i < n
    /\ displays g = one_shown n i
    /\ navs g = [{| currentIndex := i;
                    counterText := decimal (i + 1) ++ js " / " ++ decimal n |}].
Proof.
  intros H n g. unfold g. rewrite (initGallery_at ds H), clicks_at. fold n.
  eexists. split; [| split; reflexivity].
  apply index_bound; lia.
Qed.

Lemma next_prev n i : i < n -> prev_index (next_index i n) n = i.
Proof.
  intros H. unfold prev_index, next_index.
  destruct (Nat.eq_dec (i + 1) n) as [E | E].
  - rewrite E, Nat.Div0.mod_same. cbn [Nat.add]. rewrite Nat.mod_small; lia.
  - rewrite (Nat.mod_small (i + 1) n) by lia.
    replace (i + 1 + n - 1) with (i + 1 * n) by lia.
    rewrite Nat.Div0.mod_add. apply Nat.mod_small, H.
Qed.

Lemma prev_next n i : i < n -> next_index (prev_index i n) n = i.
Proof.
  intros H. unfold prev_index, next_index.
  destruct i as [| i].
  - cbn [Nat.add]. rewrite (Nat.mod_small (n - 1) n) by lia.
    replace (n - 1 + 1) with n by lia. apply Nat.Div0.mod_same.
  - replace (S i + n - 1) with (i + 1 * n) by lia.
    rewrite Nat.Div0.mod_add. rewrite (Nat.mod_small i n) by lia.
    rewrite Nat.mod_small by lia. lia.
Qed.

Lemma next_iter n : forall k i,
  i < n -> Nat.iter k (fun j => next_index j n) i = (i + k) mod n.
Proof.
  induction k as [| k IH]; intros i H.
  - cbn [Nat.iter nat_rect]. rewrite Nat.add_0_r. symmetry. apply Nat.mod_small, H.
  - cbn [Nat.iter nat_rect]. fold (Nat.iter k (fun j => next_index j n) i).
    rewrite (IH i H). unfold next_index.
    rewrite Nat.Div0.add_mod_idemp_l. f_equal. lia.
Qed.

Lemma iter_click n : forall k i,
  Nat.iter k (next_click 0) (gallery_at n i)
  = gallery_at n (Nat.iter k (fun j => next_index j n) i).
Proof.
  induction k as [| k IH]; intros i; [reflexivity |].
  cbn [Nat.iter nat_rect].
  fold (Nat.iter k (next_click 0) (gallery_at n i)).
  fold (Nat.iter k (fun j => next_index j n) i).
  rewrite IH. unfold next_click. apply click_at.
Qed.

(** X22: the two buttons of a gallery undo each other, and the gallery
    is a cycle: in every state reached by clicks, the button for the next
    image followed by the button for the previous one (or the other way
    round) leaves the gallery as it was, and as many clicks on the button
    for the next image as there are images lead back to the same
    image. *)
Theorem gallery_cycles (ds : list jsstring) (clicks : list bool) :
  2 <= length ds ->
  let g := fold_left nav_click clicks (initGallery {| displays := ds; navs := [] |}) in
  prev_click 0 (next_click 0 g) = g
  /\ next_click 0 (prev_click 0 g) = g
  /\ Nat.iter (length ds) (next_click 0) g = g.
Proof.
  intros H g. unfold g. rewrite (initGallery_at ds H), clicks_at.
  set (n := length ds).
  set (i := fold_left _ clicks 0).
  assert (i < n) as Hi by (apply index_bound; unfold n; lia).
  unfold prev_click, next_click. rewrite !click_at.
  rewrite (next_prev n i Hi), (prev_next n i Hi).
  split; [reflexivity |]. split; [reflexivity |].
  change (gallery_click next_index 0) with (next_click 0).
  rewrite iter_click, (next_iter n n i Hi).
  replace (i + n) with (i + 1 * n) by lia.
  rewrite Nat.Div0.mod_add, Nat.mod_small by exact Hi. reflexivity.
Qed.

End Galleries.

(** ** The lightbox and the Escape key *)

Section Escape_key.

Lemma without_in o x l : In x (without o l) <-> In x l /\ x <> o.
Proof.
  unfold without. rewrite filter_In, negb_true_iff, Nat.eqb_neq. tauto.
Qed.

Lemma escHandler_escape o d :
  escHandler o escape_key d
  = {| lightboxes := without o (lightboxes d);
       created := created d;
       overflow := [];
       keydownListeners := without o (keydownListeners d) |}.
Proof. reflexivity. Qed.

Lemma escHandler_other o key d : str_eqb key escape_key = false -> escHandler o key d = d.
Proof. intros H. unfold escHandler. fold escape_key. rewrite H. reflexivity. Qed.

Lemma step_reachable d e : reachable d -> reachable (user_step d e).
Proof.
  intros [H1 H2]. destruct e as [| o | o | key].
  - split.
    + intros x Hx. cbn in *. apply in_app_or in Hx. apply in_or_app.
      destruct Hx as [Hx | Hx]; [left; apply H1, Hx | right; exact Hx].
    + cbn. intros H. destruct (keydownListeners d); discriminate.
  - cbn [user_step]. destruct (existsb (Nat.eqb o) (lightboxes d)); [| split; assumption].
    split.
    + intros x Hx. cbn in *. apply without_in in Hx. apply H1, Hx.
    + reflexivity.
  - cbn [user_step]. destruct (existsb (Nat.eqb o) (lightboxes d)); [| split; assumption].
    split.
    + intros x Hx. cbn in *. apply without_in in Hx. apply H1, Hx.
    + reflexivity.
  - cbn [user_step].
    destruct (str_eqb key escape_key) eqn:K.
    + assert (forall l d0, reachable d0 ->
                reachable (fold_left (fun d1 o => escHandler o key d1) l d0)) as F.
      { induction l as [| o l IH]; intros d0 R; [exact R |].
        cbn [fold_left]. apply IH. unfold escHandler. fold escape_key. rewrite K.
        destruct R as [R1 R2]. split.
        - intros x Hx. cbn in *. apply without_in in Hx. destruct Hx as [Hx Hn].
          apply without_in. split; [apply R1, Hx | exact Hn].
        - reflexivity. }
      apply F. split; assumption.
    + assert (forall l d0, fold_left (fun d1 o => escHandler o key d1) l d0 = d0) as F.
      { induction l as [| o l IH]; intros d0; [reflexivity |].
        cbn [fold_left]. rewrite escHandler_other by exact K. apply IH. }
      rewrite F. split; assumption.
Qed.

Lemma run_reachable es : forall d, reachable d -> reachable (user_run d es).
Proof.
  induction es as [| e es IH]; intros d H; [exact H |].
  cbn [user_run fold_left]. apply IH, step_reachable, H.
Qed.

(** The handlers of the listeners [l] have run. *)
Lemma escape_fold : forall l d,
  let d' := fold_left (fun d1 o => escHandler o escape_key d1) l d in
  (forall x, In x (lightboxes d') <-> In x (lightboxes d) /\ ~ In x l)
  /\ (forall x, In x (keydownListeners d') <-> In x (keydownListeners d) /\ ~ In x l)
  /\ (l <> [] -> overflow d' = [])
  /\ (l = [] -> d' = d).
Proof.
  induction l as [| o l IH]; intros d; cbv zeta.
  - cbn [fold_left In]. repeat split; try tauto; congruence.
  - cbn [fold_left]. specialize (IH (escHandler o escape_key d)). cbv zeta in IH.
    destruct IH as (I1 & I2 & I3 & I4). rewrite escHandler_escape in *.
    cbn [lightboxes keydownListeners overflow] in *.
    split; [| split; [| split]].
    + intros x. rewrite I1, without_in. cbn [In]. intuition congruence.
    + intros x. rewrite I2, without_in. cbn [In]. intuition congruence.
    + intros _. destruct l as [| o' l']; [rewrite I4 by reflexivity; reflexivity |].
      apply I3. discriminate.
    + discriminate.
Qed.

Lemma no_element (l : list nat) : (forall x, ~ In x l) -> l = [].
Proof.
  destruct l as [| x l]; [reflexivity |]. intros H. exfalso. apply (H x). left. reflexivity.
Qed.

(** X23: the Escape key.  In every state the document reaches by
    clicks on images, clicks on backdrops and dismiss controls, and keys,
    one Escape key removes every overlay and every key listener,
    including the listeners that dismissals by click left behind, and
    restores the scrolling of the page; any other key changes nothing. *)
Theorem escape_closes_everything (es : list UserEvent) :
  let d := user_run empty_document es in
  let d' := user_step d (KeyDown (js "Escape")) in
  lightboxes d' = []
  /\ keydownListeners d' = []
  /\ overflow d' = []
  /\ (forall key, str_eqb key (js "Escape") = false -> user_step d (KeyDown key) = d).
Proof.
  cbv zeta. set (d := user_run empty_document es).
  assert (reachable d) as [R1 R2].
  { apply run_reachable. split; [intros x [] | reflexivity]. }
  cbn [user_step]. fold escape_key.
  destruct (escape_fold (keydownListeners d) d) as (E1 & E2 & E3 & E4). cbv zeta in *.
  split; [| split; [| split]].
  - apply no_element. intros x Hx. apply E1 in Hx. destruct Hx as [Hx Hn].
    apply Hn, R1, Hx.
  - apply no_element. intros x Hx. apply E2 in Hx. tauto.
  - destruct (keydownListeners d) as [| o l] eqn:L.
    + rewrite E4 by reflexivity. apply R2. reflexivity.
    + apply E3. discriminate.
  - intros key K.
    assert (forall l d0, fold_left (fun d1 o => escHandler o key d1) l d0 = d0) as F.
    { induction l as [| o l IH]; intros d0; [reflexivity |].
      cbn [fold_left]. rewrite escHandler_other by exact K. apply IH. }
    apply F.
Qed.

End Escape_key.

(** ** The throttled scroll handler *)

Section ScrollSpy.

Lemma spy_step_ok s e : spy_ok s -> spy_ok (spy_step s e).
Proof.
  intros [[H1 H2] | [H1 H2]]; destruct e; unfold spy_ok; cbn; rewrite ?H1, ?H2; cbn; auto.
Qed.

Lemma spy_run_ok es : forall s,
  spy_ok s ->
  spy_ok (spy_run s es) /\ updates (spy_run s es) <= updates s + frames es.
Proof.
  induction es as [| e es IH]; intros s H.
  - unfold frames. cbn. split; [exact H | lia].
  - cbn [spy_run fold_left]. destruct (IH _ (spy_step_ok s e H)) as [I1 I2].
    split; [exact I1 |]. fold (spy_run (spy_step s e) es) in *.
    etransitivity; [exact I2 |]. unfold frames. clear I1 I2 IH.
    destruct H as [[H1 H2] | [H1 H2]]; destruct e; cbn; rewrite ?H1, ?H2; cbn; lia.
Qed.

(** X24: the scroll handler of the navigation.  Whatever scroll events
    and animation frames arrive, one callback at most waits for the next
    frame, and it waits exactly while [ticking] is set; the active entry
    is computed once at the start and then at most once per animation
    frame, however many scroll events arrive between two frames; and a
    scroll event is never lost: the next frame after it computes the
    active entry once. *)
Theorem scroll_updates_once_per_frame (es : list SpyEvent) :
  let s := spy_run initScrollSpy es in
  frameRequests s <= 1
  /\ (ticking s = true <-> frameRequests s = 1)
  /\ updates s <= 1 + frames es
  /\ updates (spy_step (spy_step s Scroll) AnimationFrame) = updates s + 1
  /\ updates (spy_step (spy_step (spy_step s Scroll) Scroll) AnimationFrame)
     = updates s + 1.
Proof.
  cbv zeta. destruct (spy_run_ok es initScrollSpy) as [H1 H2].
  { right. split; reflexivity. }
  cbn [initScrollSpy updates] in H2.
  set (s := spy_run initScrollSpy es) in *.
  destruct H1 as [[T R] | [T R]]; cbn; rewrite ?T, ?R; cbn; rewrite ?T, ?R; cbn;
    repeat split; try lia; try congruence; try (intros; discriminate).
Qed.

End ScrollSpy.

(** ** Listeners on images and galleries *)

Section Interactive.









End Interactive.

(** ** The slug of a slug *)

Section SlugAgain.

Lemma filter_all (p : cu -> bool) s : forallb p s = true -> filter p s = s.
Proof.
  induction s as [| c s IH]; [reflexivity |]. cbn [forallb filter]. intros H.
  apply andb_prop in H. destruct H as [H1 H2]. rewrite H1, (IH H2). reflexivity.
Qed.

Lemma collapse_fixed : forall s b,
  Forall (fun c => is_space c = false) s ->
  no_double_hyphen s = true ->
  (b = true -> starts_hyphen s = false) ->
  collapse b s = s.
Proof.
  induction s as [| c s IH]; intros b Hs Hd Hb; [reflexivity |].
  inversion Hs as [| ? ? Hc Hs']; subst.
  rewrite no_double_hyphen_cons in Hd. apply andb_prop in Hd. destruct Hd as [Hd1 Hd2].
  cbn [collapse]. unfold is_sep. rewrite Hc. cbn [orb].
  destruct (is_hyphen c) eqn:Eh.
  - destruct b.
    + specialize (Hb eq_refl). cbn [starts_hyphen] in Hb. congruence.
    + apply is_hyphen_eq in Eh. subst c. f_equal.
      apply IH; [exact Hs' | exact Hd2 |].
      intros _. cbn [andb] in Hd1. apply negb_true_iff in Hd1. exact Hd1.
  - f_equal. apply IH; [exact Hs' | exact Hd2 | discriminate].
Qed.

Lemma word_or_hyphen_ascii c : is_word c || is_hyphen c = true -> is_ascii c = true.
Proof.
  unfold is_word, is_upper, is_lower, is_digit, is_hyphen, hyphen, is_ascii.
  rewrite !orb_true_iff, !in_range_spec, !N.eqb_eq, N.ltb_lt. lia.
Qed.

(** X26: the slug of an ASCII text is its own slug: [slugify] changes
    nothing in what it returned, so that an identifier made from a heading
    text stays the same when it is made again from the identifier. *)
Theorem slugify_idempotent (text : jsstring) :
  forallb is_ascii text = true ->
  slugify (slugify text) = slugify text.
Proof.
  intros Ha. rewrite !slugify_refines.
  set (s := slug_spec text).
  assert (forallb (fun c => is_word c || is_hyphen c) s = true) as W.
  { unfold s, slug_spec. apply collapse_word, filter_forallb. }
  assert (no_double_hyphen s = true) as D.
  { unfold s, slug_spec. apply collapse_no_double. }
  assert (Forall (fun c => is_space c = false) s) as S.
  { unfold s, slug_spec. apply collapse_no_space. }
  assert (forallb (fun c => negb (is_upper c)) s = true) as U.
  { unfold s, slug_spec. rewrite (toLowerCase_ascii text Ha).
    apply collapse_chars; [reflexivity |]. apply filter_forallb_mono.
    clear. induction text as [| c t IH]; [reflexivity |].
    cbn [forallb map]. rewrite ascii_lower_not_upper, IH. reflexivity. }
  assert (forallb is_ascii s = true) as A.
  { rewrite forallb_forall in *. intros c Hc. apply word_or_hyphen_ascii, W, Hc. }
  unfold slug_spec at 1. rewrite (toLowerCase_ascii s A).
  assert (map ascii_lower s = s) as L.
  { clear - U. induction s as [| c s IH]; [reflexivity |].
    cbn [forallb map] in *. apply andb_prop in U. destruct U as [U1 U2].
    rewrite (IH U2). unfold ascii_lower. apply negb_true_iff in U1. rewrite U1.
    reflexivity. }
  rewrite L, filter_all.
  - apply collapse_fixed; [exact S | exact D | discriminate].
  - rewrite forallb_forall in *. intros c Hc. specialize (W c Hc).
    unfold slug_char. apply orb_prop in W. destruct W as [W | W]; rewrite W;
      rewrite ?orb_true_r; reflexivity.
Qed.

End SlugAgain.
End Loader.

(** ** Closed instances

    The host's case mapping is taken to be [latin1_toLowerCase]; every
    text below is ASCII, where the mapping is never consulted. *)

(** C1, at a concrete failure: the page is served over https, the
    retrieval answers 404, the container showed a fallback paragraph. *)
Lemma loadContent_failure_leaves_loading_witness :
  let host := {| protocol := js "https:"; globals := [] |} in
  let c := {| contentSource := js "burdens.md";
              innerHTML := js "<p>Fallback</p>";
              classList := []; lastMarkdown := None; lastRendered := None |} in
  (str_eqb (protocol host) (js "file:") = false
   /\ retrieval_fails (FetchResponse false 404 None) = true
   /\ scope_get (globals host) (js "fallbackContent") = None)
  /\ exists e,
       retrieved (FetchResponse false 404 None) = inl e
       /\ loadContent latin1_toLowerCase host default_config (js "burdens.md")
            (FetchResponse false 404 None) None c
          = (set_content loading c, None,
             [Fetched (resolveContentPath default_config (js "burdens.md")); Warned e],
             RejectedWith (ReferenceError (js "fallbackContent"))).
Proof.
  cbv zeta. split; [repeat split |].
  apply (loadContent_failure_leaves_loading latin1_toLowerCase); reflexivity.
Defined.

(** C2, the claim as stated fails: the heading element of a first
    transformation is escaped by the second one and wrapped in a
    paragraph. *)
Lemma parseMarkdown_twice_wraps_heading :
  parseMarkdown latin1_toLowerCase default_config (js "# Hi") = js "<h1>Hi</h1>"
  /\ is_block (js "<h1>Hi</h1>") = true
  /\ parseMarkdown latin1_toLowerCase default_config (js "<h1>Hi</h1>")
     = js "<p>&lt;h1&gt;Hi&lt;/h1&gt;</p>".
Proof. repeat split; vm_compute; reflexivity. Qed.

(** The sample document is transformed into its blocks. *)
Lemma sample_blocks_rendered :
  parseMarkdown latin1_toLowerCase default_config sample_document
  = join [nl; nl] sample_blocks.
Proof. vm_compute. reflexivity. Qed.

(** C2 as amended, at the blocks of a transformed document. *)
Lemma paragraphs_keep_blocks_witness :
  Forall tight_block sample_blocks
  /\ parseParagraphs (join [nl; nl] sample_blocks) = join [nl; nl] sample_blocks.
Proof.
  assert (Forall tight_block sample_blocks) as H.
  { repeat constructor; vm_compute; reflexivity. }
  split; [exact H |].
  apply paragraphs_keep_blocks. exact H.
Defined.

(** C3, the claim as stated fails: the headings of level 1 and 3 carry
    no identifier; and the identifier of a level-2 heading whose text
    holds emphasis markers is rewritten by the emphasis pass. *)
Lemma heading_level1_without_id :
  parseMarkdown latin1_toLowerCase default_config (js "# Title") = js "<h1>Title</h1>"
  /\ includes (js "id=")
       (parseMarkdown latin1_toLowerCase default_config (js "# Title")) = false
  /\ parseMarkdown latin1_toLowerCase default_config (js "### Title") = js "<h3>Title</h3>"
  /\ parseMarkdown latin1_toLowerCase default_config (js "## my_heading_text")
     = js "<h2 id='my<em>heading</em>text'>my<em>heading</em>text</h2>".
Proof. repeat split; vm_compute; reflexivity. Qed.

(** C3 as amended, at a level-2 heading. *)
Lemma heading_levels_witness :
  (1 <= 2 <= 6
   /\ forallb plain_char (js "Costs for Energy at Home") = true
   /\ starts_plain (js "Costs for Energy at Home") = true)
  /\ parseMarkdown latin1_toLowerCase default_config
       (hashes 2 ++ js " " ++ js "Costs for Energy at Home")
     = heading_html latin1_toLowerCase 2 (js "Costs for Energy at Home")
  /\ forallb slug_out_char (slugify latin1_toLowerCase (js "Costs for Energy at Home"))
     = true.
Proof.
  split; [repeat split; auto |].
  apply (heading_levels latin1_toLowerCase default_config 2); [lia | reflexivity | reflexivity].
Defined.

(** The underscore is a word character: it is no letter, digit, white
    space or hyphen, and it is kept. *)
Lemma slugify_keeps_underscore :
  slugify latin1_toLowerCase (js "a_b") = js "a_b"
  /\ existsb (fun c => negb (is_upper c || is_lower c || is_digit c
                           || is_space c || is_hyphen c))
             (slugify latin1_toLowerCase (js "a_b")) = true.
Proof. split; vm_compute; reflexivity. Qed.

(** C4, at the text "Hello" with a space in front of it and after it. *)
Lemma slugify_leaves_outer_hyphens_witness :
  (forallb is_ascii (js "Hello") = true /\ is_ascii 32%N = true /\ is_sep 32%N = true)
  /\ slugify latin1_toLowerCase (32%N :: js "Hello")
     = replace_all fl_g (plus is_hyphen) (fun _ => js "-")
         (replace_all fl_g (plus is_space) (fun _ => js "-")
            (replace_all fl_g (Cls not_slug_char) (fun _ => [])
               (toLowerCase latin1_toLowerCase (32%N :: js "Hello"))))
  /\ (exists s, slugify latin1_toLowerCase (32%N :: js "Hello") = hyphen :: s)
  /\ (exists s, slugify latin1_toLowerCase (js "Hello" ++ [32%N]) = s ++ [hyphen])
  /\ slugify latin1_toLowerCase (js " Hello ") = js "-hello-".
Proof.
  split; [repeat split |].
  apply (slugify_leaves_outer_hyphens latin1_toLowerCase (js "Hello") 32%N); reflexivity.
Defined.



(** C9, at a page with one container whose retrievals never succeed:
    three ticks, then two more ticks and two failures. *)
Lemma retry_cap_witness :
  let host := {| protocol := js "https:"; globals := [] |} in
  let c := {| contentSource := js "burdens.md";
              innerHTML := js "<p>Fallback</p>";
              classList := []; lastMarkdown := None; lastRendered := None |} in
  let es1 := [Tick; Settle 0 (FetchResponse false 404 None); Tick; Tick] in
  let es2 := [Tick; Settle 0 (FetchRejected []); Tick] in
  let start := init host default_config [c] None in
  let pg := run latin1_toLowerCase host default_config start es1 in
  maxAttempts <= ticks es1
  /\ retryTimer pg = false
  /\ attempts pg <= maxAttempts
  /\ retrievals pg <= retrievals start + maxAttempts * length [c]
  /\ retrievals (run latin1_toLowerCase host default_config start (es1 ++ es2))
     = retrievals pg.
Proof.
  cbv zeta. split; [vm_compute; lia |].
  apply (retry_cap latin1_toLowerCase). vm_compute. lia.
Defined.

(** ** Further closed instances *)

(** X3, at a text with Windows line ends: the line with a hyphen ends
    with a carriage return and is no list line. *)
Lemma parseLists_keeps_other_lines_witness :
  let html := js "Title" ++ [13; 10]%N ++ js "- a" ++ [13; 10]%N ++ js "text" in
  forallb (fun l => negb (starts_item l) || ends_cr l) (split_char nl html) = true
  /\ parseLists html = html.
Proof.
  cbv zeta. split; [reflexivity |].
  apply parseLists_keeps_other_lines. reflexivity.
Defined.

(** X4, at a hyphen line followed by an asterisk line. *)
Lemma bullets_make_one_list_witness :
  let items := [(45%N, js "first"); (42%N, js "second item")] in
  (items <> []
   /\ forallb (fun mx => is_bullet (fst mx) && item_text (snd mx)) items = true)
  /\ parseLists (join [nl] (map (fun mx => bullet (fst mx) (snd mx)) items))
     = join [nl] (js "<ul>" :: map (fun mx => li (snd mx)) items ++ [js "</ul>"]).
Proof.
  cbv zeta. split; [split; [discriminate | reflexivity] |].
  apply bullets_make_one_list; [discriminate | reflexivity].
Defined.

(** X5, at lines numbered 1, 7 and 10. *)
Lemma numbered_lines_lose_numbers_witness :
  let items := [(js "1", js "first"); (js "7", js "second"); (js "10", js "third")] in
  (items <> []
   /\ forallb (fun nx => is_number (fst nx) && item_text (snd nx)) items = true)
  /\ parseLists (join [nl] (map (fun nx => numbered (fst nx) (snd nx)) items))
     = join [nl] (js "<ol>" :: map (fun nx => li (snd nx)) items ++ [js "</ol>"]).
Proof.
  cbv zeta. split; [split; [discriminate | reflexivity] |].
  apply numbered_lines_lose_numbers; [discriminate | reflexivity].
Defined.

(** X6, at a text of two lines, a heading after two line feeds and a
    last line after four. *)
Lemma paragraphs_wrap_text_witness :
  let b := js "Intro" ++ [nl] ++ js "more" in
  let rest := [(0, js "<h1>T</h1>"); (2, js "end")] in
  (tidy_block b = true
   /\ forallb (fun kb => tidy_block (snd kb)) rest = true)
  /\ parseParagraphs (glue b rest) = join [nl; nl] (map wrapped (b :: map snd rest)).
Proof.
  cbv zeta. split; [split; reflexivity |].
  apply paragraphs_wrap_text; reflexivity.
Defined.

(** X7, at the text "very important". *)
Lemma emphasis_forms_witness :
  let T := js "very important" in
  let md := parseMarkdown latin1_toLowerCase default_config in
  (T <> [] /\ forallb plain_char T = true)
  /\ md (js "*" ++ T ++ js "*") = js "<p><em>" ++ T ++ js "</em></p>"
  /\ md (js "**" ++ T ++ js "**") = js "<p><strong>" ++ T ++ js "</strong></p>"
  /\ md (js "***" ++ T ++ js "***") = js "<p><strong><em>" ++ T ++ js "</em></strong></p>"
  /\ md (js "_" ++ T ++ js "_") = js "<p><em>" ++ T ++ js "</em></p>"
  /\ md (js "__" ++ T ++ js "__") = js "<p><strong>" ++ T ++ js "</strong></p>"
  /\ md (js "___" ++ T ++ js "___") = js "<p><strong><em>" ++ T ++ js "</em></strong></p>".
Proof.
  cbv zeta. split; [split; [discriminate | reflexivity] |].
  apply (emphasis_forms latin1_toLowerCase default_config (js "very important"));
    [discriminate | reflexivity].
Defined.

(** X8, at a link to a page of the site. *)
Lemma link_becomes_anchor_witness :
  (link_text (js "the guide") = true /\ link_target (js "tool-guide.html") = true)
  /\ parseMarkdown latin1_toLowerCase default_config
       (js "[" ++ js "the guide" ++ js "](" ++ js "tool-guide.html" ++ js ")")
     = js "<p><a href='" ++ js "tool-guide.html" ++ js "'>" ++ js "the guide"
       ++ js "</a></p>".
Proof.
  split; [split; reflexivity |].
  apply (link_becomes_anchor latin1_toLowerCase default_config); reflexivity.
Defined.

(** X9, at an assignment. *)
Lemma backquotes_make_code_witness :
  (js "x = 1" <> [] /\ forallb plain_char (js "x = 1") = true)
  /\ parseMarkdown latin1_toLowerCase default_config (js "`" ++ js "x = 1" ++ js "`")
     = js "<p><code>" ++ js "x = 1" ++ js "</code></p>".
Proof.
  split; [split; [discriminate | reflexivity] |].
  apply (backquotes_make_code latin1_toLowerCase default_config);
    [discriminate | reflexivity].
Defined.

(** X10, at a quotation of one line. *)
Lemma quote_line_witness :
  (forallb plain_char (js "Energy is a basic need.") = true
   /\ starts_plain (js "Energy is a basic need.") = true)
  /\ parseMarkdown latin1_toLowerCase default_config
       (js "> " ++ js "Energy is a basic need.")
     = js "<blockquote>" ++ js "Energy is a basic need." ++ js "</blockquote>".
Proof.
  split; [split; reflexivity |].
  apply (quote_line latin1_toLowerCase default_config); reflexivity.
Defined.

(** X12, at seven number signs, a space and a title. *)
Lemma seven_hashes_no_heading_witness :
  (forallb plain_char (js " Too deep") = true /\ ends_plain (js " Too deep") = true)
  /\ parseMarkdown latin1_toLowerCase default_config (hashes 7 ++ js " Too deep")
     = js "<p>" ++ hashes 7 ++ js " Too deep" ++ js "</p>".
Proof.
  split; [split; reflexivity |].
  apply (seven_hashes_no_heading latin1_toLowerCase default_config); reflexivity.
Defined.

(** X13, at an image of the assets directory. *)
Lemma image_becomes_img_witness :
  (forallb plain_char (imageBasePath default_config) = true
   /\ image_alt (js "Chart") = true
   /\ image_src (js "chart.png") = true)
  /\ parseMarkdown latin1_toLowerCase default_config
       (js "![" ++ js "Chart" ++ js "](" ++ js "chart.png" ++ js ")")
     = js "<p>" ++ img_element default_config (js "Chart") (js "chart.png") ++ js "</p>".
Proof.
  split; [repeat split |].
  apply (image_becomes_img latin1_toLowerCase default_config); reflexivity.
Defined.

(** X14, at the same image with the class [wide]. *)
Lemma image_with_class_witness :
  (forallb plain_char (imageBasePath default_config) = true
   /\ forallb plain_char (js "Chart") = true
   /\ forallb (is_not 93%N) (js "Chart") = true
   /\ link_target (js "chart.png") = true
   /\ image_class (js "wide") = true)
  /\ parseMarkdown latin1_toLowerCase default_config
       (js "![" ++ js "Chart" ++ js "](" ++ js "chart.png" ++ js "){." ++ js "wide"
        ++ js "}")
     = js "<p>" ++ img_class_element default_config (js "Chart") (js "chart.png") (js "wide")
       ++ js "</p>".
Proof.
  split; [repeat split |].
  apply (image_with_class latin1_toLowerCase default_config); reflexivity.
Defined.

(** X15, at a warning. *)
Lemma callout_becomes_box_witness :
  (In (js "warning") calloutTypes
   /\ forallb plain_char (js "Mind the gap.") = true
   /\ starts_plain (js "Mind the gap.") = true
   /\ ends_plain (js "Mind the gap.") = true)
  /\ parseMarkdown latin1_toLowerCase default_config
       (js ":::" ++ js "warning" ++ [nl] ++ js "Mind the gap." ++ [nl] ++ js ":::")
     = js "<div class='info-box " ++ js "warning" ++ js "'>" ++ js "Mind the gap."
       ++ js "</div>".
Proof.
  assert (In (js "warning") calloutTypes) as H by (right; left; reflexivity).
  split; [repeat split; exact H |].
  apply (callout_becomes_box latin1_toLowerCase default_config);
    [exact H | reflexivity | reflexivity | reflexivity].
Defined.

(** X17, at a page served over https with two containers, one of them
    rendered already. *)
Lemma ticks_refetch_unrendered_witness :
  let host := {| protocol := js "https:"; globals := [] |} in
  let c1 := {| contentSource := js "a.md"; innerHTML := js "<p>Fallback</p>";
               classList := []; lastMarkdown := None; lastRendered := None |} in
  let c2 := {| contentSource := js "b.md"; innerHTML := js "<p>B</p>";
               classList := []; lastMarkdown := Some (js "B");
               lastRendered := Some (js "<p>B</p>") |} in
  let pg := {| containers := [c1; c2]; tocContainer := None; inflight := [];
               attempts := 1; retryTimer := true; effects := [] |} in
  (str_eqb (protocol host) (js "file:") = false /\ retryTimer pg = true)
  /\ retrievals (init host default_config [c1; c2] None) = length [c1; c2]
  /\ retrievals (step latin1_toLowerCase host default_config pg Tick)
     = retrievals pg + count_unrendered (containers pg).
Proof.
  cbv zeta. split; [split; reflexivity |].
  apply (ticks_refetch_unrendered latin1_toLowerCase); reflexivity.
Defined.

(** X18, at a page opened from the file system with two containers:
    four ticks and a retrieval that settles. *)
Lemma file_protocol_never_fetches_witness :
  let host := {| protocol := js "file:"; globals := [] |} in
  let c1 := {| contentSource := js "a.md"; innerHTML := js "<p>A</p>";
               classList := []; lastMarkdown := None; lastRendered := None |} in
  let c2 := {| contentSource := js "b.md"; innerHTML := js "<p>B</p>";
               classList := [js "card"]; lastMarkdown := None; lastRendered := None |} in
  let cs := [c1; c2] in
  let es := [Tick; Settle 0 (FetchRejected []); Tick; Tick; Tick] in
  let pg := run latin1_toLowerCase host default_config
              (init host default_config cs None) es in
  str_eqb (protocol host) (js "file:") = true
  /\ retrievals pg = 0
  /\ inflight pg = []
  /\ forallb is_interactive (effects pg) = true
  /\ map lastRendered (containers pg) = map lastRendered cs
  /\ forallb (has_class (js "markdown-content")) (containers pg) = true
  /\ tocContainer pg = None
  /\ interactive_calls pg = length cs + attempts pg * count_unrendered cs
  /\ attempts pg = (if Nat.eqb (length cs) 0 then 0 else Nat.min (ticks es) maxAttempts).
Proof.
  cbv zeta. split; [reflexivity |].
  apply (file_protocol_never_fetches latin1_toLowerCase). reflexivity.
Defined.

(** X19, at a retrieval that answers with a heading. *)
Lemma rendered_iff_not_empty_witness :
  let host := {| protocol := js "https:"; globals := [] |} in
  let c := {| contentSource := js "a.md"; innerHTML := loading;
              classList := []; lastMarkdown := None; lastRendered := None |} in
  let p := {| functionScope := []; tryScope := [] |} in
  let outcome := FetchResponse true 200 (Some (js "# Hi")) in
  let r := loadContent_resume latin1_toLowerCase host default_config p outcome None c in
  retrieved outcome = inr (js "# Hi")
  /\ snd r = Fulfilled
  /\ lastMarkdown (fst (fst (fst r))) = Some (firstn 800 (js "# Hi"))
  /\ lastRendered (fst (fst (fst r)))
     = Some (firstn 800 (parseMarkdown latin1_toLowerCase default_config (js "# Hi")))
  /\ has_class (js "markdown-content") (fst (fst (fst r))) = true
  /\ (not_rendered (fst (fst (fst r))) = true
      <-> parseMarkdown latin1_toLowerCase default_config (js "# Hi") = [])
  /\ parseMarkdown latin1_toLowerCase default_config [] = [].
Proof.
  cbv zeta. split; [reflexivity |].
  apply (rendered_iff_not_empty latin1_toLowerCase). reflexivity.
Defined.

(** X21, at a gallery of three images: next, next, previous, next. *)
Lemma gallery_shows_one_witness :
  let ds := [[]; []; []] : list jsstring in
  let clicks := [true; true; false; true] in
  let n := length ds in
  let g := fold_left nav_click clicks (initGallery {| displays := ds; navs := [] |}) in
  2 <= length ds
  /\ exists i,
       i < n
       /\ displays g = one_shown n i
       /\ navs g = [{| currentIndex := i;
                       counterText := decimal (i + 1) ++ js " / " ++ decimal n |}].
Proof.
  cbv zeta. split; [cbn; lia |].
  apply (gallery_shows_one [[]; []; []] [true; true; false; true]). cbn. lia.
Defined.

(** X22, at the same gallery. *)
Lemma gallery_cycles_witness :
  let ds := [[]; []; []] : list jsstring in
  let clicks := [true; true; false; true] in
  let g := fold_left nav_click clicks (initGallery {| displays := ds; navs := [] |}) in
  2 <= length ds
  /\ prev_click 0 (next_click 0 g) = g
  /\ next_click 0 (prev_click 0 g) = g
  /\ Nat.iter (length ds) (next_click 0) g = g.
Proof.
  cbv zeta. split; [cbn; lia |].
  apply (gallery_cycles [[]; []; []] [true; true; false; true]). cbn. lia.
Defined.

(** X26, at a text with upper-case letters, spaces and hyphens. *)
Lemma slugify_idempotent_witness :
  forallb is_ascii (js " Hello  World- ") = true
  /\ slugify latin1_toLowerCase (slugify latin1_toLowerCase (js " Hello  World- "))
     = slugify latin1_toLowerCase (js " Hello  World- ").
Proof.
  split; [reflexivity |].
  apply (slugify_idempotent latin1_toLowerCase). reflexivity.
Defined.

(** X27, at a sentence. *)
Lemma plain_line_paragraph_witness :
  (text_start 72%N = true
   /\ forallb plain_char (js "ello, world.") = true
   /\ ends_plain (72%N :: js "ello, world.") = true)
  /\ parseMarkdown latin1_toLowerCase default_config (72%N :: js "ello, world.")
     = js "<p>" ++ 72%N :: js "ello, world." ++ js "</p>".
Proof.
  split; [repeat split |].
  apply (plain_line_paragraph latin1_toLowerCase default_config); reflexivity.
Defined.

(** X28, at the image with the caption "Monthly costs". *)
Lemma image_with_caption_witness :
  (forallb plain_char (imageBasePath default_config) = true
   /\ forallb plain_char (js "Chart") = true
   /\ forallb (is_not 93%N) (js "Chart") = true
   /\ link_target (js "chart.png") = true
   /\ image_caption (js "Monthly costs") = true)
  /\ parseMarkdown latin1_toLowerCase default_config
       (js "![" ++ js "Chart" ++ js "](" ++ js "chart.png" ++ js " '" ++ js "Monthly costs"
        ++ js "')")
     = figure (resolveImagePath default_config (js "chart.png")) (js "Chart")
         (js "Monthly costs").
Proof.
  split; [repeat split |].
  apply (image_with_caption latin1_toLowerCase default_config); reflexivity.
Defined.
